(** * UHD: RFNoC DDC block controller and USRP2 motherboard properties

    A shallow embedding of
      - host/lib/rfnoc/ddc_block_control.cpp   (module [DDC])
      - host/lib/usrp/usrp2/mboard_impl.cpp    (module [USRP2])
    together with the properties stated about them.

    Conventions.
      - The sample rates are binary64 values ([double]): the resolvers
        divide them, truncate the quotient to an [int] and compare, so that
        the rounding of the quotient and the infinities decide what is
        stored.  Their quotients and products are rounded to nearest, ties
        to even, and may be an infinity or a NaN.
      - The other C++ [double] values (scalings, gains, frequencies, the
        valid decimations) are modelled by the rationals [Q] they stand for:
        every finite double is a rational and comparisons of doubles are
        exact; the rounding of their arithmetic is not modelled.
      - Fixed-width integers are [Z] with the wrap-around written out
        ([wrap 32], [wrap 64]).
      - A C++ exception aborts the call: fallible code returns [result]; the
        motherboard methods also return the object as the exception leaves
        it. *)

From Stdlib Require Import ZArith QArith Qround Qabs Lqa Lia List Sorted Bool String.
From Stdlib Require Import SpecFloat.
From stdpp Require Import base list relations.
Import ListNotations.

Local Open Scope Z_scope.

(** ** Exceptions and the error monad *)

Inductive error : Type :=
| assertion_error      (* UHD_ASSERT_THROW / ASSERT_THROW *)
| out_of_range         (* std::vector::at *)
| rounding_error       (* boost::math::iround *)
| runtime_error (msg : string)
| bad_cast             (* wax::obj::as<T> on the wrong type *)
| resolution_bound_exceeded
| undefined_behaviour. (* the C++ standard gives the operation no meaning *)

Inductive result (A : Type) : Type :=
| Ok (a : A)
| Err (e : error).
Arguments Ok {A} a.
Arguments Err {A} e.

Definition rbind {A B : Type} (m : result A) (k : A -> result B) : result B :=
  match m with
  | Ok a => k a
  | Err e => Err e
  end.

Notation "'do' x <- m ; k" := (rbind m (fun x => k))
  (at level 10, x name, m at level 100, k at level 200).

(** ** Machine integers *)

Definition wrap (w : Z) (x : Z) : Z := x mod 2 ^ w.

Definition INT_MIN : Z := - 2 ^ 31.
Definition INT_MAX : Z := 2 ^ 31 - 1.

(** ** Rational helpers standing for operations on doubles *)

Definition Qlt_bool (x y : Q) : bool := negb (Qle_bool y x).

(** Truncation toward zero: the value part of [static_cast<int>(double)] and
    of [int(double)]. *)
Definition Qtrunc (x : Q) : Z := Z.quot (Qnum x) (Zpos (Qden x)).

(** [static_cast<int>(x)]: undefined when the truncated value does not fit. *)
Definition static_cast_int (x : Q) : result Z :=
  let t := Qtrunc x in
  if (INT_MIN <=? t) && (t <=? INT_MAX) then Ok t else Err undefined_behaviour.

(** ** Binary64 *)

(** IEEE 754 binary64: [spec_float] with a mantissa of 53 bits and the
    infinities at exponent 1024.  The operations round to nearest, ties to
    even; dividing by a zero gives an infinity, or a NaN when the dividend is
    a zero or a NaN. *)
Definition double : Type := spec_float.

Definition ddiv (x y : double) : double := SFdiv 53 1024 x y.
Definition dmul (x y : double) : double := SFmul 53 1024 x y.

(** [==] and [<] on doubles: false as soon as an operand is a NaN. *)
Definition deqb (x y : double) : bool := SFeqb x y.
Definition dltb (x y : double) : bool := SFltb x y.

Definition dzero : double := S754_zero false.

(** The conversion of an integer to [double]; exact below [2^53]. *)
Definition double_of_int (z : Z) : double := binary_normalize 53 1024 z 0 false.

(** The rational a finite double stands for. *)
Definition double_value (x : double) : option Q :=
  match x with
  | S754_zero _ => Some 0%Q
  | S754_finite s m e =>
      let n := if s then Zneg m else Zpos m in
      Some (match e with
            | Zneg p => Qmake n (2 ^ p)
            | _ => inject_Z (n * 2 ^ e)
            end)
  | S754_infinity _ | S754_nan => None
  end.

(** The double of a rational the model holds for a double: the quotient of
    numerator and denominator, which is that double when both are below
    [2^53] (the valid decimations are integers). *)
Definition double_of_Q (q : Q) : double :=
  ddiv (double_of_int (Qnum q)) (double_of_int (Zpos (Qden q))).

(** [int(x)] for a double: truncation toward zero, undefined for a NaN, an
    infinity and a value outside [int]. *)
Definition int_of_double (x : double) : result Z :=
  match double_value x with
  | Some q => static_cast_int q
  | None => Err undefined_behaviour
  end.

Arguments ddiv : simpl never.
Arguments dmul : simpl never.
Arguments deqb : simpl never.
Arguments dltb : simpl never.
Arguments double_of_int : simpl never.
Arguments double_of_Q : simpl never.

Module DDC.

(** ** Constants of ddc_block_control.cpp *)

Definition DEFAULT_RATE : double := double_of_int 1000000000.
Definition DEFAULT_SCALING : Q := 1.
Definition DEFAULT_DECIM : Z := 1.
Definition DEFAULT_FREQ : Q := 0.
Definition IO_TYPE_SC16 : string := "sc16".
Definition DEFAULT_TYPE : string := IO_TYPE_SC16.

Definition REG_CHAN_OFFSET : Z := 2048.

Definition MINOR_COMPAT : Z := 0.
Definition MAJOR_COMPAT : Z := 0.
Definition RB_COMPAT_NUM : Z := 0.
Definition RB_NUM_HB : Z := 8.
Definition RB_CIC_MAX_DECIM : Z := 16.

Definition SR_N_ADDR : Z := 128 * 8.
Definition SR_M_ADDR : Z := 129 * 8.
Definition SR_CONFIG_ADDR : Z := 130 * 8.
Definition SR_FREQ_ADDR : Z := 132 * 8.
Definition SR_SCALE_IQ_ADDR : Z := 133 * 8.
Definition SR_DECIM_ADDR : Z := 134 * 8.
Definition SR_MUX_ADDR : Z := 135 * 8.
Definition SR_COEFFS_ADDR : Z := 136 * 8.

(** ** The list of valid decimations (constructor, lines 74-83) *)

(** [std::set<size_t>::insert]: a strictly increasing list without
    duplicates. *)
Fixpoint set_insert (x : Z) (l : list Z) : list Z :=
  match l with
  | [] => [x]
  | y :: l' =>
      if x <? y then x :: y :: l'
      else if x =? y then y :: l'
      else y :: set_insert x l'
  end.

(** [1 << hb] on [int]; the C++ expression is defined for [0 <= hb < 31]. *)
Definition int_shl1 (hb : Z) : Z := Z.shiftl 1 hb.

(** The values [0, 1, ..., n-1] of a loop [for (size_t i = 0; i < n; i++)]. *)
Definition loop_range (n : Z) : list Z := map Z.of_nat (seq 0 (Z.to_nat n)).

(** The inner loop over [cic_decim]. *)
Definition insert_cic_row (cic_max_decim hb : Z) (decims : list Z) : list Z :=
  fold_left
    (fun decims cic_decim => set_insert (wrap 64 (int_shl1 hb * cic_decim)) decims)
    (loop_range cic_max_decim) decims.

(** [std::set<size_t> decims{1}; for hb ... for cic_decim ... insert]. *)
Definition build_decims (num_halfbands cic_max_decim : Z) : list Z :=
  fold_left (fun decims hb => insert_cic_row cic_max_decim hb decims)
    (loop_range num_halfbands) [1].

(** [_valid_decims]: one degenerate range [range_t(double(decim))] per
    member, in the iteration order of the set. *)
Definition make_valid_decims (decims : list Z) : list Q := map inject_Z decims.

(** ** Block state *)

(** A property: its value and its dirty flag. *)
Record property (T : Type) : Type := mk_property { value : T; is_dirty : bool }.
Arguments mk_property {T} value is_dirty.
Arguments value {T} p.
Arguments is_dirty {T} p.

Definition force_dirty {T : Type} (p : property T) : property T :=
  mk_property (value p) true.

Definition mark_clean {T : Type} (p : property T) : property T :=
  mk_property (value p) false.

(** Assignment to a property inside a resolver: the property becomes dirty
    when the value changes ("assigning the same value again does not
    redirty"). *)
Definition assign {T : Type} (eqb : T -> T -> bool) (p : property T) (v : T)
  : property T :=
  mk_property v (is_dirty p || negb (eqb (value p) v)).

Definition assign_double := assign Qeq_bool.
Definition assign_rate := assign deqb.
Definition assign_int := assign Z.eqb.
Definition assign_string := assign String.eqb.

(** The eight properties of one channel: element [chan] of the vectors
    [_samp_rate_in], [_samp_rate_out], [_scaling_in], [_scaling_out],
    [_decim], [_freq], [_type_in], [_type_out] (all of the same length). *)
Record chan_props : Type := mk_chan_props {
  samp_rate_in : property double;
  samp_rate_out : property double;
  scaling_in : property Q;
  scaling_out : property Q;
  decim : property Z;
  freq : property Q;
  type_in : property string;
  type_out : property string
}.

(** Stream commands ([uhd::stream_cmd_t]); [num_samps] is a [size_t].  The
    time spec of a command travels with [stream_now] and is left out. *)
Inductive stream_mode_t : Type :=
| STREAM_MODE_START_CONTINUOUS
| STREAM_MODE_STOP_CONTINUOUS
| STREAM_MODE_NUM_SAMPS_AND_DONE
| STREAM_MODE_NUM_SAMPS_AND_MORE.

Record stream_cmd_t : Type := mk_stream_cmd {
  stream_mode : stream_mode_t;
  num_samps : Z;
  stream_now : bool
}.

(** [res_source_info]: the kind of source and its instance. *)
Inductive source_t : Type := USER | INPUT_EDGE | OUTPUT_EDGE | FRAMEWORK.

Record res_source_info : Type := mk_src { src_type : source_t; instance : nat }.

(** The block.  [regs] logs the calls of [regs().poke32(addr, data)], oldest
    first; [posted] logs the calls of [post_action]; [warnings] logs the
    decimations [RFNOC_LOG_WARNING] was called for. *)
Record ddc : Type := mk_ddc {
  fpga_compat : Z;
  num_halfbands : Z;
  cic_max_decim : Z;
  valid_decims : list Q;
  residual_scaling : list Q;
  chans : list chan_props;
  regs : list (Z * Z);
  posted : list (res_source_info * stream_cmd_t);
  warnings : list Z
}.

Definition set_chans (b : ddc) (cs : list chan_props) : ddc :=
  mk_ddc (fpga_compat b) (num_halfbands b) (cic_max_decim b) (valid_decims b)
    (residual_scaling b) cs (regs b) (posted b) (warnings b).

Definition set_residual_scaling (b : ddc) (rs : list Q) : ddc :=
  mk_ddc (fpga_compat b) (num_halfbands b) (cic_max_decim b) (valid_decims b)
    rs (chans b) (regs b) (posted b) (warnings b).

(** [regs().poke32(addr, data)]: [data] is converted to [uint32_t]. *)
Definition poke32 (addr data : Z) (b : ddc) : ddc :=
  mk_ddc (fpga_compat b) (num_halfbands b) (cic_max_decim b) (valid_decims b)
    (residual_scaling b) (chans b) (regs b ++ [(addr, wrap 32 data)])
    (posted b) (warnings b).

Definition post_action (dst : res_source_info) (cmd : stream_cmd_t) (b : ddc) : ddc :=
  mk_ddc (fpga_compat b) (num_halfbands b) (cic_max_decim b) (valid_decims b)
    (residual_scaling b) (chans b) (regs b) (posted b ++ [(dst, cmd)])
    (warnings b).

Definition log_warning (d : Z) (b : ddc) : ddc :=
  mk_ddc (fpga_compat b) (num_halfbands b) (cic_max_decim b) (valid_decims b)
    (residual_scaling b) (chans b) (regs b) (posted b) (warnings b ++ [d]).

(** [std::vector::at]. *)
Definition at_ {A : Type} (l : list A) (i : nat) : result A :=
  match l !! i with
  | Some x => Ok x
  | None => Err out_of_range
  end.

(** [get_addr]: the sum is computed in [size_t] and returned as [uint32_t]. *)
Definition get_addr (base_addr : Z) (chan : nat) : Z :=
  wrap 32 (wrap 64 (base_addr + wrap 64 (REG_CHAN_OFFSET * Z.of_nat chan))).

(** ** FPGA communication (register IO) *)

(** [while ((cic_decim % 2 == 0) and hb_enable < _num_halfbands)
      { hb_enable++; cic_decim /= 2; }] on [uint32_t].  Every iteration
    increments [hb_enable], so at most [_num_halfbands] iterations run:
    [fuel] is the number of halfbands still available. *)
Fixpoint halfband_loop (num_halfbands : Z) (fuel : nat) (hb_enable cic_decim : Z)
  : Z * Z :=
  match fuel with
  | O => (hb_enable, cic_decim)
  | S fuel' =>
      if (cic_decim mod 2 =? 0) && (hb_enable <? num_halfbands)
      then halfband_loop num_halfbands fuel' (wrap 32 (hb_enable + 1)) (cic_decim / 2)
      else (hb_enable, cic_decim)
  end.

(** Modelled from the spec: [uhd::math::ceil_log2] (uhdlib/utils/math.hpp) is
    not part of the sources; the spec writes [2^ceil(log2(gain))].  For a
    gain [x >= 1], the only use, that is the least [k >= 0] with
    [x <= 2^k]. *)
Definition ceil_log2 (x : Q) : Z := Z.log2_up (Qceiling x).

(** [boost::math::round] on a double: nearest integer, halves away from
    zero. *)
Definition Qround_half_away (x : Q) : Z :=
  if Qle_bool 0 x then Qfloor (x + (1 # 2)) else Qceiling (x - (1 # 2)).

(** [boost::math::iround]: raises [rounding_error] when the rounded value is
    not an [int]. *)
Definition iround (x : Q) : result Z :=
  let r := Qround_half_away x in
  if (INT_MIN <=? r) && (r <=? INT_MAX) then Ok r else Err rounding_error.

Definition FIXPOINT_SCALING : Q := inject_Z (Z.shiftl 1 15).

(** [update_scaling] (lines 448-462).  For a gain of zero the compensation
    factor is an infinity, which [iround] refuses. *)
Definition update_scaling (dsp_gain : Q) (chan : nat) (b : ddc) : result ddc :=
  if Qeq_bool dsp_gain 0 then Err rounding_error else
  let compensation_factor := (1 / dsp_gain)%Q in
  let target_factor := (FIXPOINT_SCALING * compensation_factor)%Q in
  do actual_factor <- iround target_factor;
  let b := poke32 (get_addr SR_SCALE_IQ_ADDR chan) actual_factor b in
  Ok (set_residual_scaling b
        (<[chan := (dsp_gain * inject_Z actual_factor / FIXPOINT_SCALING)%Q]>
           (residual_scaling b))).

Definition DDS_GAIN : Q := 2.

(** [set_decim] (lines 397-442). *)
Definition set_decim (decim : Z) (chan : nat) (b : ddc) : result ddc :=
  let '(hb_enable, cic_decim) :=
    halfband_loop (num_halfbands b) (Z.to_nat (num_halfbands b)) 0 (wrap 32 decim) in
  if negb (hb_enable <=? num_halfbands b) then Err assertion_error else
  if negb ((0 <? cic_decim) && (cic_decim <=? cic_max_decim b))
  then Err assertion_error else
  let decim_word := Z.lor (wrap 32 (Z.shiftl hb_enable 8)) cic_decim in
  let b := poke32 (get_addr SR_DECIM_ADDR chan) decim_word b in
  let b := poke32 (get_addr SR_N_ADDR chan) decim b in
  let b := poke32 (get_addr SR_M_ADDR chan) 1 b in
  let b := if (1 <? cic_decim) && (hb_enable =? 0) then log_warning decim b else b in
  let cic_gain := (inject_Z (wrap 32 (cic_decim * 1)) ^ 4)%Q in
  let total_gain := (DDS_GAIN * cic_gain / 2 ^ ceil_log2 cic_gain)%Q in
  update_scaling total_gain chan b.

(** Modelled from the spec: [uhd::meta_range_t::clip(value, true)]
    (uhd/types/ranges) is not part of the sources.  The spec: the request is
    clipped into the set, "choosing the nearest member on either side (ties
    and out-of-range both resolved by clipping to the closest bound, not by
    exception)".  The ranges are walked in ascending order; [last_stop] is the
    member just passed; of two members at the same distance the one already
    passed is kept. *)
Fixpoint clip_from (last_stop : Q) (ranges : list Q) (value : Q) : Q :=
  match ranges with
  | [] => last_stop
  | r :: ranges' =>
      if Qlt_bool value r then
        if Qlt_bool (Qabs (value - r)) (Qabs (value - last_stop)) then r else last_stop
      else if Qle_bool value r then r
      else clip_from r ranges' value
  end.

Definition clip (ranges : list Q) (value : Q) : result Q :=
  match ranges with
  | [] => Err (runtime_error "meta-range cannot be empty")
  | front :: _ => Ok (clip_from front ranges value)
  end.

(** [coerce_decim] (lines 466-470). *)
Definition coerce_decim (b : ddc) (requested_decim : Q) : result Z :=
  if negb (Qlt_bool 0 requested_decim) then Err assertion_error else
  do clipped <- clip (valid_decims b) requested_decim;
  static_cast_int clipped.

(** [coerce_decim] at a binary64 argument: a finite double is coerced by its
    value.  A NaN and minus infinity fail the assertion
    [requested_decim > 0]; plus infinity passes it and lies above every
    range, so that [clip] returns the last stop. *)
Definition coerce_decim_double (b : ddc) (requested_decim : double) : result Z :=
  match double_value requested_decim with
  | Some q => coerce_decim b q
  | None =>
      if negb (dltb dzero requested_decim) then Err assertion_error else
      match valid_decims b with
      | [] => Err (runtime_error "meta-range cannot be empty")
      | front :: _ => static_cast_int (List.last (valid_decims b) front)
      end
  end.

(** ** Construction (lines 55-101) *)

(** What the constructor reads from the device and the framework:
    [regs().peek32(RB_COMPAT_NUM)], [peek32(RB_NUM_HB)],
    [peek32(RB_CIC_MAX_DECIM)], the port counts, and the outcome of
    [uhd::assert_fpga_compat] (not part of the sources). *)
Record hw_info : Type := mk_hw_info {
  rb_compat_num : Z;
  rb_num_hb : Z;
  rb_cic_max_decim : Z;
  num_input_ports : nat;
  num_output_ports : nat;
  compat_ok : bool
}.

(** [_register_props], the creation of the properties of one channel.  The
    constructor of [property_t] is not part of the sources: a property is
    taken to be created clean. *)
Definition default_chan_props : chan_props :=
  mk_chan_props
    (mk_property DEFAULT_RATE false) (mk_property DEFAULT_RATE false)
    (mk_property DEFAULT_SCALING false) (mk_property DEFAULT_SCALING false)
    (mk_property DEFAULT_DECIM false) (mk_property DEFAULT_FREQ false)
    (mk_property IO_TYPE_SC16 false) (mk_property IO_TYPE_SC16 false).

Definition make (hw : hw_info) : result ddc :=
  if negb (Nat.eqb (num_input_ports hw) (num_output_ports hw))
  then Err assertion_error else
  if negb ((0 <? rb_cic_max_decim hw) && (rb_cic_max_decim hw <=? 255))
  then Err assertion_error else
  if negb (compat_ok hw) then Err (runtime_error "FPGA compat number mismatch") else
  Ok (mk_ddc (rb_compat_num hw) (rb_num_hb hw) (rb_cic_max_decim hw)
        (make_valid_decims (build_decims (rb_num_hb hw) (rb_cic_max_decim hw)))
        (replicate (num_input_ports hw) DEFAULT_SCALING)
        (replicate (num_input_ports hw) default_chan_props)
        [] [] []).

(** ** Resolvers ([_register_props], lines 239-343) *)

Definition with_samp_rate_in (c : chan_props) (p : property double) : chan_props :=
  mk_chan_props p (samp_rate_out c) (scaling_in c) (scaling_out c) (decim c)
    (freq c) (type_in c) (type_out c).
Definition with_samp_rate_out (c : chan_props) (p : property double) : chan_props :=
  mk_chan_props (samp_rate_in c) p (scaling_in c) (scaling_out c) (decim c)
    (freq c) (type_in c) (type_out c).
Definition with_scaling_in (c : chan_props) (p : property Q) : chan_props :=
  mk_chan_props (samp_rate_in c) (samp_rate_out c) p (scaling_out c) (decim c)
    (freq c) (type_in c) (type_out c).
Definition with_scaling_out (c : chan_props) (p : property Q) : chan_props :=
  mk_chan_props (samp_rate_in c) (samp_rate_out c) (scaling_in c) p (decim c)
    (freq c) (type_in c) (type_out c).
Definition with_decim (c : chan_props) (p : property Z) : chan_props :=
  mk_chan_props (samp_rate_in c) (samp_rate_out c) (scaling_in c) (scaling_out c) p
    (freq c) (type_in c) (type_out c).
Definition with_freq (c : chan_props) (p : property Q) : chan_props :=
  mk_chan_props (samp_rate_in c) (samp_rate_out c) (scaling_in c) (scaling_out c)
    (decim c) p (type_in c) (type_out c).
Definition with_type_in (c : chan_props) (p : property string) : chan_props :=
  mk_chan_props (samp_rate_in c) (samp_rate_out c) (scaling_in c) (scaling_out c)
    (decim c) (freq c) p (type_out c).
Definition with_type_out (c : chan_props) (p : property string) : chan_props :=
  mk_chan_props (samp_rate_in c) (samp_rate_out c) (scaling_in c) (scaling_out c)
    (decim c) (freq c) (type_in c) p.

(** Writing back the properties of channel [chan]; the resolvers hold
    references to them. *)
Definition put_chan (chan : nat) (c : chan_props) (b : ddc) : ddc :=
  set_chans b (<[chan := c]> (chans b)).

(** Resolver for the output scaling (registered twice, lines 244 and 328). *)
Definition resolve_scaling_out (chan : nat) (b : ddc) : result ddc :=
  do c <- at_ (chans b) chan;
  do residual <- at_ (residual_scaling b) chan;
  Ok (put_chan chan
        (with_scaling_out c
           (assign_double (scaling_out c) (value (scaling_in c) * residual)%Q)) b).

(** Resolver for [_decim] (line 256). *)
Definition resolve_decim (chan : nat) (b : ddc) : result ddc :=
  do c <- at_ (chans b) chan;
  do d <- coerce_decim b (inject_Z (value (decim c)));
  let c := with_decim c (assign_int (decim c) d) in
  do b <- set_decim (value (decim c)) chan b;
  let rate := ddiv (value (samp_rate_in c)) (double_of_int (value (decim c))) in
  let c := with_samp_rate_out c (assign_rate (samp_rate_out c) rate) in
  let c := with_scaling_in c (force_dirty (scaling_in c)) in
  Ok (put_chan chan c b).

(** Resolver for the input scaling (line 318). *)
Definition resolve_scaling_in (chan : nat) (b : ddc) : result ddc :=
  do c <- at_ (chans b) chan;
  Ok (put_chan chan (with_scaling_out c (force_dirty (scaling_out c))) b).

(** Resolvers for the types (lines 338 and 341). *)
Definition resolve_type_in (chan : nat) (b : ddc) : result ddc :=
  do c <- at_ (chans b) chan;
  Ok (put_chan chan (with_type_in c (assign_string (type_in c) IO_TYPE_SC16)) b).

Definition resolve_type_out (chan : nat) (b : ddc) : result ddc :=
  do c <- at_ (chans b) chan;
  Ok (put_chan chan (with_type_out c (assign_string (type_out c) IO_TYPE_SC16)) b).

(** Resolver for the input rate (line 281). *)
Definition resolve_samp_rate_in (chan : nat) (b : ddc) : result ddc :=
  do c <- at_ (chans b) chan;
  let ratio := ddiv (value (samp_rate_in c)) (value (samp_rate_out c)) in
  do d <- coerce_decim_double b ratio;
  let c := with_decim c (assign_int (decim c) d) in
  let rate := ddiv (value (samp_rate_in c)) (double_of_int (value (decim c))) in
  let c := with_samp_rate_out c (assign_rate (samp_rate_out c) rate) in
  let c := with_freq c (force_dirty (freq c)) in
  Ok (put_chan chan c b).

(** Resolver for the output rate (line 299). *)
Definition resolve_samp_rate_out (chan : nat) (b : ddc) : result ddc :=
  do c <- at_ (chans b) chan;
  let ratio := ddiv (value (samp_rate_in c)) (value (samp_rate_out c)) in
  do truncated <- int_of_double ratio;
  do d <- coerce_decim b (inject_Z truncated);
  let c := with_decim c (assign_int (decim c) d) in
  let c :=
    if is_dirty (decim c)
    then with_samp_rate_in c
           (assign_rate (samp_rate_in c)
              (dmul (value (samp_rate_out c)) (double_of_int (value (decim c)))))
    else c in
  Ok (put_chan chan c b).

(** ** Stream commands (lines 166-174 and 346-387) *)

(** [res_source_info::invert_edge] (not part of the sources): the opposite
    edge; only edges have one. *)
Definition invert_edge (t : source_t) : result source_t :=
  match t with
  | INPUT_EDGE => Ok OUTPUT_EDGE
  | OUTPUT_EDGE => Ok INPUT_EDGE
  | _ => Err assertion_error
  end.

Definition with_num_samps (cmd : stream_cmd_t) (n : Z) : stream_cmd_t :=
  mk_stream_cmd (stream_mode cmd) n (stream_now cmd).

(** The rescaled command: [num_samps *= decim] and [num_samps /= decim] on
    [size_t], [decim] being converted from [int]. *)
Definition rescale_stream_cmd (src_t : source_t) (decim : Z) (cmd : stream_cmd_t)
  : result stream_cmd_t :=
  match src_t with
  | OUTPUT_EDGE => Ok (with_num_samps cmd (wrap 64 (num_samps cmd * wrap 64 decim)))
  | _ =>
      if wrap 64 decim =? 0 then Err undefined_behaviour
      else Ok (with_num_samps cmd (num_samps cmd / wrap 64 decim))
  end.

Definition issue_stream_cmd_action_handler
  (src : res_source_info) (stream_cmd : stream_cmd_t) (b : ddc) : result ddc :=
  do dst_type <- invert_edge (src_type src);
  let dst_edge := mk_src dst_type (instance src) in
  let chan := instance src in
  do new_cmd <-
    match stream_mode stream_cmd with
    | STREAM_MODE_NUM_SAMPS_AND_DONE | STREAM_MODE_NUM_SAMPS_AND_MORE =>
        do c <- at_ (chans b) chan;
        rescale_stream_cmd (src_type src) (value (decim c)) stream_cmd
    | _ => Ok stream_cmd
    end;
  Ok (post_action dst_edge new_cmd b).

Definition issue_stream_cmd (stream_cmd : stream_cmd_t) (port : nat) (b : ddc)
  : result ddc :=
  issue_stream_cmd_action_handler (mk_src OUTPUT_EDGE port) stream_cmd b.

(** The registered action handler: the action must be a stream command. *)
Inductive action_info : Type :=
| stream_cmd_action (cmd : stream_cmd_t)
| other_action.

Definition stream_cmd_action_handler
  (src : res_source_info) (action : action_info) (b : ddc) : result ddc :=
  match action with
  | stream_cmd_action cmd => issue_stream_cmd_action_handler src cmd b
  | other_action => Err (runtime_error "Received stream_cmd of invalid action type!")
  end.

(** ** Property identities and the resolver table *)

Inductive prop_id : Type :=
| SAMP_RATE_IN | SAMP_RATE_OUT | SCALING_IN | SCALING_OUT
| DECIM | FREQ | TYPE_IN | TYPE_OUT.

Inductive prop_value : Type :=
| VDouble (q : Q)
| VRate (x : double)
| VInt (z : Z)
| VString (s : string).

Definition prop_is_dirty (p : prop_id) (c : chan_props) : bool :=
  match p with
  | SAMP_RATE_IN => is_dirty (samp_rate_in c)
  | SAMP_RATE_OUT => is_dirty (samp_rate_out c)
  | SCALING_IN => is_dirty (scaling_in c)
  | SCALING_OUT => is_dirty (scaling_out c)
  | DECIM => is_dirty (decim c)
  | FREQ => is_dirty (freq c)
  | TYPE_IN => is_dirty (type_in c)
  | TYPE_OUT => is_dirty (type_out c)
  end.

Definition prop_mark_clean (p : prop_id) (c : chan_props) : chan_props :=
  match p with
  | SAMP_RATE_IN => with_samp_rate_in c (mark_clean (samp_rate_in c))
  | SAMP_RATE_OUT => with_samp_rate_out c (mark_clean (samp_rate_out c))
  | SCALING_IN => with_scaling_in c (mark_clean (scaling_in c))
  | SCALING_OUT => with_scaling_out c (mark_clean (scaling_out c))
  | DECIM => with_decim c (mark_clean (decim c))
  | FREQ => with_freq c (mark_clean (freq c))
  | TYPE_IN => with_type_in c (mark_clean (type_in c))
  | TYPE_OUT => with_type_out c (mark_clean (type_out c))
  end.

(** An external write: the value is stored and the property marked dirty. *)
Definition write_prop (p : prop_id) (v : prop_value) (c : chan_props)
  : result chan_props :=
  match p, v with
  | SAMP_RATE_IN, VRate x => Ok (with_samp_rate_in c (mk_property x true))
  | SAMP_RATE_OUT, VRate x => Ok (with_samp_rate_out c (mk_property x true))
  | SCALING_IN, VDouble q => Ok (with_scaling_in c (mk_property q true))
  | SCALING_OUT, VDouble q => Ok (with_scaling_out c (mk_property q true))
  | DECIM, VInt z => Ok (with_decim c (mk_property z true))
  | FREQ, VDouble q => Ok (with_freq c (mk_property q true))
  | TYPE_IN, VString s => Ok (with_type_in c (mk_property s true))
  | TYPE_OUT, VString s => Ok (with_type_out c (mk_property s true))
  | _, _ => Err bad_cast
  end.

(** A registered resolver: [add_property_resolver(inputs, outputs, body)]. *)
Record resolver : Type := mk_resolver {
  inputs : list prop_id;
  outputs : list prop_id;
  body : nat -> ddc -> result ddc
}.

Section Resolution.

(** [get_freq_and_freq_word] (uhdlib/usrp/cores/dsp_core_utils.hpp) is not
    part of the sources: it is a parameter. *)
Variable get_freq_and_freq_word : Q -> double -> result (Q * Z).

(** The bound on the resolver executions of one external [set]. *)
Variable max_resolver_runs : nat.

(** [_set_freq] (lines 473-483); the command time of the poke is not
    modelled. *)
Definition _set_freq (requested_freq : Q) (input_rate : double) (chan : nat) (b : ddc)
  : result (Q * ddc) :=
  do r <- get_freq_and_freq_word requested_freq input_rate;
  Ok (fst r, poke32 (get_addr SR_FREQ_ADDR chan) (snd r) b).

(** Resolver for [_freq] (line 272). *)
Definition resolve_freq (chan : nat) (b : ddc) : result ddc :=
  do c <- at_ (chans b) chan;
  do r <- _set_freq (value (freq c)) (value (samp_rate_in c)) chan b;
  Ok (put_chan chan (with_freq c (assign_double (freq c) (fst r))) (snd r)).

(** The resolvers of one channel, in the order of their registration. *)
Definition resolvers : list resolver :=
  [ mk_resolver [SCALING_OUT] [SCALING_OUT] resolve_scaling_out;
    mk_resolver [DECIM] [DECIM; SAMP_RATE_OUT; SCALING_IN] resolve_decim;
    mk_resolver [FREQ] [FREQ] resolve_freq;
    mk_resolver [SAMP_RATE_IN] [DECIM; SAMP_RATE_OUT; SCALING_IN; FREQ]
      resolve_samp_rate_in;
    mk_resolver [SAMP_RATE_OUT] [DECIM; SAMP_RATE_IN] resolve_samp_rate_out;
    mk_resolver [SCALING_IN] [SCALING_OUT] resolve_scaling_in;
    mk_resolver [SCALING_OUT] [SCALING_OUT] resolve_scaling_out;
    mk_resolver [TYPE_IN] [TYPE_IN] resolve_type_in;
    mk_resolver [TYPE_OUT] [TYPE_OUT] resolve_type_out ].

(** ** The resolution engine *)

(** Modelled from the spec: the property store and the resolver engine
    ([node_t::set_property], [add_property_resolver], the resolution of dirty
    properties) are not part of the sources.  The spec (4.1, 4.2): [set] marks
    the property dirty and triggers resolution before returning; the engine
    repeatedly picks a resolver whose read-set contains a dirty property,
    executes it, clears the dirtiness of its read-set and marks the properties
    its body mutates as dirty; it stops when no resolver's read-set is dirty;
    the number of executions per external set is bounded, exceeding the bound
    is fatal. *)
Definition triggered (r : resolver) (c : chan_props) : bool :=
  existsb (fun p => prop_is_dirty p c) (inputs r).

(** One execution of resolver [r] on channel [chan].  The read-set is cleaned
    before the body runs, so that the assignments of the body leave exactly
    the mutated properties dirty. *)
Definition run_resolver (r : resolver) (chan : nat) (b : ddc) : result ddc :=
  do c <- at_ (chans b) chan;
  body r chan (put_chan chan (fold_right prop_mark_clean c (inputs r)) b).

(** Any order of execution: one step runs one triggered resolver. *)
Inductive step : ddc -> ddc -> Prop :=
| step_run (r : resolver) (chan : nat) (c : chan_props) (b b' : ddc) :
    In r resolvers ->
    chans b !! chan = Some c ->
    triggered r c = true ->
    run_resolver r chan b = Ok b' ->
    step b b'.

Definition chan_clean (c : chan_props) : Prop :=
  forall p : prop_id, prop_is_dirty p c = false.

(** No resolver is triggered: every property is a resolver's input. *)
Definition resolved (b : ddc) : Prop := Forall chan_clean (chans b).

(** A complete resolution: steps until nothing is dirty. *)
Definition resolves_to (b b' : ddc) : Prop := rtc step b b' /\ resolved b'.

(** One executable order: the first channel with a triggered resolver, and
    its first triggered resolver in registration order. *)
Fixpoint pick_from (chan : nat) (cs : list chan_props) : option (nat * resolver) :=
  match cs with
  | [] => None
  | c :: cs' =>
      match List.find (fun r => triggered r c) resolvers with
      | Some r => Some (chan, r)
      | None => pick_from (S chan) cs'
      end
  end.

Fixpoint resolve_all (fuel : nat) (b : ddc) : result ddc :=
  match pick_from 0 (chans b) with
  | None => Ok b
  | Some (chan, r) =>
      match fuel with
      | O => Err resolution_bound_exceeded
      | S fuel' =>
          do b' <- run_resolver r chan b;
          resolve_all fuel' b'
      end
  end.

(** The external write of a property, before resolution. *)
Definition write_property (p : prop_id) (v : prop_value) (chan : nat) (b : ddc)
  : result ddc :=
  do c <- at_ (chans b) chan;
  do c' <- write_prop p v c;
  Ok (put_chan chan c' b).

(** [set_property<T>(id, value, chan)]. *)
Definition set_property (p : prop_id) (v : prop_value) (chan : nat) (b : ddc)
  : result ddc :=
  do b' <- write_property p v chan b;
  resolve_all max_resolver_runs b'.

(** The blocks the calls can produce: a block as constructed, after an
    external write, after a resolver execution. *)
Inductive reachable : ddc -> Prop :=
| reachable_make (hw : hw_info) (b : ddc) :
    make hw = Ok b -> reachable b
| reachable_write (p : prop_id) (v : prop_value) (chan : nat) (b b' : ddc) :
    reachable b -> write_property p v chan b = Ok b' -> reachable b'
| reachable_step (b b' : ddc) :
    reachable b -> step b b' -> reachable b'.

(** One call on a block: an external write or a resolver execution. *)
Inductive transition : ddc -> ddc -> Prop :=
| transition_write (p : prop_id) (v : prop_value) (chan : nat) (b b' : ddc) :
    write_property p v chan b = Ok b' -> transition b b'
| transition_step (b b' : ddc) :
    step b b' -> transition b b'.

(** ** API calls (lines 103-174) *)

Definition get_freq (chan : nat) (b : ddc) : result Q :=
  do c <- at_ (chans b) chan; Ok (value (freq c)).

Definition get_input_rate (chan : nat) (b : ddc) : result double :=
  do c <- at_ (chans b) chan; Ok (value (samp_rate_in c)).

Definition get_output_rate (chan : nat) (b : ddc) : result double :=
  do c <- at_ (chans b) chan; Ok (value (samp_rate_out c)).

(** [get_output_rates] (lines 140-150): one rate for every valid
    decimation, the decimations taken from the last to the first. *)
Definition get_output_rates (chan : nat) (b : ddc) : result (list double) :=
  do input_rate <- get_input_rate chan b;
  Ok (map (fun d => ddiv input_rate (double_of_Q d)) (rev (valid_decims b))).


End Resolution.

(** ** Quantities the properties are stated with *)

(** The gain before correction for a CIC ratio [c]:
    [DDS_GAIN * c^4 / 2^ceil_log2(c^4)]. *)
Definition total_gain (c : Z) : Q :=
  (DDS_GAIN * inject_Z c ^ 4 / 2 ^ ceil_log2 (inject_Z c ^ 4))%Q.

(** The scale correction: [1 / total] in fixed point with 15 fractional
    bits, rounded to the nearest integer. *)
Definition scale_correction (c : Z) : Z :=
  Qround_half_away (FIXPOINT_SCALING * (1 / total_gain c))%Q.

(** The residual scaling left after the quantised correction. *)
Definition residual_of (c : Z) : Q :=
  (total_gain c * inject_Z (scale_correction c) / FIXPOINT_SCALING)%Q.

Definition clamp (lo hi x : Z) : Z := Z.max lo (Z.min hi x).

(** The relation between the scalings of a channel that resolution works
    towards: the output scaling is the input scaling times the residual
    scaling, unless a scaling is dirty and its resolver still has to run. *)
Definition scaling_settled (c : chan_props) (residual : Q) : Prop :=
  is_dirty (scaling_in c) = true \/ is_dirty (scaling_out c) = true \/
  (value (scaling_out c) == value (scaling_in c) * residual)%Q.

Definition scaling_inv (b : ddc) : Prop :=
  length (residual_scaling b) = length (chans b) /\
  forall (chan : nat) (c : chan_props) (residual : Q),
    chans b !! chan = Some c -> residual_scaling b !! chan = Some residual ->
    scaling_settled c residual.

(** Every valid decimation is an [int]. *)
Definition decims_fit_int (N M : Z) : bool :=
  forallb (fun d => d <=? INT_MAX) (build_decims N M).

(** A block as [make] builds it and the calls keep it: the number of
    halfbands is one for which [1 << hb] is defined in the loop of the
    constructor, the maximal CIC decimation passed the assertion of the
    constructor, [_valid_decims] is the list built from them, its members
    are [int]s, and there is one residual scaling per channel. *)
Record well_formed (b : ddc) : Prop := mk_well_formed {
  wf_halfbands : 0 <= num_halfbands b <= 31;
  wf_cic : 0 < cic_max_decim b <= 255;
  wf_decims :
    valid_decims b =
      make_valid_decims (build_decims (num_halfbands b) (cic_max_decim b));
  wf_fit : decims_fit_int (num_halfbands b) (cic_max_decim b) = true;
  wf_ports : length (residual_scaling b) = length (chans b)
}.

Definition b2n (x : bool) : nat := if x then 1%nat else 0%nat.

(** The work left on the decimation, the output rate and the scalings of a
    channel. *)
Definition settle_measure (R : Q) (c : chan_props) : nat :=
  (4 * b2n (is_dirty (decim c)) + b2n (is_dirty (samp_rate_out c)) +
   3 * b2n (is_dirty (scaling_in c)) +
   (if is_dirty (scaling_out c)
    then if Qeq_bool (value (scaling_out c)) (value (scaling_in c) * R) then 1 else 2
    else 0))%nat.

Definition others_clean (chan : nat) (b : ddc) : Prop :=
  forall (i : nat) (ci : chan_props),
    i <> chan -> chans b !! i = Some ci -> chan_clean ci.

(** The work left on the frequency of a channel that is to become [a]. *)
Definition freq_measure (a : Q) (c : chan_props) : nat :=
  if is_dirty (freq c) then if Qeq_bool (value (freq c)) a then 1%nat else 2%nat
  else 0%nat.

(** Channel [chan] while the rates settle on the input rate [q] and the
    decimation [d]: the output rate is the quotient [q / d]; the frequency
    is the one the channel had, [f0], or the one realised, [a]; the residual
    scaling is [res0] until the decimation has been programmed and [R]
    afterwards.  The quotient of [q] by the output rate truncates to an
    integer that is coerced back to [d].  As long as the decimation is
    dirty, the output rate times [d] is [q] again, and either the residual
    scaling is [R] already or the scalings are clean.  As long as the
    frequency is dirty, the frequency word computation [gfw] realises
    [a]. *)
Record rate_settling (gfw : Q -> double -> result (Q * Z)) (chan : nat)
  (q : double) (a f0 : Q) (d cd : Z) (res0 R : Q) (b : ddc) (c : chan_props)
  : Prop := mk_rate_settling {
  rs_wf : well_formed b;
  rs_others : others_clean chan b;
  rs_chan : chans b !! chan = Some c;
  rs_in : value (samp_rate_in c) = q;
  rs_in_clean : is_dirty (samp_rate_in c) = false;
  rs_decim : value (decim c) = d;
  rs_out : value (samp_rate_out c) = ddiv q (double_of_int d);
  rs_round :
    exists t, int_of_double (ddiv q (ddiv q (double_of_int d))) = Ok t /\
              coerce_decim b (inject_Z t) = Ok d;
  rs_residual :
    residual_scaling b !! chan = Some (if is_dirty (decim c) then res0 else R);
  rs_pending :
    is_dirty (decim c) = true ->
    R = residual_of cd /\
    (res0 = R \/
     is_dirty (scaling_in c) = false /\ is_dirty (scaling_out c) = false) /\
    dmul (ddiv q (double_of_int d)) (double_of_int d) = q;
  rs_freq : value (freq c) = f0 \/ (value (freq c) == a)%Q;
  rs_freq_clean : is_dirty (freq c) = false -> (value (freq c) == a)%Q;
  rs_freq_dirty :
    is_dirty (freq c) = true ->
    forall f, f = f0 \/ (f == a)%Q ->
      exists a' w', gfw f q = Ok (a', w') /\ (a' == a)%Q;
  rs_type_in_clean : is_dirty (type_in c) = false;
  rs_type_out_clean : is_dirty (type_out c) = false;
  rs_member : In d (build_decims (num_halfbands b) (cic_max_decim b));
  rs_cd :
    snd (halfband_loop (num_halfbands b) (Z.to_nat (num_halfbands b)) 0 d) = cd
}.

(** The two modes that carry a sample count. *)
Definition fixed_count (m : stream_mode_t) : bool :=
  match m with
  | STREAM_MODE_NUM_SAMPS_AND_DONE | STREAM_MODE_NUM_SAMPS_AND_MORE => true
  | _ => false
  end.

(** A block with one channel, 3 halfbands and a maximal CIC decimation of
    16, as [make] builds it. *)
Definition hw_3_16 : hw_info := mk_hw_info 0 3 16 1 1 true.

Definition ddc_3_16 : ddc :=
  mk_ddc 0 3 16 (make_valid_decims (build_decims 3 16))
    [DEFAULT_SCALING] [default_chan_props] [] [] [].

(** A frequency word computation to evaluate resolutions with: every
    frequency is realised exactly, the word is not computed. *)
Definition example_freq_word (requested_freq : Q) (tick_rate : double)
  : result (Q * Z) :=
  Ok (requested_freq, 0).

(** The same block with the decimation of its channel at 8. *)
Definition ddc_decim_8 : ddc :=
  put_chan 0 (with_decim default_chan_props (mk_property 8 false)) ddc_3_16.

(** The block after [set_property<int>("decim", 3, 0)], and after
    [set_property<int>("decim", 4, 0)]. *)
Definition ddc_decim_3 : ddc :=
  Eval vm_compute in
    match set_property example_freq_word 10 DECIM (VInt 3) 0 ddc_3_16 with
    | Ok b => b
    | Err _ => ddc_3_16
    end.

Definition ddc_decim_4 : ddc :=
  Eval vm_compute in
    match set_property example_freq_word 10 DECIM (VInt 4) 0 ddc_3_16 with
    | Ok b => b
    | Err _ => ddc_3_16
    end.

(** The block after [set_property<double>("samp_rate", 2e8)] on the output
    edge of channel 0, and the block after the same call on the input edge
    then: both rates are 2e8, the decimation is 1. *)
Definition ddc_out_2e8 : ddc :=
  Eval vm_compute in
    match set_property example_freq_word 10 SAMP_RATE_OUT
            (VRate (double_of_int 200000000)) 0 ddc_3_16 with
    | Ok b => b
    | Err _ => ddc_3_16
    end.

Definition ddc_rate_2e8 : ddc :=
  Eval vm_compute in
    match set_property example_freq_word 10 SAMP_RATE_IN
            (VRate (double_of_int 200000000)) 0 ddc_out_2e8 with
    | Ok b => b
    | Err _ => ddc_3_16
    end.

(** That block after [set_property<int>("decim", 11, 0)]. *)
Definition ddc_rate_2e8_decim_11 : ddc :=
  Eval vm_compute in
    match set_property example_freq_word 10 DECIM (VInt 11) 0 ddc_rate_2e8 with
    | Ok b => b
    | Err _ => ddc_3_16
    end.



(** The block after [set_decim] has programmed the decomposition [(h, c)] of
    the decimation [D] on channel [chan]. *)
Definition programmed (b : ddc) (D : Z) (chan : nat) (h c : Z) : ddc :=
  mk_ddc (fpga_compat b) (num_halfbands b) (cic_max_decim b) (valid_decims b)
    (<[chan := residual_of c]> (residual_scaling b))
    (chans b)
    (regs b ++
       [(get_addr SR_DECIM_ADDR chan, Z.lor (Z.shiftl h 8) c);
        (get_addr SR_N_ADDR chan, D);
        (get_addr SR_M_ADDR chan, 1);
        (get_addr SR_SCALE_IQ_ADDR chan, scale_correction c)])
    (posted b)
    (if (1 <? c) && (h =? 0) then warnings b ++ [D] else warnings b).

(** The check of the gain compensation for one CIC ratio: [iround] returns,
    the correction lies in [2^14, 2^15 - 1], and the total gain is the
    rational [2 c^4 / 2^k] with [k = ceil(log2(c^4))]. *)
Definition gain_check (c : Z) : bool :=
  match iround (FIXPOINT_SCALING * (1 / total_gain c))%Q with
  | Ok f =>
      (16384 <=? f) && (f <=? 32767) &&
      Qeq_bool (total_gain c)
        (inject_Z (2 * c ^ 4) / inject_Z (2 ^ Z.log2_up (c ^ 4)))%Q
  | Err _ => false
  end.

(** ** Quantities the properties of the construction, the registers and the
    resolvers are stated with *)

(** The decimations the decomposition of [set_decim] can reach: a CIC ratio
    [1 <= c <= M] behind [0 <= h <= N] halfbands. *)
Definition realizable (N M D : Z) : Prop :=
  exists h c, 0 <= h <= N /\ 0 < c <= M /\ D = c * 2 ^ h.

(** Property [p] is the same, value and dirty flag, in [c] and [c']. *)
Definition prop_unchanged (p : prop_id) (c c' : chan_props) : Prop :=
  match p with
  | SAMP_RATE_IN => samp_rate_in c' = samp_rate_in c
  | SAMP_RATE_OUT => samp_rate_out c' = samp_rate_out c
  | SCALING_IN => scaling_in c' = scaling_in c
  | SCALING_OUT => scaling_out c' = scaling_out c
  | DECIM => decim c' = decim c
  | FREQ => freq c' = freq c
  | TYPE_IN => type_in c' = type_in c
  | TYPE_OUT => type_out c' = type_out c
  end.

(** What a call on channel [chan] leaves alone: the configuration read at
    construction, the actions posted, the number of channels, the channels
    and the residual scalings other than those of [chan]; the registers
    written before are kept. *)
Record frame (chan : nat) (b b' : ddc) : Prop := mk_frame {
  fr_compat : fpga_compat b' = fpga_compat b;
  fr_halfbands : num_halfbands b' = num_halfbands b;
  fr_cic : cic_max_decim b' = cic_max_decim b;
  fr_decims : valid_decims b' = valid_decims b;
  fr_posted : posted b' = posted b;
  fr_residual_length : length (residual_scaling b') = length (residual_scaling b);
  fr_residual :
    forall i, i <> chan -> residual_scaling b' !! i = residual_scaling b !! i;
  fr_chans_length : length (chans b') = length (chans b);
  fr_chans : forall i, i <> chan -> chans b' !! i = chans b !! i;
  fr_regs : exists new, regs b' = regs b ++ new
}.

(** The block has the configuration the constructor takes from [hw]. *)
Definition configured (hw : hw_info) (b : ddc) : Prop :=
  fpga_compat b = rb_compat_num hw /\
  num_halfbands b = rb_num_hb hw /\
  cic_max_decim b = rb_cic_max_decim hw /\
  valid_decims b = make_valid_decims (build_decims (rb_num_hb hw) (rb_cic_max_decim hw)) /\
  length (chans b) = num_input_ports hw /\
  length (residual_scaling b) = num_input_ports hw.

(** The types of a channel are [sc16], unless their resolvers still have to
    run. *)
Definition types_settled (c : chan_props) : Prop :=
  (is_dirty (type_in c) = true \/ value (type_in c) = IO_TYPE_SC16) /\
  (is_dirty (type_out c) = true \/ value (type_out c) = IO_TYPE_SC16).

(** The block after the frequency words [ws] have been written for channel
    [chan], oldest first. *)
Definition freq_poked (chan : nat) (ws : list Z) (b : ddc) : ddc :=
  fold_left (fun b w => poke32 (get_addr SR_FREQ_ADDR chan) w b) ws b.

(** A frequency word computation to evaluate resolutions with: only whole
    frequencies are realised, the word is the frequency. *)
Definition example_whole_freq_word (requested_freq : Q) (tick_rate : double)
  : result (Q * Z) :=
  Ok (inject_Z (Qfloor requested_freq), Qfloor requested_freq).

(** A block with one channel and no halfband, as [make] builds it. *)
Definition hw_0_16 : hw_info := mk_hw_info 0 0 16 1 1 true.


End DDC.

Module USRP2.

(** ** Types of the motherboard interface *)

(** [uhd::usrp::mboard_prop_t]: the enumerators the two switch statements of
    mboard_impl.cpp name. *)
Inductive mboard_prop_t : Type :=
| MBOARD_PROP_NAME
| MBOARD_PROP_OTHERS
| MBOARD_PROP_CLOCK_RATE
| MBOARD_PROP_RX_DSP
| MBOARD_PROP_RX_DSP_NAMES
| MBOARD_PROP_TX_DSP
| MBOARD_PROP_TX_DSP_NAMES
| MBOARD_PROP_RX_DBOARD
| MBOARD_PROP_RX_DBOARD_NAMES
| MBOARD_PROP_TX_DBOARD
| MBOARD_PROP_TX_DBOARD_NAMES
| MBOARD_PROP_CLOCK_CONFIG
| MBOARD_PROP_TIME_NOW
| MBOARD_PROP_TIME_NEXT_PPS.

(** [clock_config_t]; [*_OTHER] stands for the enumerators the source does
    not name (the [default:] branches). *)
Inductive ref_source_t : Type := REF_INT | REF_OTHER.
Inductive pps_source_t : Type := PPS_SMA | PPS_MIMO | PPS_SOURCE_OTHER.
Inductive pps_polarity_t : Type := PPS_POS | PPS_NEG | PPS_POLARITY_OTHER.

Record clock_config_t : Type := mk_clock_config {
  ref_source : ref_source_t;
  pps_source : pps_source_t;
  pps_polarity : pps_polarity_t
}.

Record time_spec_t : Type := mk_time_spec { secs : Z; ticks : Z }.

(** A [wax::obj] used as a key: a string, a property, or anything else,
    possibly wrapped in a [named_prop_t]. *)
Inductive plain_key : Type :=
| key_string (s : string)
| key_prop (p : mboard_prop_t)
| key_other.

Inductive key_t : Type :=
| plain (k : plain_key)
| named (k : plain_key) (name : string).

(** A link to a sub-object ([wax_obj_proxy::get_link]). *)
Definition link_t : Type := Z.

(** A [wax::obj] used as a value. *)
Inductive val_t : Type :=
| val_string (s : string)
| val_names (names : list string)
| val_link (l : link_t)
| val_double (d : Q)
| val_clock_config (c : clock_config_t)
| val_time_spec (t : time_spec_t)
| val_other.

(** Control packets ([usrp2_ctrl_data_t]); the byte order conversions
    ([htonl], [ntohl]) are not modelled, the fields are in host order. *)
Inductive ctrl_id_t : Type :=
| USRP2_CTRL_ID_GIVE_ME_YOUR_MAC_ADDR_BRO
| USRP2_CTRL_ID_THIS_IS_MY_MAC_ADDR_DUDE
| USRP2_CTRL_ID_HERE_IS_A_NEW_MAC_ADDR_BRO
| USRP2_CTRL_ID_GIVE_ME_YOUR_IP_ADDR_BRO
| USRP2_CTRL_ID_THIS_IS_MY_IP_ADDR_DUDE
| USRP2_CTRL_ID_HERE_IS_A_NEW_IP_ADDR_BRO
| USRP2_CTRL_ID_OTHER.

Record usrp2_ctrl_data_t : Type := mk_ctrl_data {
  id : ctrl_id_t;
  data_mac_addr : list Z;
  data_ip_addr : Z
}.

(** The registers of usrp2_regs.hpp the file writes. *)
Inductive reg_t : Type :=
| FR_TIME64_SECS | FR_TIME64_TICKS | FR_TIME64_FLAGS | FR_TIME64_IMM.

(** What the file uses and does not define: the flag constants of
    usrp2_regs.hpp, the address conversions, the master clock rate, and the
    answer of the device to a control packet. *)
Record collaborators : Type := mk_collaborators {
  FRF_TIME64_PPS_SMA : Z;
  FRF_TIME64_PPS_MIMO : Z;
  FRF_TIME64_PPS_POSEDGE : Z;
  FRF_TIME64_PPS_NEGEDGE : Z;
  FRF_TIME64_LATCH_NOW : Z;
  FRF_TIME64_LATCH_NEXT_PPS : Z;
  get_master_clock_freq : Q;
  mac_addr_from_string : string -> result (list Z);
  mac_addr_to_string : list Z -> string;
  ip_addr_from_string : string -> result Z;
  ip_addr_to_string : Z -> string;
  device_reply : usrp2_ctrl_data_t -> usrp2_ctrl_data_t
}.

(** The state of [usrp2_impl] the file touches.  The dictionaries
    ([uhd::dict]) keep their keys in insertion order.  [ctrl_sent] logs the
    packets given to [ctrl_send_and_recv], [poked] the calls of [poke], both
    oldest first. *)
Record usrp2_impl : Type := mk_usrp2 {
  _mboards : list (string * link_t);
  _rx_dboards : list (string * link_t);
  _tx_dboards : list (string * link_t);
  _rx_dsps : list (string * link_t);
  _tx_dsps : list (string * link_t);
  _clock_config : clock_config_t;
  ctrl_sent : list usrp2_ctrl_data_t;
  poked : list (reg_t * Z)
}.

(** ** State and exceptions *)

(** A method either returns or throws; the object is there afterwards in both
    cases. *)
Definition M (A : Type) : Type := usrp2_impl -> result A * usrp2_impl.

Definition ret {A : Type} (a : A) : M A := fun s => (Ok a, s).

Definition throw {A : Type} (e : error) : M A := fun s => (Err e, s).

Definition bind {A B : Type} (m : M A) (k : A -> M B) : M B :=
  fun s =>
    match m s with
    | (Ok a, s') => k a s'
    | (Err e, s') => (Err e, s')
    end.

Notation "'run' x <- m ; k" := (bind m (fun x => k))
  (at level 10, x name, m at level 100, k at level 200).

Definition lift {A : Type} (r : result A) : M A := fun s => (r, s).

(** [ASSERT_THROW]. *)
Definition assert_throw (c : bool) : M unit :=
  if c then ret tt else throw assertion_error.

(** [uhd::dict]. *)
Definition has_key (d : list (string * link_t)) (k : string) : bool :=
  existsb (fun e => String.eqb (fst e) k) d.

Definition get_keys (d : list (string * link_t)) : list string := map fst d.

Definition dict_get (d : list (string * link_t)) (k : string) : result link_t :=
  match List.find (fun e => String.eqb (fst e) k) d with
  | Some e => Ok (snd e)
  | None => Err (runtime_error "key not found in dict")
  end.

Definition dict_set (d : list (string * link_t)) (k : string) (v : link_t)
  : list (string * link_t) :=
  if has_key d k
  then map (fun e => if String.eqb (fst e) k then (k, v) else e) d
  else d ++ [(k, v)].

(** [wax::obj::as<T>]. *)
Definition as_mboard_prop (k : plain_key) : result mboard_prop_t :=
  match k with key_prop p => Ok p | _ => Err bad_cast end.

Definition as_string (v : val_t) : result string :=
  match v with val_string s => Ok s | _ => Err bad_cast end.

Definition as_clock_config (v : val_t) : result clock_config_t :=
  match v with val_clock_config c => Ok c | _ => Err bad_cast end.

Definition as_time_spec (v : val_t) : result time_spec_t :=
  match v with val_time_spec t => Ok t | _ => Err bad_cast end.

(** [extract_named_prop]: the key and the name of a [named_prop_t], the
    empty name otherwise. *)
Definition extract_named_prop (key_ : key_t) : plain_key * string :=
  match key_ with
  | plain k => (k, EmptyString)
  | named k name => (k, name)
  end.

Section Mboard.

Variable env : collaborators.

(** ** Helper methods (lines 31-83) *)

Definition poke (addr : reg_t) (data : Z) : M unit :=
  fun s =>
    (Ok tt,
     mk_usrp2 (_mboards s) (_rx_dboards s) (_tx_dboards s) (_rx_dsps s)
       (_tx_dsps s) (_clock_config s) (ctrl_sent s)
       (poked s ++ [(addr, wrap 32 data)])).

Definition ctrl_send_and_recv (out_data : usrp2_ctrl_data_t) : M usrp2_ctrl_data_t :=
  fun s =>
    (Ok (device_reply env out_data),
     mk_usrp2 (_mboards s) (_rx_dboards s) (_tx_dboards s) (_rx_dsps s)
       (_tx_dsps s) (_clock_config s) (ctrl_sent s ++ [out_data]) (poked s)).

Definition set_clock_config (c : clock_config_t) : M unit :=
  fun s =>
    (Ok tt,
     mk_usrp2 (_mboards s) (_rx_dboards s) (_tx_dboards s) (_rx_dsps s)
       (_tx_dsps s) c (ctrl_sent s) (poked s)).

Definition get_state : M usrp2_impl := fun s => (Ok s, s).

Definition update_clock_config : M unit :=
  run s <- get_state;
  let pps_flags := 0 in
  run pps_flags <-
    match pps_source (_clock_config s) with
    | PPS_SMA => ret (Z.lor pps_flags (FRF_TIME64_PPS_SMA env))
    | PPS_MIMO => ret (Z.lor pps_flags (FRF_TIME64_PPS_MIMO env))
    | PPS_SOURCE_OTHER =>
        throw (runtime_error "usrp2: unhandled clock configuration pps source")
    end;
  run pps_flags <-
    match pps_polarity (_clock_config s) with
    | PPS_POS => ret (Z.lor pps_flags (FRF_TIME64_PPS_POSEDGE env))
    | PPS_NEG => ret (Z.lor pps_flags (FRF_TIME64_PPS_NEGEDGE env))
    | PPS_POLARITY_OTHER =>
        throw (runtime_error "usrp2: unhandled clock configuration pps polarity")
    end;
  poke FR_TIME64_FLAGS pps_flags.

Definition init_clock_config : M unit :=
  run _ <- set_clock_config (mk_clock_config REF_INT PPS_SMA PPS_NEG);
  update_clock_config.

Definition set_time_spec (time_spec : time_spec_t) (now : bool) : M unit :=
  run _ <- poke FR_TIME64_SECS (secs time_spec);
  run _ <- poke FR_TIME64_TICKS (ticks time_spec);
  let imm_flags :=
    if now then FRF_TIME64_LATCH_NOW env else FRF_TIME64_LATCH_NEXT_PPS env in
  poke FR_TIME64_IMM imm_flags.

(** [mboard_init]; [proxy] is the link made by [wax_obj_proxy::make],
    [utc_now] the system time as a time spec. *)
Definition mboard_init (proxy : link_t) (utc_now : time_spec_t) : M unit :=
  run _ <-
    (fun s =>
       (Ok tt,
        mk_usrp2 (dict_set (_mboards s) EmptyString proxy) (_rx_dboards s)
          (_tx_dboards s) (_rx_dsps s) (_tx_dsps s) (_clock_config s)
          (ctrl_sent s) (poked s)));
  set_time_spec utc_now true.

(** ** MBoard get properties (lines 88-187) *)

Definition get_link (d : list (string * link_t)) (name : string) : M val_t :=
  run _ <- assert_throw (has_key d name);
  run l <- lift (dict_get d name);
  ret (val_link l).

Definition mboard_get (key_ : key_t) : M val_t :=
  let '(key, name) := extract_named_prop key_ in
  let is_str (s : string) :=
    match key with key_string k => String.eqb k s | _ => false end in
  if is_str "mac-addr"%string then
    let out_data := mk_ctrl_data USRP2_CTRL_ID_GIVE_ME_YOUR_MAC_ADDR_BRO [] 0 in
    run in_data <- ctrl_send_and_recv out_data;
    run _ <- assert_throw
      match id in_data with USRP2_CTRL_ID_THIS_IS_MY_MAC_ADDR_DUDE => true | _ => false end;
    ret (val_string (mac_addr_to_string env (data_mac_addr in_data)))
  else if is_str "ip-addr"%string then
    let out_data := mk_ctrl_data USRP2_CTRL_ID_GIVE_ME_YOUR_IP_ADDR_BRO [] 0 in
    run in_data <- ctrl_send_and_recv out_data;
    run _ <- assert_throw
      match id in_data with USRP2_CTRL_ID_THIS_IS_MY_IP_ADDR_DUDE => true | _ => false end;
    ret (val_string (ip_addr_to_string env (data_ip_addr in_data)))
  else
    run p <- lift (as_mboard_prop key);
    run s <- get_state;
    match p with
    | MBOARD_PROP_NAME => ret (val_string "usrp2 mboard"%string)
    | MBOARD_PROP_OTHERS => ret (val_names ["mac-addr"; "ip-addr"]%string)
    | MBOARD_PROP_RX_DBOARD => get_link (_rx_dboards s) name
    | MBOARD_PROP_RX_DBOARD_NAMES => ret (val_names (get_keys (_rx_dboards s)))
    | MBOARD_PROP_TX_DBOARD => get_link (_tx_dboards s) name
    | MBOARD_PROP_TX_DBOARD_NAMES => ret (val_names (get_keys (_tx_dboards s)))
    | MBOARD_PROP_CLOCK_RATE => ret (val_double (get_master_clock_freq env))
    | MBOARD_PROP_RX_DSP => get_link (_rx_dsps s) name
    | MBOARD_PROP_RX_DSP_NAMES => ret (val_names (get_keys (_rx_dsps s)))
    | MBOARD_PROP_TX_DSP => get_link (_tx_dsps s) name
    | MBOARD_PROP_TX_DSP_NAMES => ret (val_names (get_keys (_tx_dsps s)))
    | MBOARD_PROP_CLOCK_CONFIG => ret (val_clock_config (_clock_config s))
    | MBOARD_PROP_TIME_NOW
    | MBOARD_PROP_TIME_NEXT_PPS =>
        throw (runtime_error "Error: trying to get write-only property on usrp2 mboard")
    end.

(** ** MBoard set properties (lines 192-253) *)

Definition mboard_set (key : key_t) (val : val_t) : M unit :=
  let is_str (s : string) :=
    match key with plain (key_string k) => String.eqb k s | _ => false end in
  if is_str "mac-addr"%string then
    run str <- lift (as_string val);
    run mac_addr <- lift (mac_addr_from_string env str);
    let out_data := mk_ctrl_data USRP2_CTRL_ID_HERE_IS_A_NEW_MAC_ADDR_BRO mac_addr 0 in
    run in_data <- ctrl_send_and_recv out_data;
    assert_throw
      match id in_data with USRP2_CTRL_ID_THIS_IS_MY_MAC_ADDR_DUDE => true | _ => false end
  else if is_str "ip-addr"%string then
    run str <- lift (as_string val);
    run ip_addr <- lift (ip_addr_from_string env str);
    let out_data := mk_ctrl_data USRP2_CTRL_ID_HERE_IS_A_NEW_IP_ADDR_BRO [] ip_addr in
    run in_data <- ctrl_send_and_recv out_data;
    assert_throw
      match id in_data with USRP2_CTRL_ID_THIS_IS_MY_IP_ADDR_DUDE => true | _ => false end
  else
    run p <- lift (match key with plain k => as_mboard_prop k | named _ _ => Err bad_cast end);
    match p with
    | MBOARD_PROP_CLOCK_CONFIG =>
        run c <- lift (as_clock_config val);
        run _ <- set_clock_config c;
        update_clock_config
    | MBOARD_PROP_TIME_NOW =>
        run t <- lift (as_time_spec val);
        set_time_spec t true
    | MBOARD_PROP_TIME_NEXT_PPS =>
        run t <- lift (as_time_spec val);
        set_time_spec t false
    | MBOARD_PROP_NAME
    | MBOARD_PROP_OTHERS
    | MBOARD_PROP_CLOCK_RATE
    | MBOARD_PROP_RX_DSP
    | MBOARD_PROP_RX_DSP_NAMES
    | MBOARD_PROP_TX_DSP
    | MBOARD_PROP_TX_DSP_NAMES
    | MBOARD_PROP_RX_DBOARD
    | MBOARD_PROP_RX_DBOARD_NAMES
    | MBOARD_PROP_TX_DBOARD
    | MBOARD_PROP_TX_DBOARD_NAMES =>
        throw (runtime_error "Error: trying to set read-only property on usrp2 mboard")
    end.

(** The properties each switch rejects. *)
Definition write_only (p : mboard_prop_t) : bool :=
  match p with
  | MBOARD_PROP_TIME_NOW | MBOARD_PROP_TIME_NEXT_PPS => true
  | _ => false
  end.

Definition read_only (p : mboard_prop_t) : bool :=
  match p with
  | MBOARD_PROP_NAME | MBOARD_PROP_OTHERS | MBOARD_PROP_CLOCK_RATE
  | MBOARD_PROP_RX_DSP | MBOARD_PROP_RX_DSP_NAMES
  | MBOARD_PROP_TX_DSP | MBOARD_PROP_TX_DSP_NAMES
  | MBOARD_PROP_RX_DBOARD | MBOARD_PROP_RX_DBOARD_NAMES
  | MBOARD_PROP_TX_DBOARD | MBOARD_PROP_TX_DBOARD_NAMES => true
  | _ => false
  end.

End Mboard.

(** A device and an object to evaluate the methods on. *)
Definition example_env : collaborators :=
  mk_collaborators 1 2 4 8 1 2 100000000
    (fun _ => Ok [0; 0; 0; 0; 0; 0]) (fun _ => "00:00:00:00:00:00"%string)
    (fun _ => Ok 0) (fun _ => "0.0.0.0"%string)
    (fun out_data =>
       match id out_data with
       | USRP2_CTRL_ID_GIVE_ME_YOUR_MAC_ADDR_BRO
       | USRP2_CTRL_ID_HERE_IS_A_NEW_MAC_ADDR_BRO =>
           mk_ctrl_data USRP2_CTRL_ID_THIS_IS_MY_MAC_ADDR_DUDE (data_mac_addr out_data) 0
       | USRP2_CTRL_ID_GIVE_ME_YOUR_IP_ADDR_BRO
       | USRP2_CTRL_ID_HERE_IS_A_NEW_IP_ADDR_BRO =>
           mk_ctrl_data USRP2_CTRL_ID_THIS_IS_MY_IP_ADDR_DUDE [] (data_ip_addr out_data)
       | _ => mk_ctrl_data USRP2_CTRL_ID_OTHER [] 0
       end).

Definition example_impl : usrp2_impl :=
  mk_usrp2 [(EmptyString, 0)] [(EmptyString, 1)] [(EmptyString, 2)]
    [("ddc0"%string, 3)] [("duc0"%string, 4)]
    (mk_clock_config REF_INT PPS_SMA PPS_NEG) [] [].

(** ** Objects the properties of the two methods are stated with *)

(** The object after [ctrl_send_and_recv] has sent [pkt]. *)
Definition sent (pkt : usrp2_ctrl_data_t) (s : usrp2_impl) : usrp2_impl :=
  mk_usrp2 (_mboards s) (_rx_dboards s) (_tx_dboards s) (_rx_dsps s) (_tx_dsps s)
    (_clock_config s) (ctrl_sent s ++ [pkt]) (poked s).

(** The object after the registers [ps] have been poked, oldest first. *)
Definition poked_with (ps : list (reg_t * Z)) (s : usrp2_impl) : usrp2_impl :=
  mk_usrp2 (_mboards s) (_rx_dboards s) (_tx_dboards s) (_rx_dsps s) (_tx_dsps s)
    (_clock_config s) (ctrl_sent s) (poked s ++ ps).

(** The object with the clock configuration [c]. *)
Definition with_clock_config (c : clock_config_t) (s : usrp2_impl) : usrp2_impl :=
  mk_usrp2 (_mboards s) (_rx_dboards s) (_tx_dboards s) (_rx_dsps s) (_tx_dsps s)
    c (ctrl_sent s) (poked s).

(** The dictionaries of sub-objects are the same in [s] and [s']. *)
Definition same_dicts (s s' : usrp2_impl) : Prop :=
  _mboards s' = _mboards s /\ _rx_dboards s' = _rx_dboards s /\
  _tx_dboards s' = _tx_dboards s /\ _rx_dsps s' = _rx_dsps s /\
  _tx_dsps s' = _tx_dsps s.

(** The key is one of the two strings the methods handle. *)
Definition address_key (key : plain_key) : bool :=
  match key with
  | key_string k => String.eqb k "mac-addr" || String.eqb k "ip-addr"
  | _ => false
  end.

(** The key is the property [p], one of the three that can be set, not
    wrapped in a [named_prop_t]. *)
Definition is_plain_prop (key : key_t) (p : mboard_prop_t) : bool :=
  match key with
  | plain (key_prop q) =>
      match p, q with
      | MBOARD_PROP_CLOCK_CONFIG, MBOARD_PROP_CLOCK_CONFIG
      | MBOARD_PROP_TIME_NOW, MBOARD_PROP_TIME_NOW
      | MBOARD_PROP_TIME_NEXT_PPS, MBOARD_PROP_TIME_NEXT_PPS => true
      | _, _ => false
      end
  | _ => false
  end.

Definition is_plain_address (key : key_t) : bool :=
  match key with
  | plain k => address_key k
  | named _ _ => false
  end.

End USRP2.

(** * Properties *)

(** ** Facts on machine integers and rationals *)

Lemma wrap_small w x : 0 <= x < 2 ^ w -> wrap w x = x.
Proof. intros H. unfold wrap. now apply Z.mod_small. Qed.

Lemma wrap_range w x : 0 <= w -> 0 <= wrap w x < 2 ^ w.
Proof. intros Hw. unfold wrap. apply Z.mod_pos_bound. now apply Z.pow_pos_nonneg. Qed.

Lemma Qlt_bool_iff x y : Qlt_bool x y = true <-> (x < y)%Q.
Proof.
  unfold Qlt_bool. rewrite negb_true_iff. split.
  - intros H. apply Qnot_le_lt. intros Hle. apply Qle_bool_iff in Hle. congruence.
  - intros H. destruct (Qle_bool y x) eqn:E; [|reflexivity].
    apply Qle_bool_iff in E. exfalso. eapply Qlt_not_le; eassumption.
Qed.

Lemma Qabs_cases (x : Q) :
  ((0 <= x)%Q /\ (Qabs x == x)%Q) \/ ((x <= 0)%Q /\ (Qabs x == - x)%Q).
Proof.
  destruct (Qlt_le_dec x 0) as [H|H].
  - right. split; [now apply Qlt_le_weak|]. apply Qabs_neg. now apply Qlt_le_weak.
  - left. split; [assumption|]. now apply Qabs_pos.
Qed.

Lemma Qtrunc_inject_Z z : Qtrunc (inject_Z z) = z.
Proof. unfold Qtrunc, inject_Z. simpl. apply Z.quot_1_r. Qed.

Lemma static_cast_int_inject_Z z :
  INT_MIN <= z <= INT_MAX -> static_cast_int (inject_Z z) = Ok z.
Proof.
  intros [H1 H2]. unfold static_cast_int. rewrite Qtrunc_inject_Z.
  apply Z.leb_le in H1, H2. now rewrite H1, H2.
Qed.

(** ** USRP2 motherboard properties *)

Module USRP2Facts.
Import USRP2.

Section Direction.

Variable env : collaborators.

Lemma mboard_get_write_only (key_ : key_t) (p : mboard_prop_t) (s : usrp2_impl) :
  fst (extract_named_prop key_) = key_prop p ->
  write_only p = true ->
  mboard_get env key_ s =
    (Err (runtime_error "Error: trying to get write-only property on usrp2 mboard"), s).
Proof.
  intros Hk Hp. unfold mboard_get.
  destruct (extract_named_prop key_) as [key name]. simpl in Hk. subst key.
  destruct p; try discriminate Hp; reflexivity.
Qed.

Lemma mboard_set_read_only (p : mboard_prop_t) (val : val_t) (s : usrp2_impl) :
  read_only p = true ->
  mboard_set env (plain (key_prop p)) val s =
    (Err (runtime_error "Error: trying to set read-only property on usrp2 mboard"), s).
Proof.
  intros Hp. destruct p; try discriminate Hp; reflexivity.
Qed.

(** C10. Motherboard property access is direction-checked and atomic on
    error: [mboard_get] of a write-only property (time-now, time-next-pps)
    and [mboard_set] of a read-only property (name, others, clock-rate, the
    dsp and dboard links and name lists) raise a runtime error, and the call
    leaves the object as it was: no control packet is sent, no register is
    poked, no field changes. *)
Theorem mboard_access_direction_checked
  (p : mboard_prop_t) (key_ : key_t) (val : val_t) (s : usrp2_impl) :
  fst (extract_named_prop key_) = key_prop p ->
  (write_only p = true ->
   mboard_get env key_ s =
     (Err (runtime_error "Error: trying to get write-only property on usrp2 mboard"),
      s)) /\
  (read_only p = true ->
   mboard_set env (plain (key_prop p)) val s =
     (Err (runtime_error "Error: trying to set read-only property on usrp2 mboard"),
      s)).
Proof.
  intros Hk. split.
  - intros Hp. now apply mboard_get_write_only with (p := p).
  - intros Hp. now apply mboard_set_read_only.
Qed.

End Direction.

Lemma mboard_access_direction_checked_witness :
  mboard_get example_env (named (key_prop MBOARD_PROP_TIME_NOW) "x") example_impl =
    (Err (runtime_error "Error: trying to get write-only property on usrp2 mboard"),
     example_impl) /\
  mboard_set example_env (plain (key_prop MBOARD_PROP_RX_DSP)) (val_double 1)
    example_impl =
    (Err (runtime_error "Error: trying to set read-only property on usrp2 mboard"),
     example_impl).
Proof.
  split.
  - apply (mboard_access_direction_checked example_env MBOARD_PROP_TIME_NOW
             (named (key_prop MBOARD_PROP_TIME_NOW) "x") val_other example_impl);
      reflexivity.
  - apply (mboard_access_direction_checked example_env MBOARD_PROP_RX_DSP
             (plain (key_prop MBOARD_PROP_RX_DSP)) (val_double 1) example_impl);
      reflexivity.
Defined.

End USRP2Facts.

(** ** The DDC block *)

Module DDCFacts.
Import DDC.

(** *** The set of valid decimations *)

Lemma set_insert_In (x y : Z) (l : list Z) :
  In y (set_insert x l) <-> y = x \/ In y l.
Proof.
  induction l as [|z l IH]; simpl.
  - intuition.
  - destruct (x <? z) eqn:Hlt.
    + simpl. intuition.
    + destruct (x =? z) eqn:Heq.
      * apply Z.eqb_eq in Heq. subst z. simpl. intuition.
      * simpl. rewrite IH. intuition.
Qed.

Lemma set_insert_lower_bound (x a : Z) (l : list Z) :
  a < x -> Forall (Z.lt a) l -> Forall (Z.lt a) (set_insert x l).
Proof.
  intros Hax Hl. apply List.Forall_forall. intros y Hy.
  apply set_insert_In in Hy. destruct Hy as [->|Hy]; [assumption|].
  rewrite List.Forall_forall in Hl. now apply Hl.
Qed.

Lemma set_insert_sorted (x : Z) (l : list Z) :
  StronglySorted Z.lt l -> StronglySorted Z.lt (set_insert x l).
Proof.
  induction l as [|z l IH]; intros Hs; simpl.
  - repeat constructor.
  - inversion Hs as [|? ? Hs' Hz]; subst.
    destruct (x <? z) eqn:Hlt.
    + apply Z.ltb_lt in Hlt. constructor; [assumption|].
      constructor; [assumption|].
      eapply List.Forall_impl; [|exact Hz]. intros; lia.
    + destruct (x =? z) eqn:Heq; [assumption|].
      apply Z.ltb_ge in Hlt. apply Z.eqb_neq in Heq.
      constructor; [now apply IH|].
      apply set_insert_lower_bound; [lia|assumption].
Qed.

Lemma loop_range_In (n i : Z) : In i (loop_range n) <-> 0 <= i < n.
Proof.
  unfold loop_range. rewrite List.in_map_iff. split.
  - intros [k [<- Hk]]. apply in_seq in Hk. lia.
  - intros Hi. exists (Z.to_nat i). split; [lia|]. apply in_seq. lia.
Qed.

Lemma fold_insert_In (f : Z -> Z) (xs : list Z) (acc : list Z) (m : Z) :
  In m (fold_left (fun decims x => set_insert (f x) decims) xs acc) <->
  In m acc \/ exists x, In x xs /\ m = f x.
Proof.
  revert acc. induction xs as [|x xs IH]; intros acc; simpl.
  - split; [auto|]. intros [H|[x [[] _]]]. exact H.
  - rewrite IH, set_insert_In. split.
    + intros [[->|H]|[x' [Hx' ->]]]; eauto.
    + intros [H|[x' [[->|Hx'] ->]]]; eauto.
Qed.

Lemma fold_insert_sorted (f : Z -> Z) (xs : list Z) (acc : list Z) :
  StronglySorted Z.lt acc ->
  StronglySorted Z.lt (fold_left (fun decims x => set_insert (f x) decims) xs acc).
Proof.
  revert acc. induction xs as [|x xs IH]; intros acc Hs; simpl; [assumption|].
  apply IH. now apply set_insert_sorted.
Qed.

Lemma insert_cic_row_In (cic_max hb : Z) (acc : list Z) (m : Z) :
  In m (insert_cic_row cic_max hb acc) <->
  In m acc \/ exists c, 0 <= c < cic_max /\ m = wrap 64 (int_shl1 hb * c).
Proof.
  unfold insert_cic_row.
  rewrite (fold_insert_In (fun c => wrap 64 (int_shl1 hb * c))).
  split; intros [H|[c [Hc ->]]]; auto; right; exists c; split; auto;
    now apply loop_range_In.
Qed.

Lemma fold_rows_In (cic_max : Z) (hbs : list Z) (acc : list Z) (m : Z) :
  In m (fold_left (fun decims hb => insert_cic_row cic_max hb decims) hbs acc) <->
  In m acc \/
  exists hb c, In hb hbs /\ 0 <= c < cic_max /\ m = wrap 64 (int_shl1 hb * c).
Proof.
  revert acc. induction hbs as [|hb hbs IH]; intros acc; simpl.
  - split; [auto|]. intros [H|[hb [c [[] _]]]]. exact H.
  - rewrite IH, insert_cic_row_In. split.
    + intros [[H|[c [Hc ->]]]|[hb' [c [Hhb [Hc ->]]]]]; eauto 8.
    + intros [H|[hb' [c [[->|Hhb] [Hc ->]]]]]; eauto 8.
Qed.

(** What the constructor builds: 1, and [(1 << hb) * c] for [0 <= hb < N]
    and [0 <= c < M]. *)
Lemma build_decims_In (N M m : Z) :
  In m (build_decims N M) <->
  m = 1 \/
  exists hb c, 0 <= hb < N /\ 0 <= c < M /\ m = wrap 64 (int_shl1 hb * c).
Proof.
  unfold build_decims. rewrite fold_rows_In. simpl. split.
  - intros [[H|[]]|[hb [c [Hhb [Hc ->]]]]]; [auto|].
    right. exists hb, c. rewrite <- loop_range_In. auto.
  - intros [->|[hb [c [Hhb [Hc ->]]]]]; [auto|].
    right. exists hb, c. rewrite loop_range_In. auto.
Qed.

Lemma build_decims_sorted (N M : Z) : StronglySorted Z.lt (build_decims N M).
Proof.
  unfold build_decims.
  assert (H : forall hbs acc, StronglySorted Z.lt acc ->
    StronglySorted Z.lt
      (fold_left (fun decims hb => insert_cic_row M hb decims) hbs acc)).
  { induction hbs as [|hb hbs IH]; intros acc Hs; simpl; [assumption|].
    apply IH. unfold insert_cic_row.
    now apply (fold_insert_sorted (fun c => wrap 64 (int_shl1 hb * c))). }
  apply H. repeat constructor.
Qed.

Lemma build_decims_has_1 (N M : Z) : In 1 (build_decims N M).
Proof. apply build_decims_In. now left. Qed.

Lemma build_decims_nonneg (N M m : Z) : In m (build_decims N M) -> 0 <= m.
Proof.
  intros H. apply build_decims_In in H.
  destruct H as [->|[hb [c [_ [_ ->]]]]]; [lia|].
  apply wrap_range. lia.
Qed.

(** C1. The claim: the set built at construction is
    [{2^h * c : 0 <= h <= N, 1 <= c <= M}] together with 1, all members
    positive, [2^N * M] a member.  The loops of the constructor run over
    [0 <= hb < N] and [0 <= cic_decim < M]: with 3 halfbands and a maximal
    CIC decimation of 16 the set built contains 0, and contains neither
    [2^3 * 16 = 128] nor [2^3 * 9 = 72]. *)
Theorem build_decims_3_16 :
  build_decims 3 16 =
    [0; 1; 2; 3; 4; 5; 6; 7; 8; 9; 10; 11; 12; 13; 14; 15; 16; 18; 20; 22;
     24; 26; 28; 30; 32; 36; 40; 44; 48; 52; 56; 60] /\
  In 0 (build_decims 3 16) /\
  ~ In (2 ^ 3 * 16) (build_decims 3 16) /\
  ~ In (2 ^ 3 * 9) (build_decims 3 16).
Proof.
  assert (E : build_decims 3 16 =
    [0; 1; 2; 3; 4; 5; 6; 7; 8; 9; 10; 11; 12; 13; 14; 15; 16; 18; 20; 22;
     24; 26; 28; 30; 32; 36; 40; 44; 48; 52; 56; 60]) by (vm_compute; reflexivity).
  split; [exact E|]. rewrite E. split; [now left|].
  split; intros H; simpl in H; intuition discriminate.
Qed.

(** *** The decomposition of a decimation *)

(** The loop of [set_decim] runs to its exit condition: the halfband count
    is capped by [num_halfbands], the remaining factor is odd unless the cap
    was reached. *)
Lemma halfband_loop_spec (N : Z) (fuel : nat) (hb cic : Z) :
  0 <= hb <= N -> N < 2 ^ 32 -> N - hb <= Z.of_nat fuel -> 0 <= cic ->
  exists h c,
    halfband_loop N fuel hb cic = (h, c) /\
    hb <= h <= N /\ cic = c * 2 ^ (h - hb) /\ 0 <= c /\
    (h = N \/ c mod 2 = 1).
Proof.
  revert hb cic. induction fuel as [|fuel IH]; intros hb cic Hhb HN Hfuel Hcic.
  - exists hb, cic. simpl. replace (hb - hb) with 0 by lia.
    repeat split; lia.
  - simpl. destruct (cic mod 2 =? 0) eqn:Heven; simpl.
    + destruct (hb <? N) eqn:Hlt.
      * apply Z.eqb_eq in Heven. apply Z.ltb_lt in Hlt.
        rewrite wrap_small by lia.
        destruct (IH (hb + 1) (cic / 2)) as [h [c [E [Hh [Hc [Hc0 Hex]]]]]];
          try lia.
        { apply Z.div_pos; lia. }
        exists h, c. repeat split; try assumption; try lia.
        rewrite (Z.div_mod cic 2) by lia. rewrite Heven, Hc.
        replace (h - hb) with (Z.succ (h - (hb + 1))) by lia.
        rewrite Z.pow_succ_r by lia. lia.
      * apply Z.ltb_ge in Hlt. exists hb, cic. replace (hb - hb) with 0 by lia.
        repeat split; lia.
    + apply Z.eqb_neq in Heven. exists hb, cic. replace (hb - hb) with 0 by lia.
      pose proof (Z.mod_pos_bound cic 2 ltac:(lia)).
      repeat split; lia.
Qed.

(** The decomposition [set_decim] computes for a decimation [D]. *)
Lemma decompose_spec (N D : Z) :
  0 <= N < 2 ^ 32 -> 0 <= D ->
  exists h c,
    halfband_loop N (Z.to_nat N) 0 D = (h, c) /\
    0 <= h <= N /\ D = c * 2 ^ h /\ 0 <= c /\ (h = N \/ c mod 2 = 1).
Proof.
  intros HN HD.
  destruct (halfband_loop_spec N (Z.to_nat N) 0 D) as [h [c [E [Hh [Hc H]]]]];
    try lia.
  exists h, c. rewrite Z.sub_0_r in Hc. repeat split; try tauto; lia.
Qed.

(** *** Programming a decimation *)

Lemma gain_check_all : forallb gain_check (map (Z.add 1) (loop_range 255)) = true.
Proof. vm_compute. reflexivity. Qed.

Lemma gain_check_ok (c : Z) : 0 < c <= 255 -> gain_check c = true.
Proof.
  intros Hc. pose proof gain_check_all as H.
  rewrite forallb_forall in H. apply H.
  apply List.in_map_iff. exists (c - 1). split; [lia|].
  apply loop_range_In. lia.
Qed.

Lemma iround_scale (c : Z) :
  0 < c <= 255 ->
  iround (FIXPOINT_SCALING * (1 / total_gain c))%Q = Ok (scale_correction c) /\
  16384 <= scale_correction c <= 32767.
Proof.
  intros Hc. pose proof (gain_check_ok c Hc) as H. unfold gain_check in H.
  unfold iround in *. fold (scale_correction c) in *.
  destruct ((INT_MIN <=? scale_correction c) && (scale_correction c <=? INT_MAX));
    [|discriminate].
  split; [reflexivity|].
  apply andb_prop in H. destruct H as [H _].
  apply andb_prop in H. destruct H as [H1 H2].
  apply Z.leb_le in H1, H2. lia.
Qed.

Lemma total_gain_exact (c : Z) :
  0 < c <= 255 ->
  (total_gain c == inject_Z (2 * c ^ 4) / inject_Z (2 ^ Z.log2_up (c ^ 4)))%Q.
Proof.
  intros Hc. pose proof (gain_check_ok c Hc) as H. unfold gain_check in H.
  destruct (iround _); [|discriminate].
  apply andb_prop in H. destruct H as [_ H]. now apply Qeq_bool_iff.
Qed.

Lemma total_gain_nonzero (c : Z) :
  0 < c <= 255 -> Qeq_bool (total_gain c) 0 = false.
Proof.
  intros Hc.
  assert (H : forallb (fun c => negb (Qeq_bool (total_gain c) 0))
                (map (Z.add 1) (loop_range 255)) = true)
    by (vm_compute; reflexivity).
  rewrite forallb_forall in H. apply negb_true_iff. apply H.
  apply List.in_map_iff. exists (c - 1). split; [lia|].
  apply loop_range_In. lia.
Qed.

Lemma Qround_half_away_comp (x y : Q) :
  (x == y)%Q -> Qround_half_away x = Qround_half_away y.
Proof.
  intros E. unfold Qround_half_away.
  assert (Hb : Qle_bool 0 x = Qle_bool 0 y).
  { destruct (Qle_bool 0 x) eqn:Hx, (Qle_bool 0 y) eqn:Hy; try reflexivity.
    - apply Qle_bool_iff in Hx. rewrite E in Hx. apply Qle_bool_iff in Hx. congruence.
    - apply Qle_bool_iff in Hy. rewrite <- E in Hy. apply Qle_bool_iff in Hy. congruence. }
  rewrite Hb. destruct (Qle_bool 0 y).
  - apply Qfloor_comp. now rewrite E.
  - apply Qceiling_comp. now rewrite E.
Qed.

Lemma lor_shiftl_8 (h c : Z) :
  0 <= h -> 0 <= c < 256 -> Z.lor (Z.shiftl h 8) c = h * 256 + c.
Proof.
  intros Hh Hc.
  assert (Hland : Z.land (Z.shiftl h 8) c = 0).
  { apply Z.bits_inj'. intros n Hn. rewrite Z.land_spec, Z.bits_0.
    destruct (Z.lt_ge_cases n 8) as [Hlt|Hge].
    - rewrite Z.shiftl_spec_low by lia. reflexivity.
    - replace (Z.testbit c n) with false; [apply andb_false_r|].
      symmetry. destruct (Z.eq_dec c 0) as [->|Hne]; [apply Z.bits_0|].
      apply Z.bits_above_log2; [lia|].
      apply Z.lt_le_trans with 8; [|lia].
      apply Z.log2_lt_pow2; lia. }
  rewrite <- Z.lxor_lor by exact Hland.
  rewrite <- Z.add_nocarry_lxor by exact Hland.
  rewrite Z.shiftl_mul_pow2 by lia. reflexivity.
Qed.

(** What [set_decim] does when the remaining CIC ratio is accepted. *)
Lemma set_decim_ok (b : ddc) (D : Z) (chan : nat) (h c : Z) :
  0 <= num_halfbands b < 2 ^ 32 -> cic_max_decim b <= 255 ->
  0 <= D < 2 ^ 32 ->
  halfband_loop (num_halfbands b) (Z.to_nat (num_halfbands b)) 0 D = (h, c) ->
  0 < c <= cic_max_decim b ->
  set_decim D chan b = Ok (programmed b D chan h c).
Proof.
  intros HN HM HD Hloop Hc.
  destruct (decompose_spec (num_halfbands b) D) as [h' [c' [E [Hh [HDc [Hc0 Hex]]]]]];
    try lia.
  rewrite Hloop in E. injection E as <- <-.
  assert (Hh32 : h < 32).
  { apply (Z.pow_lt_mono_r_iff 2); try lia.
    all: try (change (2 ^ 32) with 4294967296 in *; nia). }
  assert (Hcle : c <= D) by nia.
  unfold set_decim. rewrite (wrap_small 32 D) by lia. rewrite Hloop.
  replace (h <=? num_halfbands b) with true by (symmetry; apply Z.leb_le; lia).
  replace (0 <? c) with true by (symmetry; apply Z.ltb_lt; lia).
  replace (c <=? cic_max_decim b) with true by (symmetry; apply Z.leb_le; lia).
  cbn [negb andb].
  rewrite Z.mul_1_r. rewrite (wrap_small 32 c) by lia.
  fold (total_gain c).
  assert (Hsh : wrap 32 (Z.shiftl h 8) = Z.shiftl h 8).
  { apply wrap_small. rewrite Z.shiftl_mul_pow2 by lia. change (2 ^ 8) with 256.
    change (2 ^ 32) with 4294967296. lia. }
  rewrite Hsh.
  destruct (iround_scale c) as [Hround Hrange]; [lia|].
  unfold update_scaling. rewrite total_gain_nonzero by lia.
  rewrite Hround. cbn [rbind].
  fold (residual_of c).
  unfold programmed.
  destruct ((1 <? c) && (h =? 0)).
  all: unfold poke32, set_residual_scaling, log_warning.
  all: cbn [fpga_compat regs warnings residual_scaling chans num_halfbands
            cic_max_decim valid_decims posted rbind].
  all: f_equal.
  all: rewrite <- !app_assoc; cbn [app]; repeat f_equal.
  all: try (apply wrap_small; change (2 ^ 32) with 4294967296; lia).
  all: rewrite lor_shiftl_8 by lia; apply wrap_small;
       change (2 ^ 32) with 4294967296; lia.
Qed.

(** What [set_decim] does when the remaining CIC ratio is refused. *)
Lemma set_decim_refused (b : ddc) (D : Z) (chan : nat) (h c : Z) :
  0 <= D < 2 ^ 32 ->
  halfband_loop (num_halfbands b) (Z.to_nat (num_halfbands b)) 0 D = (h, c) ->
  ~ 0 < c <= cic_max_decim b ->
  set_decim D chan b = Err assertion_error.
Proof.
  intros HD Hloop Hc. unfold set_decim.
  rewrite (wrap_small 32 D) by lia. rewrite Hloop.
  destruct (h <=? num_halfbands b); [|reflexivity]. cbn [negb].
  destruct (0 <? c) eqn:E1; [|reflexivity].
  destruct (c <=? cic_max_decim b) eqn:E2; [|reflexivity].
  apply Z.ltb_lt in E1. apply Z.leb_le in E2. lia.
Qed.

Lemma make_hw_3_16 : make hw_3_16 = Ok ddc_3_16.
Proof. reflexivity. Qed.

(** C5. For a decimation [D], [set_decim D chan] computes the halfband
    count [h], the number of times [D] is evenly divisible by 2 capped at the
    number of halfbands, and the CIC ratio [c = D / 2^h].  When
    [0 < c <= cic_max_decim] it writes the word [(h << 8) | c] to the
    decimation register of the channel, then [D] to the rate numerator and 1
    to the rate denominator; otherwise it raises an assertion error. *)
Theorem set_decim_decomposition (b : ddc) (D : Z) (chan : nat) :
  0 <= num_halfbands b < 2 ^ 32 -> 0 < cic_max_decim b <= 255 ->
  0 <= D <= INT_MAX ->
  exists h c,
    halfband_loop (num_halfbands b) (Z.to_nat (num_halfbands b)) 0 D = (h, c) /\
    0 <= h <= num_halfbands b /\ D = c * 2 ^ h /\ c = D / 2 ^ h /\
    (h = num_halfbands b \/ c mod 2 = 1) /\
    (0 < c <= cic_max_decim b ->
     exists b',
       set_decim D chan b = Ok b' /\
       firstn 3 (skipn (length (regs b)) (regs b')) =
         [(get_addr SR_DECIM_ADDR chan, Z.lor (Z.shiftl h 8) c);
          (get_addr SR_N_ADDR chan, D);
          (get_addr SR_M_ADDR chan, 1)]) /\
    (~ 0 < c <= cic_max_decim b -> set_decim D chan b = Err assertion_error).
Proof.
  intros HN HM HD. unfold INT_MAX in HD.
  assert (HD' : 0 <= D < 2 ^ 32) by (change (2 ^ 32) with 4294967296; lia).
  destruct (decompose_spec (num_halfbands b) D) as [h [c [E [Hh [HDc [Hc0 Hex]]]]]];
    try lia.
  exists h, c. repeat split; try assumption; try lia.
  - rewrite HDc. symmetry. apply Z.div_mul.
    apply Z.pow_nonzero; lia.
  - intros Hc. exists (programmed b D chan h c). split.
    + apply set_decim_ok; try assumption; lia.
    + unfold programmed. cbn [regs].
      rewrite skipn_app, skipn_all, Nat.sub_diag. reflexivity.
  - intros Hc. eapply set_decim_refused; eassumption.
Qed.

Lemma set_decim_decomposition_witness :
  exists b',
    set_decim 40 0 ddc_3_16 = Ok b' /\
    firstn 3 (regs b') = [(1072, 0x0305); (1024, 40); (1032, 1)].
Proof.
  destruct (set_decim_decomposition ddc_3_16 40 0)
    as [h [c [E [_ [_ [_ [_ [Hok _]]]]]]]].
  - simpl. lia.
  - simpl. lia.
  - unfold INT_MAX. lia.
  - vm_compute in E. injection E as <- <-.
    destruct Hok as [b' [Hset Hregs]]; [simpl; lia|].
    exists b'. split; [exact Hset|]. exact Hregs.
Defined.

(** C6. For the CIC ratio [c] chosen by the decomposition, with
    [0 < c <= cic_max_decim], the scale correction written to the scale
    register is [round(2^15 * 1/total)] for
    [total = 2 c^4 / 2^ceil(log2(c^4))]; it lies within the signed range, so
    clamping leaves it as it is; and the residual scaling cached for the
    channel is [total * correction / 2^15]. *)
Theorem gain_compensation (b : ddc) (D : Z) (chan : nat) (h c : Z) :
  0 <= num_halfbands b < 2 ^ 32 -> cic_max_decim b <= 255 ->
  0 <= D <= INT_MAX ->
  (chan < length (residual_scaling b))%nat ->
  halfband_loop (num_halfbands b) (Z.to_nat (num_halfbands b)) 0 D = (h, c) ->
  0 < c <= cic_max_decim b ->
  let total := (inject_Z (2 * c ^ 4) / inject_Z (2 ^ Z.log2_up (c ^ 4)))%Q in
  let correction := Qround_half_away (inject_Z (2 ^ 15) * (1 / total))%Q in
  exists b' residual,
    set_decim D chan b = Ok b' /\
    last (regs b') = Some (get_addr SR_SCALE_IQ_ADDR chan, correction) /\
    clamp (- 2 ^ 15) (2 ^ 15 - 1) correction = correction /\
    clamp INT_MIN INT_MAX correction = correction /\
    residual_scaling b' !! chan = Some residual /\
    (residual == total * inject_Z correction / inject_Z (2 ^ 15))%Q.
Proof.
  intros HN HM HD Hchan Hloop Hc total correction. unfold INT_MAX in HD.
  assert (HD' : 0 <= D < 2 ^ 32) by (change (2 ^ 32) with 4294967296; lia).
  assert (Hc255 : 0 < c <= 255) by lia.
  pose proof (total_gain_exact c Hc255) as Htotal. fold total in Htotal.
  assert (Hcorr : scale_correction c = correction).
  { unfold scale_correction, correction. apply Qround_half_away_comp.
    change FIXPOINT_SCALING with (inject_Z (2 ^ 15)). now rewrite Htotal. }
  destruct (iround_scale c Hc255) as [_ Hrange]. rewrite Hcorr in Hrange.
  exists (programmed b D chan h c), (residual_of c).
  split; [now apply set_decim_ok|].
  split.
  { unfold programmed. cbn [regs]. rewrite last_app.
    cbn. now rewrite Hcorr. }
  split; [unfold clamp; change (2 ^ 15) with 32768; lia|].
  split; [unfold clamp, INT_MIN, INT_MAX; lia|].
  split.
  { unfold programmed. cbn [residual_scaling]. now apply list_lookup_insert_eq. }
  unfold residual_of. rewrite Hcorr, Htotal. reflexivity.
Qed.

Lemma gain_compensation_witness :
  exists b',
    set_decim 40 0 ddc_3_16 = Ok b' /\
    last (regs b') = Some (1064, 26844) /\
    exists residual,
      residual_scaling b' !! 0%nat = Some residual /\
      (residual == (1250 # 1024) * (26844 # 32768))%Q.
Proof.
  destruct (gain_compensation ddc_3_16 40 0 3 5)
    as [b' [residual [Hset [Hlast [_ [_ [Hres Heq]]]]]]].
  - simpl. lia.
  - simpl. lia.
  - unfold INT_MAX. lia.
  - simpl. lia.
  - reflexivity.
  - simpl. lia.
  - exists b'. split; [exact Hset|]. split; [exact Hlast|].
    exists residual. split; [exact Hres|].
    rewrite Heq. reflexivity.
Defined.

(** *** Clipping a request into the valid decimations *)

Ltac qabs_cases x :=
  let H1 := fresh "Habs" in let H2 := fresh "Habs" in
  destruct (Qabs_cases x) as [[H1 H2]|[H1 H2]].

Lemma Qlt_bool_false x y : Qlt_bool x y = false -> (y <= x)%Q.
Proof.
  intros H. apply Qnot_lt_le. intros Hlt. apply Qlt_bool_iff in Hlt. congruence.
Qed.

Lemma Qle_bool_false x y : Qle_bool x y = false -> (y < x)%Q.
Proof.
  intros H. apply Qnot_le_lt. intros Hle. apply Qle_bool_iff in Hle. congruence.
Qed.

Lemma clip_from_nearest (l : list Q) :
  forall (last_stop v : Q),
    (last_stop < v)%Q -> StronglySorted Qlt (last_stop :: l) ->
    (clip_from last_stop l v = last_stop \/ In (clip_from last_stop l v) l) /\
    forall x, (x <= last_stop)%Q \/ In x l ->
      (Qabs (v - clip_from last_stop l v) <= Qabs (v - x))%Q.
Proof.
  induction l as [|a l IH]; intros last_stop v Hlt Hs.
  - cbn [clip_from]. split; [now left|]. intros x [Hx|[]].
    qabs_cases (v - last_stop)%Q; qabs_cases (v - x)%Q; lra.
  - inversion Hs as [|? ? Hs' Hall]; subst.
    inversion Hall as [|? ? Hla Hall']; subst.
    inversion Hs' as [|? ? Hs'' Hal]; subst.
    rewrite List.Forall_forall in Hal.
    cbn [clip_from]. destruct (Qlt_bool v a) eqn:E1.
    + apply Qlt_bool_iff in E1.
      destruct (Qlt_bool (Qabs (v - a)) (Qabs (v - last_stop))) eqn:E2.
      * apply Qlt_bool_iff in E2. split; [right; now left|].
        intros x [Hx|[<-|Hx]].
        -- qabs_cases (v - last_stop)%Q; qabs_cases (v - x)%Q; lra.
        -- apply Qle_refl.
        -- apply Hal in Hx. qabs_cases (v - a)%Q; qabs_cases (v - x)%Q; lra.
      * apply Qlt_bool_false in E2. split; [now left|].
        intros x [Hx|[<-|Hx]].
        -- qabs_cases (v - last_stop)%Q; qabs_cases (v - x)%Q; lra.
        -- exact E2.
        -- apply Hal in Hx.
           qabs_cases (v - a)%Q; qabs_cases (v - x)%Q; qabs_cases (v - last_stop)%Q; lra.
    + apply Qlt_bool_false in E1. destruct (Qle_bool v a) eqn:E3.
      * apply Qle_bool_iff in E3. split; [right; now left|].
        intros x _. qabs_cases (v - a)%Q; qabs_cases (v - x)%Q; lra.
      * apply Qle_bool_false in E3.
        destruct (IH a v E3 Hs') as [Hin Hmin]. split.
        -- destruct Hin as [Hin|Hin]; [right; left; now rewrite Hin|right; now right].
        -- intros x [Hx|[<-|Hx]].
           ++ apply Hmin. left. lra.
           ++ apply Hmin. left. apply Qle_refl.
           ++ apply Hmin. now right.
Qed.

(** [clip] returns a member of the list, and no member is nearer to the
    request. *)
Lemma clip_nearest (l : list Q) (v : Q) :
  l <> [] -> StronglySorted Qlt l ->
  exists m,
    clip l v = Ok m /\ In m l /\
    forall x, In x l -> (Qabs (v - m) <= Qabs (v - x))%Q.
Proof.
  intros Hne Hs. destruct l as [|f l]; [congruence|].
  exists (clip_from f (f :: l) v). split; [reflexivity|].
  inversion Hs as [|? ? Hs' Hall]; subst. rewrite List.Forall_forall in Hall.
  cbn [clip_from]. destruct (Qlt_bool v f) eqn:E1.
  - apply Qlt_bool_iff in E1.
    destruct (Qlt_bool (Qabs (v - f)) (Qabs (v - f))) eqn:E2.
    + apply Qlt_bool_iff in E2. exfalso. revert E2. apply Qlt_irrefl.
    + split; [now left|]. intros x [<-|Hx]; [apply Qle_refl|].
      apply Hall in Hx. qabs_cases (v - f)%Q; qabs_cases (v - x)%Q; lra.
  - apply Qlt_bool_false in E1. destruct (Qle_bool v f) eqn:E3.
    + apply Qle_bool_iff in E3. split; [now left|].
      intros x _. qabs_cases (v - f)%Q; qabs_cases (v - x)%Q; lra.
    + apply Qle_bool_false in E3.
      destruct (clip_from_nearest l f v E3 Hs) as [Hin Hmin]. split.
      * destruct Hin as [Hin|Hin]; [left; now rewrite Hin|now right].
      * intros x [<-|Hx]; apply Hmin; [left; apply Qle_refl|now right].
Qed.

Lemma map_inject_Z_sorted (l : list Z) :
  StronglySorted Z.lt l -> StronglySorted Qlt (map inject_Z l).
Proof.
  induction 1 as [|a l Hs IH Hall]; simpl; constructor; [assumption|].
  rewrite List.Forall_forall in *. intros x Hx.
  apply List.in_map_iff in Hx. destruct Hx as [z [<- Hz]].
  rewrite <- Zlt_Qlt. now apply Hall.
Qed.

Lemma decims_fit_int_In (N M d : Z) :
  decims_fit_int N M = true -> In d (build_decims N M) ->
  INT_MIN <= d <= INT_MAX.
Proof.
  intros Hfit Hd. pose proof (build_decims_nonneg N M d Hd) as H0.
  unfold decims_fit_int in Hfit. rewrite forallb_forall in Hfit.
  apply Hfit in Hd. apply Z.leb_le in Hd. unfold INT_MIN. lia.
Qed.

Lemma build_decims_nonempty (N M : Z) : build_decims N M <> [].
Proof.
  intros E. pose proof (build_decims_has_1 N M) as H. rewrite E in H. exact H.
Qed.

(** [coerce_decim] on a positive request: the member of the list nearest to
    the request. *)
Lemma coerce_decim_spec (b : ddc) (r : Q) :
  well_formed b -> (0 < r)%Q ->
  exists m,
    coerce_decim b r = Ok m /\
    In m (build_decims (num_halfbands b) (cic_max_decim b)) /\
    forall m', In m' (build_decims (num_halfbands b) (cic_max_decim b)) ->
      (Qabs (r - inject_Z m) <= Qabs (r - inject_Z m'))%Q.
Proof.
  intros Hwf Hr.
  set (decims := build_decims (num_halfbands b) (cic_max_decim b)).
  destruct (clip_nearest (map inject_Z decims) r) as [mq [Hclip [Hin Hmin]]].
  { intros E. apply map_eq_nil in E. revert E. apply build_decims_nonempty. }
  { apply map_inject_Z_sorted, build_decims_sorted. }
  apply List.in_map_iff in Hin. destruct Hin as [m [<- Hm]].
  exists m. split; [|split; [exact Hm|]].
  - unfold coerce_decim. apply Qlt_bool_iff in Hr. rewrite Hr. cbn [negb].
    rewrite (wf_decims b Hwf). fold decims. unfold make_valid_decims.
    rewrite Hclip. cbn [rbind]. apply static_cast_int_inject_Z.
    eapply decims_fit_int_In; [exact (wf_fit b Hwf)|exact Hm].
  - intros m' Hm'. apply Hmin. now apply in_map.
Qed.

Lemma coerce_decim_nonpositive (b : ddc) (r : Q) :
  (r <= 0)%Q -> coerce_decim b r = Err assertion_error.
Proof.
  intros Hr. unfold coerce_decim.
  destruct (Qlt_bool 0 r) eqn:E; [|reflexivity].
  apply Qlt_bool_iff in E. exfalso. eapply Qlt_not_le; eassumption.
Qed.

(** [coerce_decim] leaves a positive member as it is. *)
Lemma coerce_decim_member (b : ddc) (D : Z) :
  well_formed b ->
  In D (build_decims (num_halfbands b) (cic_max_decim b)) -> 0 < D ->
  coerce_decim b (inject_Z D) = Ok D.
Proof.
  intros Hwf HD Hpos.
  destruct (coerce_decim_spec b (inject_Z D) Hwf) as [m [Hco [Hm Hmin]]].
  { change 0%Q with (inject_Z 0). now rewrite <- Zlt_Qlt. }
  rewrite Hco. f_equal. specialize (Hmin D HD).
  assert (E : (inject_Z m == inject_Z D)%Q).
  { qabs_cases (inject_Z D - inject_Z m)%Q;
      qabs_cases (inject_Z D - inject_Z D)%Q; lra. }
  now apply (proj1 (inject_Z_injective m D)).
Qed.

(** C2. For a request [r > 0], [coerce_decim r] returns a member of the set
    of valid decimations that minimises [|member - r|] over the whole set; a
    request below the smallest member is clipped to the smallest member, one
    above the largest to the largest, without an exception.  A request
    [r <= 0] raises an assertion error. *)
Theorem coerce_decim_nearest (b : ddc) (r : Q) :
  well_formed b ->
  ((0 < r)%Q ->
   exists m,
     coerce_decim b r = Ok m /\
     In m (build_decims (num_halfbands b) (cic_max_decim b)) /\
     (forall m', In m' (build_decims (num_halfbands b) (cic_max_decim b)) ->
        (Qabs (inject_Z m - r) <= Qabs (inject_Z m' - r))%Q) /\
     ((forall m', In m' (build_decims (num_halfbands b) (cic_max_decim b)) ->
         (r <= inject_Z m')%Q) ->
      forall m', In m' (build_decims (num_halfbands b) (cic_max_decim b)) ->
        m <= m') /\
     ((forall m', In m' (build_decims (num_halfbands b) (cic_max_decim b)) ->
         (inject_Z m' <= r)%Q) ->
      forall m', In m' (build_decims (num_halfbands b) (cic_max_decim b)) ->
        m' <= m)) /\
  ((r <= 0)%Q -> coerce_decim b r = Err assertion_error).
Proof.
  intros Hwf. split; [|apply coerce_decim_nonpositive].
  intros Hr. destruct (coerce_decim_spec b r Hwf Hr) as [m [Hco [Hm Hmin]]].
  exists m. split; [exact Hco|]. split; [exact Hm|]. split; [|split].
  - intros m' Hm'. rewrite (Qabs_Qminus (inject_Z m) r).
    rewrite (Qabs_Qminus (inject_Z m') r). now apply Hmin.
  - intros Hlow m' Hm'. pose proof (Hmin m' Hm') as H.
    pose proof (Hlow m Hm) as H1. pose proof (Hlow m' Hm') as H2.
    rewrite Zle_Qle.
    qabs_cases (r - inject_Z m)%Q; qabs_cases (r - inject_Z m')%Q; lra.
  - intros Hhigh m' Hm'. pose proof (Hmin m' Hm') as H.
    pose proof (Hhigh m Hm) as H1. pose proof (Hhigh m' Hm') as H2.
    rewrite Zle_Qle.
    qabs_cases (r - inject_Z m)%Q; qabs_cases (r - inject_Z m')%Q; lra.
Qed.

Lemma coerce_decim_nearest_witness :
  coerce_decim ddc_3_16 (7 # 2) = Ok 3 /\
  coerce_decim ddc_3_16 1000 = Ok 60 /\
  coerce_decim ddc_3_16 (-1 # 2) = Err assertion_error.
Proof.
  assert (Hwf : well_formed ddc_3_16) by (constructor; try reflexivity; simpl; lia).
  destruct (coerce_decim_nearest ddc_3_16 (7 # 2) Hwf) as [H1 _].
  destruct (coerce_decim_nearest ddc_3_16 1000 Hwf) as [H2 _].
  destruct (coerce_decim_nearest ddc_3_16 (-1 # 2) Hwf) as [_ H3].
  destruct H1 as [m1 [E1 _]]; [reflexivity|].
  destruct H2 as [m2 [E2 _]]; [reflexivity|].
  split; [|split].
  - rewrite E1. vm_compute in E1. symmetry. exact E1.
  - rewrite E2. vm_compute in E2. symmetry. exact E2.
  - apply H3. discriminate.
Defined.

(** C9. The claim: [coerce_decim D = D] for every member [D] of the set of
    valid decimations.  The set the constructor builds for 3 halfbands and a
    maximal CIC decimation of 16 has the member 0, and [coerce_decim] raises
    an assertion error on it. *)
Theorem coerce_decim_zero_member :
  In 0 (build_decims (num_halfbands ddc_3_16) (cic_max_decim ddc_3_16)) /\
  In (inject_Z 0) (valid_decims ddc_3_16) /\
  coerce_decim ddc_3_16 (inject_Z 0) = Err assertion_error.
Proof.
  split; [|split].
  - apply build_decims_In. right. exists 0, 0. simpl. repeat split; lia.
  - vm_compute. now left.
  - reflexivity.
Qed.

(** *** Stream commands *)

(** C7. A stream command that arrives on an edge of channel [chan] is
    forwarded to the opposite edge of [chan].  In the two fixed-count modes
    the sample count is multiplied by the decimation of [chan] when the
    command comes from the output edge (the product is a [size_t], exact when
    it fits 64 bits) and divided by it when the command comes from the input
    edge; in the continuous and stop modes the command is forwarded as it
    is. *)
Theorem stream_cmd_forwarding
  (b : ddc) (chan : nat) (c : chan_props) (cmd : stream_cmd_t) :
  chans b !! chan = Some c ->
  0 <= num_samps cmd < 2 ^ 64 ->
  0 < value (decim c) <= INT_MAX ->
  (fixed_count (stream_mode cmd) = true ->
   issue_stream_cmd_action_handler (mk_src OUTPUT_EDGE chan) cmd b =
     Ok (post_action (mk_src INPUT_EDGE chan)
           (with_num_samps cmd (wrap 64 (num_samps cmd * value (decim c)))) b) /\
   (num_samps cmd * value (decim c) < 2 ^ 64 ->
    wrap 64 (num_samps cmd * value (decim c)) = num_samps cmd * value (decim c)) /\
   issue_stream_cmd_action_handler (mk_src INPUT_EDGE chan) cmd b =
     Ok (post_action (mk_src OUTPUT_EDGE chan)
           (with_num_samps cmd (num_samps cmd / value (decim c))) b)) /\
  (fixed_count (stream_mode cmd) = false ->
   issue_stream_cmd_action_handler (mk_src OUTPUT_EDGE chan) cmd b =
     Ok (post_action (mk_src INPUT_EDGE chan) cmd b) /\
   issue_stream_cmd_action_handler (mk_src INPUT_EDGE chan) cmd b =
     Ok (post_action (mk_src OUTPUT_EDGE chan) cmd b)) /\
  issue_stream_cmd cmd chan b =
    issue_stream_cmd_action_handler (mk_src OUTPUT_EDGE chan) cmd b.
Proof.
  intros Hc Hn Hd. unfold INT_MAX in Hd.
  assert (Hw : wrap 64 (value (decim c)) = value (decim c)).
  { apply wrap_small. change (2 ^ 64) with 18446744073709551616. lia. }
  split; [|split; [|reflexivity]].
  - intros Hmode. unfold issue_stream_cmd_action_handler. cbn.
    unfold at_. rewrite Hc.
    destruct (stream_mode cmd); try discriminate Hmode; cbn; rewrite Hw.
    all: replace (value (decim c) =? 0) with false by (symmetry; apply Z.eqb_neq; lia).
    all: repeat split; try reflexivity.
    all: intros Hfit; apply wrap_small; split; [nia|assumption].
  - intros Hmode. unfold issue_stream_cmd_action_handler. cbn.
    destruct (stream_mode cmd); try discriminate Hmode; split; reflexivity.
Qed.

Lemma stream_cmd_forwarding_witness :
  issue_stream_cmd_action_handler (mk_src OUTPUT_EDGE 0)
    (mk_stream_cmd STREAM_MODE_NUM_SAMPS_AND_DONE 1000 true) ddc_decim_8 =
  Ok (post_action (mk_src INPUT_EDGE 0)
        (mk_stream_cmd STREAM_MODE_NUM_SAMPS_AND_DONE 8000 true) ddc_decim_8).
Proof.
  destruct (stream_cmd_forwarding ddc_decim_8 0
              (with_decim default_chan_props (mk_property 8 false))
              (mk_stream_cmd STREAM_MODE_NUM_SAMPS_AND_DONE 1000 true))
    as [H _].
  - reflexivity.
  - simpl. lia.
  - unfold INT_MAX. simpl. lia.
  - destruct H as [H _]; [reflexivity|]. exact H.
Defined.

(** *** Resolvers, one by one *)

Lemma rbind_ok {A B : Type} (m : result A) (k : A -> result B) (y : B) :
  rbind m k = Ok y -> exists x, m = Ok x /\ k x = Ok y.
Proof. destruct m as [x|e]; simpl; [eauto|discriminate]. Qed.

Lemma at_Some {A : Type} (l : list A) (i : nat) (x : A) :
  l !! i = Some x -> at_ l i = Ok x.
Proof. intros H. unfold at_. now rewrite H. Qed.

Lemma at_Ok {A : Type} (l : list A) (i : nat) (x : A) :
  at_ l i = Ok x -> l !! i = Some x.
Proof. unfold at_. destruct (l !! i); [congruence|discriminate]. Qed.

Lemma Ok_inj {A : Type} (x y : A) : Ok x = Ok y -> x = y.
Proof. congruence. Qed.

(** Inversion of a computation that returned. *)
Ltac inv_ok H :=
  repeat
    match type of H with
    | rbind ?m _ = Ok _ =>
        let x := fresh "x" in
        let E := fresh "E" in
        destruct m as [x|] eqn:E; cbn [rbind] in H; [|discriminate H]
    | (if ?c then _ else _) = Ok _ =>
        let E := fresh "E" in destruct c eqn:E
    | Err _ = Ok _ => discriminate H
    end.

Lemma put_chan_chans (chan : nat) (c : chan_props) (b : ddc) :
  chans (put_chan chan c b) = <[chan := c]> (chans b).
Proof. reflexivity. Qed.

Lemma put_chan_twice (chan : nat) (c1 c2 : chan_props) (b : ddc) :
  put_chan chan c2 (put_chan chan c1 b) = put_chan chan c2 b.
Proof.
  unfold put_chan, set_chans. cbn. now rewrite list_insert_insert_eq.
Qed.

Lemma put_chan_lookup (chan : nat) (c c0 : chan_props) (b : ddc) :
  chans b !! chan = Some c0 -> chans (put_chan chan c b) !! chan = Some c.
Proof.
  intros H. rewrite put_chan_chans. apply list_lookup_insert_eq.
  eapply lookup_lt_Some; eassumption.
Qed.

Lemma at_put_chan (chan : nat) (c c0 : chan_props) (b : ddc) :
  chans b !! chan = Some c0 -> at_ (chans (put_chan chan c b)) chan = Ok c.
Proof. intros H. apply at_Some. eapply put_chan_lookup; eassumption. Qed.

(** The execution of a resolver on channel [chan], whose properties are
    [c]. *)
Ltac run_on Hc :=
  unfold run_resolver; rewrite (at_Some _ _ _ Hc);
  cbn [rbind inputs body fold_right prop_mark_clean].

(** [set_decim] touches the registers, the warnings and the residual scaling
    of its channel. *)
Lemma set_decim_frame (D : Z) (chan : nat) (b b' : ddc) :
  set_decim D chan b = Ok b' ->
  chans b' = chans b /\ num_halfbands b' = num_halfbands b /\
  cic_max_decim b' = cic_max_decim b /\ valid_decims b' = valid_decims b /\
  posted b' = posted b /\
  exists r, residual_scaling b' = <[chan := r]> (residual_scaling b).
Proof.
  unfold set_decim, update_scaling. intros H.
  destruct (halfband_loop _ _ _ _) as [h c].
  inv_ok H. injection H as <-.
  destruct ((1 <? c) && (h =? 0)); cbn; repeat split; eauto.
Qed.

Section Resolution.

Variable gfw : Q -> double -> result (Q * Z).

Lemma scaling_settled_frame (c c' : chan_props) (res : Q) :
  scaling_in c' = scaling_in c -> scaling_out c' = scaling_out c ->
  scaling_settled c res -> scaling_settled c' res.
Proof. unfold scaling_settled. intros -> ->. tauto. Qed.

(** The invariant after a change of channel [chan] alone. *)
Lemma scaling_inv_update (b b' : ddc) (chan : nat) (c c' : chan_props) :
  scaling_inv b -> chans b !! chan = Some c ->
  chans b' = <[chan := c']> (chans b) ->
  (residual_scaling b' = residual_scaling b \/
   exists r, residual_scaling b' = <[chan := r]> (residual_scaling b)) ->
  (forall res', residual_scaling b' !! chan = Some res' -> scaling_settled c' res') ->
  scaling_inv b'.
Proof.
  intros [Hlen Hinv] Hc Hch Hres Hnew. split.
  - rewrite Hch, length_insert.
    destruct Hres as [->|[r ->]]; [|rewrite length_insert]; exact Hlen.
  - intros i ci res Hi Hri. rewrite Hch in Hi.
    destruct (decide (chan = i)) as [<-|Hne].
    + rewrite list_lookup_insert_eq in Hi by (eapply lookup_lt_Some; eassumption).
      injection Hi as <-. now apply Hnew.
    + rewrite list_lookup_insert_ne in Hi by assumption.
      apply (Hinv i ci res Hi).
      destruct Hres as [E|[r E]]; rewrite E in Hri; [exact Hri|].
      now rewrite list_lookup_insert_ne in Hri by assumption.
Qed.

Ltac step_body Hrun Hc :=
  rewrite (at_put_chan _ _ _ _ Hc) in Hrun; cbn [rbind] in Hrun.

Lemma step_scaling_inv (b b' : ddc) :
  step gfw b b' -> scaling_inv b -> scaling_inv b'.
Proof.
  intros [r chan c b0 b0' Hr Hc Htrig Hrun] Hinv.
  unfold run_resolver in Hrun. rewrite (at_Some _ _ _ Hc) in Hrun. cbn [rbind] in Hrun.
  simpl in Hr.
  destruct Hr as [<-|[<-|[<-|[<-|[<-|[<-|[<-|[<-|[<-|[]]]]]]]]]]; cbn in Hrun.
  - unfold resolve_scaling_out in Hrun. step_body Hrun Hc.
    inv_ok Hrun. apply Ok_inj in Hrun; subst b0'. rewrite put_chan_twice.
    eapply scaling_inv_update; [exact Hinv|exact Hc|reflexivity|now left|].
    cbn. intros res' Hres'. apply at_Ok in E. cbn in E.
    assert (x = res') by congruence. subst x. right. right. cbn. reflexivity.
  - unfold resolve_decim in Hrun. step_body Hrun Hc.
    inv_ok Hrun. apply Ok_inj in Hrun; subst b0'.
    apply set_decim_frame in E0. destruct E0 as [Hch [_ [_ [_ [_ [r Hr]]]]]].
    eapply scaling_inv_update; [exact Hinv|exact Hc| | |].
    + cbn. rewrite Hch. cbn. now rewrite list_insert_insert_eq.
    + right. exists r. cbn. rewrite Hr. reflexivity.
    + intros res' _. left. reflexivity.
  - unfold resolve_freq, _set_freq in Hrun. step_body Hrun Hc.
    inv_ok Hrun. inv_ok E. apply Ok_inj in E; subst x.
    apply Ok_inj in Hrun; subst b0'. cbn.
    eapply scaling_inv_update; [exact Hinv|exact Hc| | |].
    + cbn. now rewrite list_insert_insert_eq.
    + now left.
    + cbn. intros res' Hres'. destruct Hinv as [_ Hinv].
      eapply scaling_settled_frame; [| |exact (Hinv chan c res' Hc Hres')]; reflexivity.
  - unfold resolve_samp_rate_in in Hrun. step_body Hrun Hc.
    inv_ok Hrun. apply Ok_inj in Hrun; subst b0'. rewrite put_chan_twice.
    eapply scaling_inv_update; [exact Hinv|exact Hc|reflexivity|now left|].
    cbn. intros res' Hres'. destruct Hinv as [_ Hinv].
    eapply scaling_settled_frame; [| |exact (Hinv chan c res' Hc Hres')]; reflexivity.
  - unfold resolve_samp_rate_out in Hrun. step_body Hrun Hc.
    inv_ok Hrun. apply Ok_inj in Hrun; subst b0'. rewrite put_chan_twice.
    eapply scaling_inv_update; [exact Hinv|exact Hc|reflexivity|now left|].
    cbn. intros res' Hres'. destruct Hinv as [_ Hinv].
    eapply scaling_settled_frame; [| |exact (Hinv chan c res' Hc Hres')];
      match goal with |- context [if ?x then _ else _] => destruct x end; reflexivity.
  - unfold resolve_scaling_in in Hrun. step_body Hrun Hc.
    apply Ok_inj in Hrun; subst b0'. rewrite put_chan_twice.
    eapply scaling_inv_update; [exact Hinv|exact Hc|reflexivity|now left|].
    intros res' _. right. left. reflexivity.
  - unfold resolve_scaling_out in Hrun. step_body Hrun Hc.
    inv_ok Hrun. apply Ok_inj in Hrun; subst b0'. rewrite put_chan_twice.
    eapply scaling_inv_update; [exact Hinv|exact Hc|reflexivity|now left|].
    cbn. intros res' Hres'. apply at_Ok in E. cbn in E.
    assert (x = res') by congruence. subst x. right. right. cbn. reflexivity.
  - unfold resolve_type_in in Hrun. step_body Hrun Hc.
    apply Ok_inj in Hrun; subst b0'. rewrite put_chan_twice.
    eapply scaling_inv_update; [exact Hinv|exact Hc|reflexivity|now left|].
    cbn. intros res' Hres'. destruct Hinv as [_ Hinv].
    eapply scaling_settled_frame; [| |exact (Hinv chan c res' Hc Hres')]; reflexivity.
  - unfold resolve_type_out in Hrun. step_body Hrun Hc.
    apply Ok_inj in Hrun; subst b0'. rewrite put_chan_twice.
    eapply scaling_inv_update; [exact Hinv|exact Hc|reflexivity|now left|].
    cbn. intros res' Hres'. destruct Hinv as [_ Hinv].
    eapply scaling_settled_frame; [| |exact (Hinv chan c res' Hc Hres')]; reflexivity.
Qed.

Lemma write_scaling_inv (p : prop_id) (v : prop_value) (chan : nat) (b b' : ddc) :
  write_property p v chan b = Ok b' -> scaling_inv b -> scaling_inv b'.
Proof.
  unfold write_property. intros H Hinv. inv_ok H. apply Ok_inj in H. subst b'.
  apply at_Ok in E.
  eapply scaling_inv_update; [exact Hinv|exact E|reflexivity|now left|].
  intros res' Hres'. cbn in Hres'. destruct Hinv as [_ Hinv].
  pose proof (Hinv chan x res' E Hres') as Hs.
  destruct p, v; try discriminate E0; apply Ok_inj in E0; subst x0;
    first [ left; reflexivity | right; left; reflexivity
          | eapply scaling_settled_frame; [| |exact Hs]; reflexivity ].
Qed.

Lemma make_scaling_inv (hw : hw_info) (b : ddc) :
  make hw = Ok b -> scaling_inv b.
Proof.
  unfold make. intros H. inv_ok H. apply Ok_inj in H. subst b. split.
  - cbn. now rewrite !length_replicate.
  - cbn. intros chan c res Hc Hres.
    apply lookup_replicate in Hc, Hres. destruct Hc as [-> _], Hres as [-> _].
    right. right. reflexivity.
Qed.

Lemma reachable_scaling_inv (b : ddc) : reachable gfw b -> scaling_inv b.
Proof.
  induction 1 as [hw b H|p v chan b b' _ IH H|b b' _ IH H].
  - eapply make_scaling_inv; eassumption.
  - eapply write_scaling_inv; eassumption.
  - eapply step_scaling_inv; eassumption.
Qed.

(** *** The executable order is one of the orders *)

Lemma find_triggered_None (c : chan_props) :
  List.find (fun r => triggered r c) (resolvers gfw) = None -> chan_clean c.
Proof.
  intros H p. pose proof (find_none _ _ H) as Hn.
  destruct p.
  - specialize (Hn (mk_resolver [SAMP_RATE_IN] [DECIM; SAMP_RATE_OUT; SCALING_IN; FREQ]
                      resolve_samp_rate_in)).
    cbn in Hn. rewrite orb_false_r in Hn. apply Hn. tauto.
  - specialize (Hn (mk_resolver [SAMP_RATE_OUT] [DECIM; SAMP_RATE_IN]
                      resolve_samp_rate_out)).
    cbn in Hn. rewrite orb_false_r in Hn. apply Hn. tauto.
  - specialize (Hn (mk_resolver [SCALING_IN] [SCALING_OUT] resolve_scaling_in)).
    cbn in Hn. rewrite orb_false_r in Hn. apply Hn. tauto.
  - specialize (Hn (mk_resolver [SCALING_OUT] [SCALING_OUT] resolve_scaling_out)).
    cbn in Hn. rewrite orb_false_r in Hn. apply Hn. tauto.
  - specialize (Hn (mk_resolver [DECIM] [DECIM; SAMP_RATE_OUT; SCALING_IN]
                      resolve_decim)).
    cbn in Hn. rewrite orb_false_r in Hn. apply Hn. tauto.
  - specialize (Hn (mk_resolver [FREQ] [FREQ] (resolve_freq gfw))).
    cbn in Hn. rewrite orb_false_r in Hn. apply Hn. tauto.
  - specialize (Hn (mk_resolver [TYPE_IN] [TYPE_IN] resolve_type_in)).
    cbn in Hn. rewrite orb_false_r in Hn. apply Hn. tauto.
  - specialize (Hn (mk_resolver [TYPE_OUT] [TYPE_OUT] resolve_type_out)).
    cbn in Hn. rewrite orb_false_r in Hn. apply Hn. tauto.
Qed.

Lemma pick_from_None (cs : list chan_props) (k : nat) :
  pick_from gfw k cs = None -> Forall chan_clean cs.
Proof.
  revert k. induction cs as [|c cs IH]; intros k H; [constructor|].
  cbn [pick_from] in H.
  destruct (List.find _ _) eqn:E; [discriminate|].
  constructor; [now apply find_triggered_None|eapply IH; eassumption].
Qed.

Lemma pick_from_Some (cs : list chan_props) (k chan : nat) (r : resolver) :
  pick_from gfw k cs = Some (chan, r) ->
  exists c, (k <= chan)%nat /\ cs !! (chan - k)%nat = Some c /\
            In r (resolvers gfw) /\ triggered r c = true.
Proof.
  revert k. induction cs as [|c cs IH]; intros k H; [discriminate|].
  cbn [pick_from] in H. destruct (List.find _ _) as [r'|] eqn:E.
  - injection H as <- <-. apply find_some in E. destruct E as [Hin Htr].
    exists c. rewrite Nat.sub_diag. repeat split; auto.
  - apply IH in H. destruct H as [c' [Hk [Hc Hr]]].
    exists c'. split; [lia|]. split; [|exact Hr].
    replace (chan - k)%nat with (S (chan - S k)) by lia. exact Hc.
Qed.

Lemma resolve_all_sound (fuel : nat) (b b' : ddc) :
  resolve_all gfw fuel b = Ok b' -> resolves_to gfw b b'.
Proof.
  revert b. induction fuel as [|fuel IH]; intros b H; cbn [resolve_all] in H.
  - destruct (pick_from gfw 0 (chans b)) as [[chan r]|] eqn:E; [discriminate|].
    apply Ok_inj in H. subst b'. split; [constructor|].
    eapply pick_from_None; eassumption.
  - destruct (pick_from gfw 0 (chans b)) as [[chan r]|] eqn:E.
    + apply rbind_ok in H. destruct H as [b1 [Hrun Hrest]].
      apply pick_from_Some in E. destruct E as [c [_ [Hc [Hr Htr]]]].
      rewrite Nat.sub_0_r in Hc.
      destruct (IH b1 Hrest) as [Hsteps Hres]. split; [|exact Hres].
      eapply rtc_l; [|exact Hsteps]. econstructor; eassumption.
    + apply Ok_inj in H. subst b'. split; [constructor|].
      eapply pick_from_None; eassumption.
Qed.

Lemma reachable_steps (b b' : ddc) :
  reachable gfw b -> rtc (step gfw) b b' -> reachable gfw b'.
Proof.
  intros Hb Hsteps. induction Hsteps as [|b1 b2 b3 Hstep _ IH]; [assumption|].
  apply IH. eapply reachable_step; eassumption.
Qed.

Lemma set_property_reachable
  (fuel : nat) (p : prop_id) (v : prop_value) (chan : nat) (b b' : ddc) :
  reachable gfw b -> set_property gfw fuel p v chan b = Ok b' ->
  reachable gfw b' /\ resolved b'.
Proof.
  intros Hb H. unfold set_property in H. apply rbind_ok in H.
  destruct H as [b1 [Hw Hres]]. apply resolve_all_sound in Hres.
  destruct Hres as [Hsteps Hres]. split; [|exact Hres].
  eapply reachable_steps; [|exact Hsteps]. eapply reachable_write; eassumption.
Qed.

(** C4. In every block reached by construction, external writes of
    properties (of the output scaling too) and resolver executions, once no
    property is dirty any more, the output scaling of every channel is the
    input scaling times the residual scaling cached for the channel. *)
Theorem output_scaling_invariant (b : ddc) :
  reachable gfw b -> resolved b ->
  forall (chan : nat) (c : chan_props),
    chans b !! chan = Some c ->
    exists residual,
      residual_scaling b !! chan = Some residual /\
      (value (scaling_out c) == value (scaling_in c) * residual)%Q.
Proof.
  intros Hreach Hres chan c Hc.
  destruct (reachable_scaling_inv b Hreach) as [Hlen Hinv].
  destruct (lookup_lt_is_Some_2 (residual_scaling b) chan) as [res Hr].
  { rewrite Hlen. eapply lookup_lt_Some; eassumption. }
  exists res. split; [exact Hr|].
  unfold resolved in Hres. rewrite List.Forall_forall in Hres.
  assert (Hclean : chan_clean c).
  { apply Hres. apply list_elem_of_In. eapply list_elem_of_lookup_2; eassumption. }
  pose proof (Hclean SCALING_IN) as H1. pose proof (Hclean SCALING_OUT) as H2.
  cbn in H1, H2.
  destruct (Hinv chan c res Hc Hr) as [H|[H|H]]; [congruence|congruence|exact H].
Qed.

End Resolution.

Lemma output_scaling_invariant_witness :
  set_property example_freq_word 10 SCALING_OUT (VDouble 5) 0 ddc_3_16 =
    Ok ddc_3_16 /\
  exists residual,
    residual_scaling ddc_3_16 !! 0%nat = Some residual /\
    (value (scaling_out default_chan_props) ==
     value (scaling_in default_chan_props) * residual)%Q.
Proof.
  assert (E : set_property example_freq_word 10 SCALING_OUT (VDouble 5) 0 ddc_3_16 =
              Ok ddc_3_16) by (vm_compute; reflexivity).
  split; [exact E|].
  assert (Hmake : reachable example_freq_word ddc_3_16).
  { apply reachable_make with (hw := hw_3_16). reflexivity. }
  destruct (set_property_reachable example_freq_word 10 SCALING_OUT (VDouble 5) 0
              ddc_3_16 ddc_3_16 Hmake E) as [Hreach Hres].
  apply (output_scaling_invariant example_freq_word ddc_3_16 Hreach Hres 0%nat).
  reflexivity.
Defined.


(** *** The resolution of a decimation *)

Lemma coerce_decim_ge_1 (b : ddc) (v d : Z) :
  well_formed b -> 1 <= v -> coerce_decim b (inject_Z v) = Ok d ->
  In d (build_decims (num_halfbands b) (cic_max_decim b)) /\ 1 <= d.
Proof.
  intros Hwf Hv Hco.
  destruct (coerce_decim_spec b (inject_Z v) Hwf) as [m [Hco' [Hm Hmin]]].
  { change 0%Q with (inject_Z 0). rewrite <- Zlt_Qlt. lia. }
  rewrite Hco in Hco'. apply Ok_inj in Hco'. subst m. split; [exact Hm|].
  pose proof (build_decims_nonneg _ _ _ Hm) as H0.
  specialize (Hmin 1 (build_decims_has_1 _ _)).
  destruct (Z.eq_dec d 0) as [->|Hne]; [|lia].
  exfalso. rewrite Zle_Qle in Hv. change (inject_Z 0) with 0%Q in Hmin.
  change (inject_Z 1) with 1%Q in *.
  qabs_cases (inject_Z v - 0)%Q; qabs_cases (inject_Z v - 1)%Q; lra.
Qed.

Lemma set_decim_member (b : ddc) (d : Z) (chan : nat) :
  well_formed b ->
  In d (build_decims (num_halfbands b) (cic_max_decim b)) -> 1 <= d ->
  exists h c,
    halfband_loop (num_halfbands b) (Z.to_nat (num_halfbands b)) 0 d = (h, c) /\
    0 < c <= cic_max_decim b /\
    set_decim d chan b = Ok (programmed b d chan h c).
Proof.
  intros Hwf Hd Hpos.
  pose proof (wf_halfbands b Hwf) as HN. pose proof (wf_cic b Hwf) as HM.
  pose proof (decims_fit_int_In _ _ _ (wf_fit b Hwf) Hd) as Hfit.
  unfold INT_MAX in Hfit.
  destruct (decompose_spec (num_halfbands b) d) as [h [c [E [Hh [Hdc [Hc0 Hex]]]]]];
    [change (2 ^ 32) with 4294967296; lia|lia|].
  assert (Hpow : 0 < 2 ^ h) by (apply Z.pow_pos_nonneg; lia).
  assert (Hc : 0 < c <= cic_max_decim b).
  { apply build_decims_In in Hd. destruct Hd as [->|[hb [cc [Hhb [Hcc Hd]]]]].
    - nia.
    - unfold int_shl1 in Hd. rewrite Z.shiftl_1_l in Hd.
      assert (Hpb : 0 < 2 ^ hb <= 2 ^ 31).
      { split; [apply Z.pow_pos_nonneg; lia|apply Z.pow_le_mono_r; lia]. }
      rewrite wrap_small in Hd
        by (change (2 ^ 64) with 18446744073709551616;
            change (2 ^ 31) with 2147483648 in Hpb; nia).
      split; [nia|].
      destruct (Z.le_gt_cases hb h) as [Hle|Hgt].
      + replace h with (hb + (h - hb)) in Hdc by lia.
        rewrite Z.pow_add_r in Hdc by lia.
        assert (0 < 2 ^ (h - hb)) by (apply Z.pow_pos_nonneg; lia).
        assert (cc = c * 2 ^ (h - hb)) by nia. nia.
      + exfalso. destruct Hex as [Hex|Hex]; [lia|].
        replace hb with (h + Z.succ (hb - h - 1)) in Hd by lia.
        rewrite Z.pow_add_r, Z.pow_succ_r in Hd by lia.
        assert (c = 2 * (cc * 2 ^ (hb - h - 1))) by nia.
        subst c. rewrite Z.mul_comm, Z.mod_mul in Hex by lia. discriminate. }
  exists h, c. split; [exact E|]. split; [exact Hc|].
  apply set_decim_ok; try assumption; try lia.
  all: change (2 ^ 32) with 4294967296; lia.
Qed.

Lemma Qtrunc_Qeq_inject_Z (x : Q) (z : Z) :
  (x == inject_Z z)%Q -> Qtrunc x = z.
Proof.
  unfold Qeq, Qtrunc. cbn. intros H. rewrite Z.mul_1_r in H. rewrite H.
  apply Z.quot_mul. lia.
Qed.

Lemma wf_put_chan (chan : nat) (c c0 : chan_props) (b : ddc) :
  chans b !! chan = Some c0 -> well_formed b -> well_formed (put_chan chan c b).
Proof.
  intros Hc [H1 H2 H3 H4 H5]. constructor; cbn; try assumption.
  now rewrite length_insert.
Qed.

Lemma wf_programmed (b : ddc) (D : Z) (chan : nat) (h c : Z) :
  well_formed b -> well_formed (programmed b D chan h c).
Proof.
  intros [H1 H2 H3 H4 H5]. constructor; cbn; try assumption.
  now rewrite length_insert.
Qed.

Lemma chan_clean_not_triggered gfw (r : resolver) (c : chan_props) :
  In r (resolvers gfw) -> chan_clean c -> triggered r c = false.
Proof.
  intros Hr Hc. unfold triggered.
  simpl in Hr.
  destruct Hr as [<-|[<-|[<-|[<-|[<-|[<-|[<-|[<-|[<-|[]]]]]]]]]]; cbn;
    rewrite orb_false_r;
    first [ exact (Hc SCALING_OUT) | exact (Hc DECIM) | exact (Hc FREQ)
          | exact (Hc SAMP_RATE_IN) | exact (Hc SAMP_RATE_OUT)
          | exact (Hc SCALING_IN) | exact (Hc TYPE_IN) | exact (Hc TYPE_OUT) ].
Qed.

Lemma Qeq_bool_true (x y : Q) : (x == y)%Q -> Qeq_bool x y = true.
Proof. apply Qeq_bool_iff. Qed.

Lemma Qeq_bool_neq (x y : Q) : ~ (x == y)%Q -> Qeq_bool x y = false.
Proof.
  intros H. destruct (Qeq_bool x y) eqn:E; [|reflexivity].
  apply Qeq_bool_iff in E. contradiction.
Qed.

Lemma resolved_lookup (b : ddc) (chan : nat) (c : chan_props) :
  resolved b -> chans b !! chan = Some c -> chan_clean c.
Proof.
  unfold resolved. rewrite List.Forall_forall. intros H Hc. apply H.
  apply list_elem_of_In. eapply list_elem_of_lookup_2; eassumption.
Qed.

Lemma chan_clean_flags (c : chan_props) :
  chan_clean c ->
  is_dirty (samp_rate_in c) = false /\ is_dirty (samp_rate_out c) = false /\
  is_dirty (scaling_in c) = false /\ is_dirty (scaling_out c) = false /\
  is_dirty (decim c) = false /\ is_dirty (freq c) = false /\
  is_dirty (type_in c) = false /\ is_dirty (type_out c) = false.
Proof.
  intros H.
  pose proof (H SAMP_RATE_IN). pose proof (H SAMP_RATE_OUT). pose proof (H SCALING_IN).
  pose proof (H SCALING_OUT). pose proof (H DECIM). pose proof (H FREQ).
  pose proof (H TYPE_IN). pose proof (H TYPE_OUT). auto 10.
Qed.

Lemma write_property_eq (p : prop_id) (v : prop_value) (chan : nat) (b : ddc)
  (c c' : chan_props) :
  chans b !! chan = Some c -> write_prop p v c = Ok c' ->
  write_property p v chan b = Ok (put_chan chan c' b).
Proof.
  intros Hc Hw. unfold write_property. rewrite (at_Some _ _ _ Hc). cbn [rbind].
  now rewrite Hw.
Qed.

Lemma poke32_put_chan (addr data : Z) (chan : nat) (c : chan_props) (b : ddc) :
  poke32 addr data (put_chan chan c b) = put_chan chan c (poke32 addr data b).
Proof. reflexivity. Qed.

Lemma wf_poke32 (addr data : Z) (b : ddc) :
  well_formed b -> well_formed (poke32 addr data b).
Proof. intros [H1 H2 H3 H4 H5]. constructor; assumption. Qed.

Lemma coerce_decim_Ok_member (b : ddc) (r : Q) (d : Z) :
  well_formed b -> coerce_decim b r = Ok d ->
  In d (build_decims (num_halfbands b) (cic_max_decim b)).
Proof.
  intros Hwf Hco. destruct (Qlt_le_dec 0 r) as [Hr|Hr].
  - destruct (coerce_decim_spec b r Hwf Hr) as [m [Hco' [Hm _]]].
    rewrite Hco in Hco'. apply Ok_inj in Hco'. now subst m.
  - rewrite (coerce_decim_nonpositive b r Hr) in Hco. discriminate.
Qed.

(** *** Resolutions, in whatever order *)

Section Chains.

Variable gfw : Q -> double -> result (Q * Z).

Lemma resolved_no_step (b b' : ddc) : resolved b -> step gfw b b' -> False.
Proof.
  intros Hres Hstep. destruct Hstep as [r chan c b b' Hr Hc Htr Hrun].
  pose proof (resolved_lookup b chan c Hres Hc) as Hclean.
  rewrite (chan_clean_not_triggered gfw r c Hr Hclean) in Htr. discriminate.
Qed.

Lemma resolved_pick_from (cs : list chan_props) (k : nat) :
  Forall chan_clean cs -> pick_from gfw k cs = None.
Proof.
  intros H. revert k. induction H as [|c cs Hc _ IH]; intros k; [reflexivity|].
  cbn [pick_from].
  destruct (List.find (fun r => triggered r c) (resolvers gfw)) as [r|] eqn:E;
    [|apply IH].
  apply find_some in E. destruct E as [Hr Htr].
  rewrite (chan_clean_not_triggered gfw r c Hr Hc) in Htr. discriminate.
Qed.

(** The only channel with something to resolve. *)
Lemma triggered_at (b : ddc) (chan : nat) (c c1 : chan_props) (r : resolver)
  (chan' : nat) (c' : chan_props) :
  Forall chan_clean (chans b) -> chans b !! chan = Some c ->
  In r (resolvers gfw) ->
  <[chan := c1]> (chans b) !! chan' = Some c' -> triggered r c' = true ->
  chan' = chan /\ c' = c1.
Proof.
  intros Hres Hc Hr Hc' Htr.
  destruct (decide (chan' = chan)) as [->|Hne].
  - split; [reflexivity|].
    rewrite list_lookup_insert_eq in Hc' by (eapply lookup_lt_Some; eassumption).
    congruence.
  - exfalso. rewrite list_lookup_insert_ne in Hc' by congruence.
    assert (Hcl : chan_clean c') by (eapply Forall_lookup_1; eassumption).
    rewrite (chan_clean_not_triggered gfw r c' Hr Hcl) in Htr. discriminate.
Qed.

Variable Inv : ddc -> Prop.
Variable measure : ddc -> nat.

Hypothesis progress :
  forall (b : ddc) (r : resolver) (chan : nat) (c : chan_props),
    Inv b -> In r (resolvers gfw) -> chans b !! chan = Some c -> triggered r c = true ->
    exists b', run_resolver r chan b = Ok b' /\ Inv b' /\ (measure b' < measure b)%nat.

Lemma chain_resolve_all (n : nat) :
  forall b, Inv b -> (measure b <= n)%nat ->
    exists b', resolve_all gfw n b = Ok b' /\ Inv b' /\ resolved b'.
Proof.
  induction n as [|n IH]; intros b HI Hm; cbn [resolve_all].
  - destruct (pick_from gfw 0 (chans b)) as [[chan r]|] eqn:E.
    + apply pick_from_Some in E. destruct E as [c [_ [Hc [Hr Htr]]]].
      rewrite Nat.sub_0_r in Hc.
      destruct (progress b r chan c HI Hr Hc Htr) as [b1 [_ [_ Hlt]]]. lia.
    + exists b. split; [reflexivity|]. split; [exact HI|].
      eapply pick_from_None; eassumption.
  - destruct (pick_from gfw 0 (chans b)) as [[chan r]|] eqn:E.
    + apply pick_from_Some in E. destruct E as [c [_ [Hc [Hr Htr]]]].
      rewrite Nat.sub_0_r in Hc.
      destruct (progress b r chan c HI Hr Hc Htr) as [b1 [Hrun [HI1 Hlt]]].
      rewrite Hrun. cbn [rbind]. apply (IH b1 HI1). lia.
    + exists b. split; [reflexivity|]. split; [exact HI|].
      eapply pick_from_None; eassumption.
Qed.

Lemma chain_steps (b b' : ddc) : Inv b -> rtc (step gfw) b b' -> Inv b'.
Proof.
  intros HI Hsteps. induction Hsteps as [b|b b1 b2 Hstep _ IH]; [exact HI|].
  apply IH. destruct Hstep as [r chan c b b1 Hr Hc Htr Hrun].
  destruct (progress b r chan c HI Hr Hc Htr) as [b1' [Hrun' [HI1 _]]].
  congruence.
Qed.

End Chains.

(** *** Binary64 quotients *)

Lemma deqb_refl (x : double) : x <> S754_nan -> deqb x x = true.
Proof.
  intros H. unfold deqb, SFeqb. destruct x as [s|s| |s m e]; cbn.
  - reflexivity.
  - now destruct s.
  - congruence.
  - destruct s; rewrite Z.compare_refl, Pos.compare_cont_refl; reflexivity.
Qed.

(** A quotient that truncates to an [int] is that of two numbers. *)
Lemma int_of_double_ddiv (x y : double) (t : Z) :
  int_of_double (ddiv x y) = Ok t -> deqb x x = true /\ deqb y y = true.
Proof.
  intros H. split; apply deqb_refl; intros ->.
  - discriminate H.
  - destruct x; discriminate H.
Qed.

(** [coerce_decim] looks at the valid decimations only. *)
Lemma coerce_decim_frame (b b' : ddc) (r : Q) :
  valid_decims b' = valid_decims b -> coerce_decim b' r = coerce_decim b r.
Proof. intros H. unfold coerce_decim. now rewrite H. Qed.

(** *** The rates while they settle *)

Section Settling.

Variable gfw : Q -> double -> result (Q * Z).
Variables (chan : nat) (q : double) (a f0 : Q) (d cd : Z) (res0 R : Q).
Hypothesis Hd : 1 <= d.

Let m (c : chan_props) : nat := (settle_measure R c + freq_measure a c)%nat.

Lemma inject_Z_d_nonzero : ~ (inject_Z d == 0)%Q.
Proof.
  change 0%Q with (inject_Z 0). rewrite inject_Z_injective. lia.
Qed.

Lemma settling_numbers (b : ddc) (c : chan_props) :
  rate_settling gfw chan q a f0 d cd res0 R b c ->
  deqb q q = true /\
  deqb (ddiv q (double_of_int d)) (ddiv q (double_of_int d)) = true.
Proof.
  intros S. destruct (rs_round _ _ _ _ _ _ _ _ _ _ _ S) as [t [Ht _]].
  exact (int_of_double_ddiv _ _ _ Ht).
Qed.

Lemma settling_put (b : ddc) (c c' : chan_props) :
  rate_settling gfw chan q a f0 d cd res0 R b c ->
  value (samp_rate_in c') = q -> is_dirty (samp_rate_in c') = false ->
  value (decim c') = d ->
  value (samp_rate_out c') = ddiv q (double_of_int d) ->
  is_dirty (decim c') = is_dirty (decim c) ->
  (is_dirty (decim c') = true ->
   res0 = R \/
   is_dirty (scaling_in c') = false /\ is_dirty (scaling_out c') = false) ->
  (value (freq c') = f0 \/ (value (freq c') == a)%Q) ->
  (is_dirty (freq c') = false -> (value (freq c') == a)%Q) ->
  (is_dirty (freq c') = true -> is_dirty (freq c) = true) ->
  is_dirty (type_in c') = false -> is_dirty (type_out c') = false ->
  rate_settling gfw chan q a f0 d cd res0 R (put_chan chan c' b) c'.
Proof.
  intros S H1 H2 H3 H4 H5 H6 H7 H8 H9 H10 H11. destruct S.
  constructor; try assumption.
  - eapply wf_put_chan; eassumption.
  - intros i ci Hne Hi. cbn in Hi.
    rewrite list_lookup_insert_ne in Hi by congruence. eauto.
  - eapply put_chan_lookup; eassumption.
  - cbn. now rewrite H5.
  - intros H. pose proof (H6 H) as E3. rewrite H5 in H.
    destruct (rs_pending0 H) as [E1 [_ E2]]. auto.
  - intros H. apply rs_freq_dirty0. now apply H9.
Qed.

Lemma settling_poke32 (addr data : Z) (b : ddc) (c : chan_props) :
  rate_settling gfw chan q a f0 d cd res0 R b c ->
  rate_settling gfw chan q a f0 d cd res0 R (poke32 addr data b) c.
Proof.
  intros S. destruct S. constructor; try assumption. now apply wf_poke32.
Qed.

Lemma settling_residual (b : ddc) (c : chan_props) :
  rate_settling gfw chan q a f0 d cd res0 R b c ->
  is_dirty (scaling_in c) = true \/ is_dirty (scaling_out c) = true ->
  residual_scaling b !! chan = Some R.
Proof.
  intros S H. pose proof (rs_residual _ _ _ _ _ _ _ _ _ _ _ S) as Hres.
  destruct (is_dirty (decim c)) eqn:E; [|exact Hres].
  destruct (rs_pending _ _ _ _ _ _ _ _ _ _ _ S E) as [_ [[->|[H1 H2]] _]];
    [exact Hres|].
  destruct H; congruence.
Qed.

Lemma settling_pending (b : ddc) (c : chan_props) :
  rate_settling gfw chan q a f0 d cd res0 R b c ->
  is_dirty (scaling_in c) = true \/ is_dirty (scaling_out c) = true ->
  is_dirty (decim c) = true -> res0 = R.
Proof.
  intros S H E.
  destruct (rs_pending _ _ _ _ _ _ _ _ _ _ _ S E) as [_ [[->|[H1 H2]] _]];
    [reflexivity|].
  destruct H; congruence.
Qed.

Lemma settle_scaling_out (b : ddc) (c : chan_props) (outs : list prop_id) :
  rate_settling gfw chan q a f0 d cd res0 R b c ->
  is_dirty (scaling_out c) = true ->
  exists b' c',
    run_resolver (mk_resolver [SCALING_OUT] outs resolve_scaling_out) chan b = Ok b' /\
    rate_settling gfw chan q a f0 d cd res0 R b' c' /\ (m c' < m c)%nat.
Proof.
  intros S Hdirty.
  pose proof (settling_residual b c S (or_intror Hdirty)) as Hres.
  pose proof (settling_pending b c S (or_intror Hdirty)) as Hpend.
  pose proof (rs_chan _ _ _ _ _ _ _ _ _ _ _ S) as Hc.
  set (c1 := with_scaling_out c
               (assign_double (mark_clean (scaling_out c)) (value (scaling_in c) * R)%Q)).
  exists (put_chan chan c1 b), c1. split; [|split].
  - run_on Hc. unfold resolve_scaling_out.
    erewrite at_put_chan by exact Hc. cbn [rbind].
    cbn [residual_scaling put_chan set_chans]. rewrite (at_Some _ _ _ Hres).
    cbn [rbind]. rewrite put_chan_twice. reflexivity.
  - apply (settling_put b c c1 S); destruct S; cbn; try assumption; try reflexivity;
      try congruence; auto.
  - unfold m, settle_measure, freq_measure. cbn. rewrite Hdirty.
    destruct (Qeq_bool (value (scaling_out c)) (value (scaling_in c) * R)) eqn:E; cbn.
    + lia.
    + rewrite Qeq_bool_refl. lia.
Qed.

Lemma settle_scaling_in (b : ddc) (c : chan_props) :
  rate_settling gfw chan q a f0 d cd res0 R b c ->
  is_dirty (scaling_in c) = true ->
  exists b' c',
    run_resolver (mk_resolver [SCALING_IN] [SCALING_OUT] resolve_scaling_in) chan b
      = Ok b' /\
    rate_settling gfw chan q a f0 d cd res0 R b' c' /\ (m c' < m c)%nat.
Proof.
  intros S Hdirty.
  pose proof (settling_pending b c S (or_introl Hdirty)) as Hpend.
  pose proof (rs_chan _ _ _ _ _ _ _ _ _ _ _ S) as Hc.
  set (c1 := with_scaling_out (with_scaling_in c (mark_clean (scaling_in c)))
               (force_dirty (scaling_out c))).
  exists (put_chan chan c1 b), c1. split; [|split].
  - run_on Hc. unfold resolve_scaling_in.
    erewrite at_put_chan by exact Hc. cbn [rbind].
    rewrite put_chan_twice. reflexivity.
  - apply (settling_put b c c1 S); destruct S; cbn; try assumption; try reflexivity;
      try congruence; auto.
  - unfold m, settle_measure, freq_measure. cbn. rewrite Hdirty.
    destruct (is_dirty (scaling_out c));
      destruct (Qeq_bool (value (scaling_out c)) (value (scaling_in c) * R));
      cbn; lia.
Qed.

Lemma settle_freq (b : ddc) (c : chan_props) :
  rate_settling gfw chan q a f0 d cd res0 R b c -> is_dirty (freq c) = true ->
  exists b' c',
    run_resolver (mk_resolver [FREQ] [FREQ] (resolve_freq gfw)) chan b = Ok b' /\
    rate_settling gfw chan q a f0 d cd res0 R b' c' /\ (m c' < m c)%nat.
Proof.
  intros S Hdirty.
  pose proof (rs_chan _ _ _ _ _ _ _ _ _ _ _ S) as Hc.
  pose proof (rs_in _ _ _ _ _ _ _ _ _ _ _ S) as Hin.
  destruct (rs_freq_dirty _ _ _ _ _ _ _ _ _ _ _ S Hdirty (value (freq c))
              (rs_freq _ _ _ _ _ _ _ _ _ _ _ S))
    as [a' [w' [Hg Ha]]].
  set (c1 := with_freq c (assign_double (mark_clean (freq c)) a')).
  exists (put_chan chan c1 (poke32 (get_addr SR_FREQ_ADDR chan) w' b)), c1.
  split; [|split].
  - run_on Hc. unfold resolve_freq, _set_freq.
    erewrite at_put_chan by exact Hc. cbn [rbind].
    cbn [with_freq freq samp_rate_in mark_clean value]. rewrite Hin, Hg.
    cbn [rbind fst snd]. rewrite poke32_put_chan, put_chan_twice. reflexivity.
  - apply (settling_put _ c c1 (settling_poke32 _ _ b c S)); destruct S; cbn;
      try assumption; try reflexivity.
    + intros H. destruct (rs_pending0 H) as [_ [E1 _]]. exact E1.
    + now right.
    + intros _. exact Ha.
    + intros _. exact Hdirty.
  - unfold m, settle_measure, freq_measure. cbn. rewrite Hdirty.
    rewrite (Qeq_bool_true _ _ Ha).
    destruct (Qeq_bool (value (freq c)) a') eqn:E; cbn.
    + apply Qeq_bool_iff in E.
      assert (E' : (value (freq c) == a)%Q) by (rewrite E; exact Ha).
      rewrite (Qeq_bool_true _ _ E'). lia.
    + destruct (Qeq_bool (value (freq c)) a) eqn:E2; [|lia].
      apply Qeq_bool_iff in E2. rewrite <- Ha in E2.
      apply Qeq_bool_iff in E2. congruence.
Qed.

Lemma settle_decim (b : ddc) (c : chan_props) :
  rate_settling gfw chan q a f0 d cd res0 R b c -> is_dirty (decim c) = true ->
  exists b' c',
    run_resolver
      (mk_resolver [DECIM] [DECIM; SAMP_RATE_OUT; SCALING_IN] resolve_decim) chan b
      = Ok b' /\
    rate_settling gfw chan q a f0 d cd res0 R b' c' /\ (m c' < m c)%nat.
Proof.
  intros S Hdirty. destruct (settling_numbers b c S) as [_ Hoo].
  destruct S as [Hwf Hoth Hc Hin Hinc Hdec Hout Hround Hres Hpend Hfr Hfrc Hfrd
                   Hti Hto Hmem Hcd].
  destruct (Hpend Hdirty) as [HR _].
  set (c1 := with_decim c (mark_clean (decim c))).
  assert (Hwf1 : well_formed (put_chan chan c1 b)) by (eapply wf_put_chan; eassumption).
  destruct (set_decim_member (put_chan chan c1 b) d chan Hwf1 Hmem Hd)
    as [h [c' [Eloop [Hc' Hset]]]].
  assert (c' = cd) by (cbn in Eloop; rewrite Eloop in Hcd; exact Hcd).
  subst c'.
  assert (Hlen : (chan < length (residual_scaling b))%nat).
  { eapply lookup_lt_Some; eassumption. }
  eexists. eexists. split; [|split].
  - run_on Hc. fold c1. unfold resolve_decim.
    erewrite at_put_chan by exact Hc. cbn [rbind].
    change (coerce_decim (put_chan chan c1 b)) with (coerce_decim b).
    replace (value (decim c1)) with d by (symmetry; exact Hdec).
    rewrite (coerce_decim_member b d Hwf Hmem) by lia. cbn [rbind].
    cbn [with_decim decim assign_int assign value].
    rewrite Hset. cbn [rbind]. reflexivity.
  - constructor.
    + apply (wf_put_chan chan _ c1); [|apply wf_programmed; exact Hwf1].
      cbn. apply list_lookup_insert_eq. eapply lookup_lt_Some; eassumption.
    + intros i ci Hne Hi. cbn in Hi.
      rewrite !list_lookup_insert_ne in Hi by congruence. eauto.
    + cbn. rewrite list_insert_insert_eq. apply list_lookup_insert_eq.
      eapply lookup_lt_Some; eassumption.
    + exact Hin.
    + exact Hinc.
    + reflexivity.
    + cbn. now rewrite Hin.
    + exact Hround.
    + cbn. rewrite Hdec, Z.eqb_refl. cbn. rewrite HR.
      apply list_lookup_insert_eq. exact Hlen.
    + cbn. rewrite Hdec, Z.eqb_refl. cbn. discriminate.
    + exact Hfr.
    + exact Hfrc.
    + exact Hfrd.
    + exact Hti.
    + exact Hto.
    + exact Hmem.
    + exact Hcd.
  - unfold m, settle_measure, freq_measure. cbn.
    rewrite ?Hdirty, ?Hdec, ?Z.eqb_refl, ?Hin, ?Hout, ?Hoo. cbn.
    destruct (is_dirty (samp_rate_out c)), (is_dirty (scaling_in c)),
      (is_dirty (scaling_out c));
      destruct (Qeq_bool (value (scaling_out c)) (value (scaling_in c) * R));
      cbn; lia.
Qed.

Lemma settle_samp_rate_out (b : ddc) (c : chan_props) :
  rate_settling gfw chan q a f0 d cd res0 R b c ->
  is_dirty (samp_rate_out c) = true ->
  exists b' c',
    run_resolver
      (mk_resolver [SAMP_RATE_OUT] [DECIM; SAMP_RATE_IN] resolve_samp_rate_out) chan b
      = Ok b' /\
    rate_settling gfw chan q a f0 d cd res0 R b' c' /\ (m c' < m c)%nat.
Proof.
  intros S Hdirty. destruct (settling_numbers b c S) as [Hqq _].
  pose proof (rs_chan _ _ _ _ _ _ _ _ _ _ _ S) as Hc.
  pose proof (rs_decim _ _ _ _ _ _ _ _ _ _ _ S) as Hdec.
  pose proof (rs_in _ _ _ _ _ _ _ _ _ _ _ S) as Hin.
  pose proof (rs_out _ _ _ _ _ _ _ _ _ _ _ S) as Hout.
  destruct (rs_round _ _ _ _ _ _ _ _ _ _ _ S) as [t [Ht Hco]].
  set (c1 := with_samp_rate_out c (mark_clean (samp_rate_out c))).
  assert (Hrun : run_resolver
      (mk_resolver [SAMP_RATE_OUT] [DECIM; SAMP_RATE_IN] resolve_samp_rate_out) chan b
      = Ok (put_chan chan
              (if is_dirty (decim c)
               then with_samp_rate_in (with_decim c1 (mk_property d true))
                      (mk_property q false)
               else with_decim c1 (mk_property d false)) b)).
  { run_on Hc. fold c1. unfold resolve_samp_rate_out.
    erewrite at_put_chan by exact Hc. cbn [rbind].
    cbn [c1 with_samp_rate_out samp_rate_in samp_rate_out mark_clean value].
    rewrite Hin, Hout, Ht. cbn [rbind].
    change (coerce_decim (put_chan chan _ b)) with (coerce_decim b).
    rewrite Hco. cbn [rbind].
    rewrite put_chan_twice. f_equal. f_equal.
    unfold assign_int, assign_rate, assign.
    cbn. rewrite Hdec, Z.eqb_refl.
    destruct (is_dirty (decim c)) eqn:Ed; cbn; [|reflexivity].
    destruct (rs_pending _ _ _ _ _ _ _ _ _ _ _ S Ed) as [_ [_ Hback]].
    rewrite Hout, Hin, Hback, Hqq.
    rewrite (rs_in_clean _ _ _ _ _ _ _ _ _ _ _ S). reflexivity. }
  eexists. eexists. split; [exact Hrun|]. split.
  - apply (settling_put b c _ S); destruct (is_dirty (decim c)) eqn:Ed; cbn;
      try reflexivity; try discriminate; try (destruct S; assumption).
    + intros _. destruct (rs_pending _ _ _ _ _ _ _ _ _ _ _ S Ed) as [_ [H1 _]].
      exact H1.
    + tauto.
    + tauto.
  - unfold m, settle_measure, freq_measure.
    destruct (is_dirty (decim c)) eqn:Ed; cbn; rewrite ?Hdirty; cbn; lia.
Qed.

(** While the rates settle, every triggered resolver returns, keeps the
    channel settling and brings it nearer to rest. *)
Lemma settle_progress (b : ddc) (c : chan_props) (r : resolver) (chan' : nat)
  (c0 : chan_props) :
  rate_settling gfw chan q a f0 d cd res0 R b c ->
  In r (resolvers gfw) -> chans b !! chan' = Some c0 -> triggered r c0 = true ->
  exists b' c',
    run_resolver r chan' b = Ok b' /\
    rate_settling gfw chan q a f0 d cd res0 R b' c' /\ (m c' < m c)%nat.
Proof.
  intros S Hr Hc0 Htr.
  destruct (decide (chan' = chan)) as [->|Hne].
  2:{ pose proof (rs_others _ _ _ _ _ _ _ _ _ _ _ S chan' c0 Hne Hc0) as Hclean.
      rewrite (chan_clean_not_triggered gfw r c0 Hr Hclean) in Htr. discriminate. }
  pose proof (rs_chan _ _ _ _ _ _ _ _ _ _ _ S) as Hc. rewrite Hc in Hc0.
  injection Hc0 as <-.
  unfold triggered in Htr. simpl in Hr.
  destruct Hr as [<-|[<-|[<-|[<-|[<-|[<-|[<-|[<-|[<-|[]]]]]]]]]];
    cbn in Htr; rewrite orb_false_r in Htr.
  - now apply settle_scaling_out.
  - now apply settle_decim.
  - now apply settle_freq.
  - rewrite (rs_in_clean _ _ _ _ _ _ _ _ _ _ _ S) in Htr. discriminate.
  - now apply settle_samp_rate_out.
  - now apply settle_scaling_in.
  - now apply settle_scaling_out.
  - rewrite (rs_type_in_clean _ _ _ _ _ _ _ _ _ _ _ S) in Htr. discriminate.
  - rewrite (rs_type_out_clean _ _ _ _ _ _ _ _ _ _ _ S) in Htr. discriminate.
Qed.

Let settled (b : ddc) : Prop :=
  exists c, rate_settling gfw chan q a f0 d cd res0 R b c.

Let left_to_do (b : ddc) : nat :=
  match chans b !! chan with
  | Some c => m c
  | None => 0%nat
  end.

Lemma settle_chain (b : ddc) (r : resolver) (chan' : nat) (c' : chan_props) :
  settled b -> In r (resolvers gfw) -> chans b !! chan' = Some c' ->
  triggered r c' = true ->
  exists b', run_resolver r chan' b = Ok b' /\ settled b' /\
             (left_to_do b' < left_to_do b)%nat.
Proof.
  intros [c S] Hr Hc' Htr.
  destruct (settle_progress b c r chan' c' S Hr Hc' Htr) as [b' [c1 [Hrun [S1 Hlt]]]].
  exists b'. split; [exact Hrun|]. split; [exists c1; exact S1|].
  unfold left_to_do.
  now rewrite (rs_chan _ _ _ _ _ _ _ _ _ _ _ S), (rs_chan _ _ _ _ _ _ _ _ _ _ _ S1).
Qed.

(** After an external write that leaves one resolver to run, and that
    resolver brings the channel into the settling state: the executable
    order ends within the bound the measure gives, and every order ends in
    a settling state. *)
Lemma settle_after_write (bw : ddc) (n : nat) :
  ~ resolved bw ->
  (forall r chan' c',
     In r (resolvers gfw) -> chans bw !! chan' = Some c' -> triggered r c' = true ->
     exists b2 c2,
       run_resolver r chan' bw = Ok b2 /\
       rate_settling gfw chan q a f0 d cd res0 R b2 c2 /\ (m c2 <= n)%nat) ->
  (forall fuel, (n < fuel)%nat ->
     exists b' c',
       resolve_all gfw fuel bw = Ok b' /\
       rate_settling gfw chan q a f0 d cd res0 R b' c' /\ resolved b') /\
  (forall b', rtc (step gfw) bw b' -> resolved b' ->
     exists c', rate_settling gfw chan q a f0 d cd res0 R b' c').
Proof.
  intros Hdirty Hfirst. split.
  - intros fuel Hfuel. destruct fuel as [|fuel]; [lia|]. cbn [resolve_all].
    destruct (pick_from gfw 0 (chans bw)) as [[chan' r]|] eqn:E.
    + apply pick_from_Some in E. destruct E as [c' [_ [Hc' [Hr Htr]]]].
      rewrite Nat.sub_0_r in Hc'.
      destruct (Hfirst r chan' c' Hr Hc' Htr) as [b2 [c2 [Hrun [S2 Hm]]]].
      rewrite Hrun. cbn [rbind].
      destruct (chain_resolve_all gfw settled left_to_do settle_chain fuel b2)
        as [b' [Hres [[c3 S3] Hrest]]].
      * exists c2. exact S2.
      * unfold left_to_do. rewrite (rs_chan _ _ _ _ _ _ _ _ _ _ _ S2). lia.
      * exists b', c3. auto.
    + exfalso. apply Hdirty. eapply pick_from_None; eassumption.
  - intros b' Hsteps Hrest.
    apply rtc_inv in Hsteps. destruct Hsteps as [<-|[b2 [Hstep Hsteps]]];
      [contradiction|].
    destruct Hstep as [r chan' c' bw b2 Hr Hc' Htr Hrun].
    destruct (Hfirst r chan' c' Hr Hc' Htr) as [b2' [c2 [Hrun' [S2 _]]]].
    rewrite Hrun in Hrun'. apply Ok_inj in Hrun'. subst b2'.
    apply (chain_steps gfw settled left_to_do settle_chain b2 b');
      [exists c2; exact S2|exact Hsteps].
Qed.

(** At rest, the channel has the input rate [q], the decimation [d], their
    quotient as output rate and the frequency [a]. *)
Lemma settled_result (b : ddc) (c : chan_props) :
  rate_settling gfw chan q a f0 d cd res0 R b c -> resolved b ->
  chans b !! chan = Some c /\ value (samp_rate_in c) = q /\ value (decim c) = d /\
  value (samp_rate_out c) = ddiv q (double_of_int d) /\ (value (freq c) == a)%Q.
Proof.
  intros S Hrest. pose proof (rs_chan _ _ _ _ _ _ _ _ _ _ _ S) as Hc.
  pose proof (resolved_lookup b chan c Hrest Hc FREQ) as Hcl. cbn in Hcl.
  destruct S. auto 10.
Qed.

End Settling.

(** *** The resolution of a decimation *)

Section DecimSet.

Variable gfw : Q -> double -> result (Q * Z).
Variables (b : ddc) (chan : nat) (c0 : chan_props) (v d : Z).
Hypothesis Hwf : well_formed b.
Hypothesis Hres : resolved b.
Hypothesis Hc0 : chans b !! chan = Some c0.
Hypothesis Hv : 1 <= v.
Hypothesis Hco : coerce_decim b (inject_Z v) = Ok d.
Hypothesis Hround :
  exists t,
    int_of_double
      (ddiv (value (samp_rate_in c0))
         (ddiv (value (samp_rate_in c0)) (double_of_int d))) = Ok t /\
    coerce_decim b (inject_Z t) = Ok d.
Hypothesis Hback :
  v <> d ->
  dmul (ddiv (value (samp_rate_in c0)) (double_of_int d)) (double_of_int d) =
    value (samp_rate_in c0).

Let bw := put_chan chan (with_decim c0 (mk_property v true)) b.
Let cd := snd (halfband_loop (num_halfbands b) (Z.to_nat (num_halfbands b)) 0 d).
Let R := residual_of cd.

Lemma write_decim_eq : write_property DECIM (VInt v) chan b = Ok bw.
Proof. unfold write_property. now rewrite (at_Some _ _ _ Hc0). Qed.

Lemma decim_written_dirty : ~ resolved bw.
Proof.
  intros H.
  assert (Hc1 : chans bw !! chan = Some (with_decim c0 (mk_property v true)))
    by (eapply put_chan_lookup; eassumption).
  pose proof (resolved_lookup bw chan _ H Hc1 DECIM) as Hcl. discriminate Hcl.
Qed.

(** After the external write of the decimation [v] on a block at rest, the
    only resolver that can run is the one of the decimation, and it brings
    the channel into the settling state for [d = coerce_decim v]. *)
Lemma decim_first_step (r : resolver) (chan' : nat) (c' : chan_props) :
  In r (resolvers gfw) -> chans bw !! chan' = Some c' -> triggered r c' = true ->
  exists b2 c2,
    run_resolver r chan' bw = Ok b2 /\
    rate_settling gfw chan (value (samp_rate_in c0)) (value (freq c0))
      (value (freq c0)) d cd R R b2 c2 /\
    (settle_measure R c2 + freq_measure (value (freq c0)) c2 <= 8)%nat.
Proof.
  intros Hr Hc' Htr.
  destruct (triggered_at gfw b chan c0 _ r chan' c' Hres Hc0 Hr Hc' Htr) as [-> ->].
  destruct (coerce_decim_ge_1 b v d Hwf Hv Hco) as [Hmem Hd].
  destruct (chan_clean_flags c0 (resolved_lookup b chan c0 Hres Hc0))
    as [F1 [F2 [F3 [F4 [F5 [F6 [F7 F8]]]]]]].
  assert (Hc1 : chans bw !! chan = Some (with_decim c0 (mk_property v true)))
    by (eapply put_chan_lookup; eassumption).
  unfold triggered in Htr. simpl in Hr.
  destruct Hr as [<-|[<-|[<-|[<-|[<-|[<-|[<-|[<-|[<-|[]]]]]]]]]];
    cbn in Htr; rewrite ?orb_false_r in Htr; try congruence.
  clear Htr.
  set (c1 := with_decim c0 (mk_property v false)).
  assert (Hwf1 : well_formed (put_chan chan c1 b)) by (eapply wf_put_chan; eassumption).
  destruct (set_decim_member (put_chan chan c1 b) d chan Hwf1 Hmem Hd)
    as [h [cd' [Eloop [Hcd' Hset]]]].
  assert (cd' = cd) by (unfold cd; cbn in Eloop; now rewrite Eloop).
  subst cd'.
  assert (Hlen : (chan < length (residual_scaling b))%nat).
  { rewrite (wf_ports b Hwf). eapply lookup_lt_Some; eassumption. }
  eexists. eexists. split; [|split].
  - run_on Hc1. unfold bw. rewrite put_chan_twice.
    cbn [decim with_decim].
    change (with_decim (with_decim c0 (mk_property v true))
              (mark_clean (mk_property v true))) with c1.
    unfold resolve_decim.
    erewrite at_put_chan by exact Hc0. cbn [rbind].
    change (coerce_decim (put_chan chan c1 b)) with (coerce_decim b).
    change (value (decim c1)) with v. rewrite Hco. cbn [rbind].
    change (value (decim (with_decim c1 (assign_int (decim c1) d)))) with d.
    rewrite Hset. cbn [rbind]. reflexivity.
  - constructor.
    + apply (wf_put_chan chan _ c1); [|apply wf_programmed; exact Hwf1].
      cbn. apply list_lookup_insert_eq. eapply lookup_lt_Some; eassumption.
    + intros i ci Hne Hi. cbn in Hi.
      rewrite !list_lookup_insert_ne in Hi by congruence.
      eapply resolved_lookup; eassumption.
    + cbn. rewrite list_insert_insert_eq. apply list_lookup_insert_eq.
      eapply lookup_lt_Some; eassumption.
    + reflexivity.
    + exact F1.
    + reflexivity.
    + reflexivity.
    + exact Hround.
    + cbn. destruct (negb (v =? d)); apply list_lookup_insert_eq; exact Hlen.
    + cbn. intros H. split; [reflexivity|]. split; [now left|].
      apply Hback. intros ->. rewrite Z.eqb_refl in H. discriminate.
    + now left.
    + reflexivity.
    + cbn. rewrite F6. discriminate.
    + exact F7.
    + exact F8.
    + exact Hmem.
    + reflexivity.
  - unfold settle_measure, freq_measure. cbn. rewrite F4, F6.
    destruct (negb (v =? d)), (is_dirty (samp_rate_out c0) || _); cbn; lia.
Qed.

(** The resolution that follows an external write of the decimation. *)
Lemma decim_resolution (fuel : nat) :
  (9 <= fuel)%nat ->
  (exists b' c',
     set_property gfw fuel DECIM (VInt v) chan b = Ok b' /\ resolved b' /\
     chans b' !! chan = Some c' /\ value (decim c') = d /\
     value (samp_rate_in c') = value (samp_rate_in c0) /\
     value (samp_rate_out c') =
       ddiv (value (samp_rate_in c0)) (double_of_int d)) /\
  (forall b1 b',
     write_property DECIM (VInt v) chan b = Ok b1 -> resolves_to gfw b1 b' ->
     exists c',
       chans b' !! chan = Some c' /\ value (decim c') = d /\
       value (samp_rate_in c') = value (samp_rate_in c0) /\
       value (samp_rate_out c') =
         ddiv (value (samp_rate_in c0)) (double_of_int d)).
Proof.
  intros Hfuel.
  destruct (coerce_decim_ge_1 b v d Hwf Hv Hco) as [_ Hd].
  destruct (settle_after_write gfw chan _ _ _ d cd R R Hd bw 8
              decim_written_dirty decim_first_step) as [Hrun Hany].
  split.
  - destruct (Hrun fuel ltac:(lia)) as [b' [c' [Hb' [S Hrest]]]].
    destruct (settled_result gfw chan _ _ _ d cd R R b' c' S Hrest)
      as [H1 [H2 [H3 [H4 _]]]].
    exists b', c'. unfold set_property. rewrite write_decim_eq. cbn [rbind].
    auto 10.
  - intros b1 b' Hw [Hsteps Hrest]. rewrite write_decim_eq in Hw.
    apply Ok_inj in Hw. subst b1.
    destruct (Hany b' Hsteps Hrest) as [c' S].
    destruct (settled_result gfw chan _ _ _ d cd R R b' c' S Hrest)
      as [H1 [H2 [H3 [H4 _]]]].
    exists c'. auto.
Qed.

End DecimSet.

(** *** Setting the decimation and the output rate *)

Lemma last_In {A : Type} (l : list A) (x : A) : l <> [] -> In (List.last l x) l.
Proof.
  induction l as [|y l IH]; [congruence|]. intros _.
  destruct l as [|z l]; [now left|]. right. apply IH. discriminate.
Qed.

Lemma last_map {A B : Type} (f : A -> B) (l : list A) (x : A) :
  List.last (map f l) (f x) = f (List.last l x).
Proof.
  induction l as [|y l IH]; [reflexivity|].
  destruct l as [|z l]; [reflexivity|]. exact IH.
Qed.

Lemma sorted_last_max (l : list Z) (x m : Z) :
  StronglySorted Z.lt l -> In m l -> m <= List.last l x.
Proof.
  induction 1 as [|y l Hs IH Hall]; intros Hm; [destruct Hm|].
  destruct l as [|z l].
  - destruct Hm as [<-|[]]. reflexivity.
  - change (List.last (y :: z :: l) x) with (List.last (z :: l) x).
    destruct Hm as [<-|Hm]; [|now apply IH].
    rewrite List.Forall_forall in Hall.
    assert (Hz : In (List.last (z :: l) x) (z :: l)) by (apply last_In; discriminate).
    apply Hall in Hz. lia.
Qed.

(** [coerce_decim] at plus infinity: the largest valid decimation. *)
Lemma coerce_decim_double_inf (b : ddc) :
  well_formed b ->
  exists dmax,
    coerce_decim_double b (S754_infinity false) = Ok dmax /\
    In dmax (build_decims (num_halfbands b) (cic_max_decim b)) /\
    forall m, In m (build_decims (num_halfbands b) (cic_max_decim b)) -> m <= dmax.
Proof.
  intros Hwf.
  set (decims := build_decims (num_halfbands b) (cic_max_decim b)).
  assert (Hne : decims <> []) by apply build_decims_nonempty.
  exists (List.last decims (List.hd 0 decims)).
  assert (Hin : In (List.last decims (List.hd 0 decims)) decims) by now apply last_In.
  split; [|split; [exact Hin|]].
  - unfold coerce_decim_double. cbn [double_value].
    change (dltb dzero (S754_infinity false)) with true. cbn [negb].
    rewrite (wf_decims b Hwf). fold decims. unfold make_valid_decims.
    destruct decims as [|z l] eqn:E; [congruence|]. cbn [map].
    change (inject_Z z :: map inject_Z l) with (map inject_Z (z :: l)).
    rewrite last_map. apply static_cast_int_inject_Z.
    apply (decims_fit_int_In _ _ _ (wf_fit b Hwf)). fold decims. rewrite E.
    apply last_In. discriminate.
  - intros m Hm. apply sorted_last_max; [apply build_decims_sorted|exact Hm].
Qed.

(** Whatever double [coerce_decim] returns for is coerced to a valid
    decimation. *)
Lemma coerce_decim_double_member (b : ddc) (x : double) (d : Z) :
  well_formed b -> coerce_decim_double b x = Ok d ->
  In d (build_decims (num_halfbands b) (cic_max_decim b)).
Proof.
  intros Hwf Hco. unfold coerce_decim_double in Hco.
  destruct (double_value x) as [r|] eqn:Ev.
  - eapply coerce_decim_Ok_member; eassumption.
  - destruct x as [s|[|]| |s m e]; try discriminate.
    destruct (coerce_decim_double_inf b Hwf) as [dmax [H1 [H2 _]]].
    unfold coerce_decim_double in H1. cbn [double_value] in H1.
    rewrite Hco in H1. apply Ok_inj in H1. now subst dmax.
Qed.


(** What the resolver of the decimation does when it returns. *)
Lemma resolve_decim_inv (b b' : ddc) (chan : nat) (c : chan_props) :
  chans b !! chan = Some c ->
  run_resolver
    (mk_resolver [DECIM] [DECIM; SAMP_RATE_OUT; SCALING_IN] resolve_decim) chan b
    = Ok b' ->
  exists c',
    chans b' !! chan = Some c' /\
    coerce_decim b (inject_Z (value (decim c))) = Ok (value (decim c')) /\
    samp_rate_in c' = samp_rate_in c /\
    value (samp_rate_out c') =
      ddiv (value (samp_rate_in c)) (double_of_int (value (decim c'))) /\
    is_dirty (scaling_in c') = true.
Proof.
  intros Hc Hrun. unfold run_resolver in Hrun.
  rewrite (at_Some _ _ _ Hc) in Hrun.
  cbn [rbind inputs body fold_right prop_mark_clean] in Hrun.
  unfold resolve_decim in Hrun.
  erewrite at_put_chan in Hrun by exact Hc. cbn [rbind] in Hrun.
  inv_ok Hrun. apply Ok_inj in Hrun. subst b'.
  change (coerce_decim (put_chan chan _ b)) with (coerce_decim b) in E.
  apply set_decim_frame in E0. destruct E0 as [Hch _].
  eexists. split.
  - cbn. rewrite Hch. cbn. rewrite list_insert_insert_eq.
    apply list_lookup_insert_eq. eapply lookup_lt_Some; eassumption.
  - cbn. repeat split. exact E.
Qed.

Lemma ddc_decim_reached :
  set_property example_freq_word 10 DECIM (VInt 3) 0 ddc_3_16 = Ok ddc_decim_3 /\
  set_property example_freq_word 10 DECIM (VInt 4) 0 ddc_3_16 = Ok ddc_decim_4.
Proof. split; vm_compute; reflexivity. Qed.

Lemma ddc_rate_2e8_reached :
  set_property example_freq_word 10 SAMP_RATE_OUT
    (VRate (double_of_int 200000000)) 0 ddc_3_16 = Ok ddc_out_2e8 /\
  set_property example_freq_word 10 SAMP_RATE_IN
    (VRate (double_of_int 200000000)) 0 ddc_out_2e8 = Ok ddc_rate_2e8.
Proof. split; vm_compute; reflexivity. Qed.

Section Claims.

Variable gfw : Q -> double -> result (Q * Z).


End Claims.



(** C3, at the input that breaks it.  On the block with 3 halfbands and a
    maximal CIC decimation of 16, at rest with both rates at 2e8 and the
    decimation at 1: [coerce_decim 11] is 11, and the external set of the
    decimation to 11 ends with the decimation at 10 and the input rate at
    181818181.81818184.  The resolver of the decimation stores the output
    rate 2e8 / 11 = 18181818.181818184; the resolver of the output rate
    divides 2e8 by it, truncates the quotient 10.999999999999998 to 10,
    stores the decimation 10 and the input rate 18181818.181818184 * 10. *)
Theorem decim_set_input_rate_drifts :
  reachable example_freq_word ddc_rate_2e8 /\ resolved ddc_rate_2e8 /\
  (exists c0,
     chans ddc_rate_2e8 !! 0%nat = Some c0 /\
     value (samp_rate_in c0) = double_of_int 200000000 /\
     value (samp_rate_out c0) = double_of_int 200000000 /\
     value (decim c0) = 1 /\
     double_value (ddiv (value (samp_rate_in c0)) (double_of_int 11))
       = Some (4880644654545455 # 268435456) /\
     double_value
       (ddiv (value (samp_rate_in c0))
          (ddiv (value (samp_rate_in c0)) (double_of_int 11)))
       = Some (6192449487634431 # 562949953421312)) /\
  coerce_decim ddc_rate_2e8 (inject_Z 11) = Ok 11 /\
  set_property example_freq_word 10 DECIM (VInt 11) 0 ddc_rate_2e8
    = Ok ddc_rate_2e8_decim_11 /\
  resolved ddc_rate_2e8_decim_11 /\
  exists c',
    chans ddc_rate_2e8_decim_11 !! 0%nat = Some c' /\
    value (decim c') = 10 /\
    double_value (value (samp_rate_in c')) = Some (6100805818181819 # 33554432) /\
    double_value (value (samp_rate_out c')) = Some (4880644654545455 # 268435456).
Proof.
  split; [|split; [|split; [|split; [|split; [|split]]]]].
  - destruct ddc_rate_2e8_reached as [H1 H2].
    assert (H0 : reachable example_freq_word ddc_3_16)
      by (apply reachable_make with (hw := hw_3_16); reflexivity).
    destruct (set_property_reachable example_freq_word _ _ _ _ _ _ H0 H1) as [R1 _].
    exact (proj1 (set_property_reachable example_freq_word _ _ _ _ _ _ R1 H2)).
  - repeat constructor; intros []; reflexivity.
  - eexists. split; [reflexivity|]. split; [reflexivity|]. split; [reflexivity|].
    split; [reflexivity|]. split; reflexivity.
  - vm_compute. reflexivity.
  - vm_compute. reflexivity.
  - repeat constructor; intros []; reflexivity.
  - eexists. split; [reflexivity|]. split; [reflexivity|]. split; reflexivity.
Qed.

(** X28. After an external set of the decimation of a channel to [v >= 1],
    on a block at rest, with [d] the decimation [coerce_decim] gives for
    [v]: when the quotient of the input rate by [input rate / d], truncated,
    is coerced back to [d], and [input rate / d] times [d] is the input rate
    again in case [d] is not [v], resolution ends within nine resolver
    executions, and however the engine orders the resolvers, the block at
    rest has the decimation [d], the input rate it had and the output rate
    [input rate / d]. *)
Theorem decim_set_settles
  (gfw : Q -> double -> result (Q * Z)) (fuel : nat) (b : ddc) (chan : nat)
  (c0 : chan_props) (v d : Z) :
  well_formed b -> resolved b -> chans b !! chan = Some c0 ->
  let rate_in := value (samp_rate_in c0) in
  1 <= v -> coerce_decim b (inject_Z v) = Ok d ->
  (exists t,
     int_of_double (ddiv rate_in (ddiv rate_in (double_of_int d))) = Ok t /\
     coerce_decim b (inject_Z t) = Ok d) ->
  (v <> d -> dmul (ddiv rate_in (double_of_int d)) (double_of_int d) = rate_in) ->
  (9 <= fuel)%nat ->
  (exists b' c',
     set_property gfw fuel DECIM (VInt v) chan b = Ok b' /\ resolved b' /\
     chans b' !! chan = Some c' /\ value (decim c') = d /\
     value (samp_rate_in c') = rate_in /\
     value (samp_rate_out c') = ddiv rate_in (double_of_int d)) /\
  (forall b1 b',
     write_property DECIM (VInt v) chan b = Ok b1 -> resolves_to gfw b1 b' ->
     exists c',
       chans b' !! chan = Some c' /\ value (decim c') = d /\
       value (samp_rate_in c') = rate_in /\
       value (samp_rate_out c') = ddiv rate_in (double_of_int d)).
Proof.
  intros Hwf Hres Hc0 rate_in Hv Hco Hround Hback Hfuel.
  exact (decim_resolution gfw b chan c0 v d Hwf Hres Hc0 Hv Hco Hround Hback
           fuel Hfuel).
Qed.

Lemma decim_set_settles_witness :
  exists b' c',
    set_property example_freq_word 10 DECIM (VInt 41) 0 ddc_3_16 = Ok b' /\
    chans b' !! 0%nat = Some c' /\ value (decim c') = 40 /\
    value (samp_rate_in c') = double_of_int 1000000000 /\
    value (samp_rate_out c') = double_of_int 25000000.
Proof.
  destruct (decim_set_settles example_freq_word 10 ddc_3_16 0 default_chan_props
              41 40)
    as [[b' [c' [Hset [_ [Hc' [Hdec [Hin Hout]]]]]]] _].
  - constructor; try reflexivity; simpl; lia.
  - repeat constructor; intros []; reflexivity.
  - reflexivity.
  - lia.
  - vm_compute. reflexivity.
  - exists 40. split; vm_compute; reflexivity.
  - intros _. vm_compute. reflexivity.
  - lia.
  - exists b', c'. split; [exact Hset|]. split; [exact Hc'|]. split; [exact Hdec|].
    split; [exact Hin|]. rewrite Hout. vm_compute. reflexivity.
Defined.
End DDCFacts.

(** ** USRP2 motherboard: what the two methods read and write *)

Module USRP2Behaviour.
Import USRP2.

Section Get.

Variable env : collaborators.

Lemma mboard_get_cases (key_ : key_t) (s : usrp2_impl) :
  (address_key (fst (extract_named_prop key_)) = false /\
   snd (mboard_get env key_ s) = s) \/
  (fst (extract_named_prop key_) = key_string "mac-addr" /\
   snd (mboard_get env key_ s) =
     sent (mk_ctrl_data USRP2_CTRL_ID_GIVE_ME_YOUR_MAC_ADDR_BRO [] 0) s) \/
  (fst (extract_named_prop key_) = key_string "ip-addr" /\
   snd (mboard_get env key_ s) =
     sent (mk_ctrl_data USRP2_CTRL_ID_GIVE_ME_YOUR_IP_ADDR_BRO [] 0) s).
Proof.
  unfold mboard_get. destruct (extract_named_prop key_) as [key name]. cbn [fst].
  destruct key as [k|p|].
  - destruct (String.eqb k "mac-addr") eqn:E1.
    + apply String.eqb_eq in E1. subst k. right. left. split; [reflexivity|].
      unfold bind, ctrl_send_and_recv, sent. cbn.
      destruct (id (device_reply env _)); reflexivity.
    + destruct (String.eqb k "ip-addr") eqn:E2.
      * apply String.eqb_eq in E2. subst k. right. right. split; [reflexivity|].
        unfold bind, ctrl_send_and_recv, sent. cbn.
        destruct (id (device_reply env _)); reflexivity.
      * left. cbn. rewrite E1, E2. split; reflexivity.
  - left. split; [reflexivity|].
    destruct p; cbn; try reflexivity;
      unfold get_link, bind, assert_throw, lift, ret, throw;
      match goal with
      | |- context [has_key ?d ?n] => destruct (has_key d n); cbn; [destruct (dict_get d n)|]
      end; reflexivity.
  - left. split; reflexivity.
Qed.

(** X20. [mboard_get] reads: whatever the key, it leaves the dictionaries,
    the clock configuration and the registers alone; for a key other than
    the strings "mac-addr" and "ip-addr" the object is unchanged, for these
    two exactly one request is sent. *)
Theorem mboard_get_reads (key_ : key_t) (s : usrp2_impl) :
  let s' := snd (mboard_get env key_ s) in
  same_dicts s s' /\ _clock_config s' = _clock_config s /\ poked s' = poked s /\
  (address_key (fst (extract_named_prop key_)) = false -> s' = s) /\
  (fst (extract_named_prop key_) = key_string "mac-addr" ->
   ctrl_sent s' =
     ctrl_sent s ++ [mk_ctrl_data USRP2_CTRL_ID_GIVE_ME_YOUR_MAC_ADDR_BRO [] 0]) /\
  (fst (extract_named_prop key_) = key_string "ip-addr" ->
   ctrl_sent s' =
     ctrl_sent s ++ [mk_ctrl_data USRP2_CTRL_ID_GIVE_ME_YOUR_IP_ADDR_BRO [] 0]).
Proof.
  intros s'. subst s'.
  destruct (mboard_get_cases key_ s) as [[Hk ->]|[[Hk ->]|[Hk ->]]].
  - unfold same_dicts. repeat split; auto.
    all: intros H; rewrite H in Hk; discriminate Hk.
  - rewrite Hk. unfold same_dicts. cbn. repeat split; auto; discriminate.
  - rewrite Hk. unfold same_dicts. cbn. repeat split; auto; discriminate.
Qed.

End Get.

Section SetProps.

Variable env : collaborators.

Lemma update_clock_config_cases (s : usrp2_impl) :
  (exists flags, update_clock_config env s =
                   (Ok tt, poked_with [(FR_TIME64_FLAGS, wrap 32 flags)] s)) \/
  (exists e, update_clock_config env s = (Err e, s) /\ e <> bad_cast).
Proof.
  unfold update_clock_config, bind, get_state, ret, throw, poke, poked_with.
  destruct (pps_source (_clock_config s)); cbn;
    destruct (pps_polarity (_clock_config s)); cbn; eauto;
    right; eexists; (split; [reflexivity|discriminate]).
Qed.

Ltac frame_solve :=
  solve [unfold same_dicts; cbn; repeat split; auto; try discriminate; try congruence].

Lemma mboard_set_clock_config_eq (c : clock_config_t) (s : usrp2_impl) :
  mboard_set env (plain (key_prop MBOARD_PROP_CLOCK_CONFIG)) (val_clock_config c) s =
  update_clock_config env (with_clock_config c s).
Proof. reflexivity. Qed.

(** X21. What [mboard_set] can change, whatever the key and the value: never
    a dictionary; nothing at all when it raises for a value or key of the
    wrong type; a packet is sent only for the plain string keys "mac-addr"
    and "ip-addr", the clock configuration changes only for
    [MBOARD_PROP_CLOCK_CONFIG], registers are written only for the clock
    configuration and the two time properties. *)
Theorem mboard_set_changes (key : key_t) (val : val_t) (s : usrp2_impl) :
  let r := fst (mboard_set env key val s) in
  let s' := snd (mboard_set env key val s) in
  same_dicts s s' /\
  (r = Err bad_cast -> s' = s) /\
  (is_plain_address key = false -> ctrl_sent s' = ctrl_sent s) /\
  (is_plain_prop key MBOARD_PROP_CLOCK_CONFIG = false ->
   _clock_config s' = _clock_config s) /\
  (is_plain_prop key MBOARD_PROP_CLOCK_CONFIG = false ->
   is_plain_prop key MBOARD_PROP_TIME_NOW = false ->
   is_plain_prop key MBOARD_PROP_TIME_NEXT_PPS = false ->
   poked s' = poked s).
Proof.
  cbv zeta. destruct key as [[k|p|]|k name].
  - unfold mboard_set. cbn -[String.eqb].
    destruct (String.eqb k "mac-addr") eqn:E1.
    + apply String.eqb_eq in E1. subst k.
      unfold bind, lift, ctrl_send_and_recv, assert_throw, ret, throw.
      destruct val; cbn; try frame_solve.
      destruct (mac_addr_from_string env s0) as [a|e]; cbn; [|frame_solve].
      destruct (id (device_reply env _)); cbn; frame_solve.
    + destruct (String.eqb k "ip-addr") eqn:E2.
      * apply String.eqb_eq in E2. subst k.
        unfold bind, lift, ctrl_send_and_recv, assert_throw, ret, throw.
        destruct val; cbn; try frame_solve.
        destruct (ip_addr_from_string env s0) as [a|e]; cbn; [|frame_solve].
        destruct (id (device_reply env _)); cbn; frame_solve.
      * cbn. frame_solve.
  - destruct p.
    12:{ destruct val; try (cbn; frame_solve).
         rewrite mboard_set_clock_config_eq.
         destruct (update_clock_config_cases (with_clock_config c s))
           as [[flags ->]|[e [-> He]]]; unfold with_clock_config; frame_solve. }
    all: destruct val; cbn; frame_solve.
  - cbn. frame_solve.
  - cbn. frame_solve.
Qed.

End SetProps.

Section Mboard.

Variable env : collaborators.

(** X22. Setting the clock configuration stores it before the flags are
    computed: a [mboard_get] afterwards returns the configuration given, also
    when the set raised.  For the handled sources and polarities the flags
    register is written once with the two flags or-ed; for an unhandled
    source or polarity the set raises a runtime error and writes no
    register. *)
Theorem clock_config_set (cfg : clock_config_t) (s : usrp2_impl) :
  let key := plain (key_prop MBOARD_PROP_CLOCK_CONFIG) in
  let r := fst (mboard_set env key (val_clock_config cfg) s) in
  let s' := snd (mboard_set env key (val_clock_config cfg) s) in
  mboard_get env key s' = (Ok (val_clock_config cfg), s') /\
  (forall source_flag polarity_flag,
     (pps_source cfg = PPS_SMA /\ source_flag = FRF_TIME64_PPS_SMA env \/
      pps_source cfg = PPS_MIMO /\ source_flag = FRF_TIME64_PPS_MIMO env) ->
     (pps_polarity cfg = PPS_POS /\ polarity_flag = FRF_TIME64_PPS_POSEDGE env \/
      pps_polarity cfg = PPS_NEG /\ polarity_flag = FRF_TIME64_PPS_NEGEDGE env) ->
     r = Ok tt /\
     s' = poked_with [(FR_TIME64_FLAGS, wrap 32 (Z.lor source_flag polarity_flag))]
            (with_clock_config cfg s)) /\
  (pps_source cfg = PPS_SOURCE_OTHER ->
   r = Err (runtime_error "usrp2: unhandled clock configuration pps source") /\
   s' = with_clock_config cfg s) /\
  (pps_source cfg <> PPS_SOURCE_OTHER -> pps_polarity cfg = PPS_POLARITY_OTHER ->
   r = Err (runtime_error "usrp2: unhandled clock configuration pps polarity") /\
   s' = with_clock_config cfg s).
Proof.
  cbv zeta. rewrite mboard_set_clock_config_eq.
  unfold update_clock_config, bind, get_state, ret, throw, poke, poked_with,
    with_clock_config.
  destruct cfg as [rs ps pp]. cbn.
  destruct ps, pp; cbn.
  all: split; [reflexivity|].
  all: split;
    [intros sf pf [[H1 ->]|[H1 ->]] [[H2 ->]|[H2 ->]]; try discriminate;
     split; reflexivity|].
  all: split;
    [intros H; try discriminate; split; reflexivity
    |intros H1 H2; try discriminate; try congruence; split; reflexivity].
Qed.

(** [has_key], [get_keys] and the lookup of a dictionary agree. *)
Lemma dict_get_has_key (d : list (string * link_t)) (k : string) :
  (has_key d k = true <-> In k (get_keys d)) /\
  (has_key d k = true -> exists l, dict_get d k = Ok l /\ In (k, l) d).
Proof.
  unfold has_key, get_keys, dict_get. induction d as [|[k' l'] d [IH1 IH2]]; cbn.
  - split; [split; [discriminate|tauto]|discriminate].
  - destruct (String.eqb k' k) eqn:E; cbn.
    + apply String.eqb_eq in E. subst k'. split; [tauto|]. intros _. eauto.
    + apply String.eqb_neq in E. split.
      * rewrite IH1. split; [tauto|]. intros [H|H]; [congruence|exact H].
      * intros H. destruct (IH2 H) as [l [Hl Hin]]. eauto.
Qed.

(** X23. The links to the sub-objects: every name that a [*_NAMES] property
    lists is accepted by the property that gives the link, which returns the
    link stored under that name; any other name fails the assertion and
    leaves the object unchanged; a key without a name stands for the empty
    name. *)
Theorem mboard_get_links (name : string) (s : usrp2_impl)
  (link names : mboard_prop_t) (d : list (string * link_t)) :
  In (link, names, d)
    [ (MBOARD_PROP_RX_DBOARD, MBOARD_PROP_RX_DBOARD_NAMES, _rx_dboards s);
      (MBOARD_PROP_TX_DBOARD, MBOARD_PROP_TX_DBOARD_NAMES, _tx_dboards s);
      (MBOARD_PROP_RX_DSP, MBOARD_PROP_RX_DSP_NAMES, _rx_dsps s);
      (MBOARD_PROP_TX_DSP, MBOARD_PROP_TX_DSP_NAMES, _tx_dsps s) ] ->
  mboard_get env (plain (key_prop names)) s = (Ok (val_names (map fst d)), s) /\
  (In name (map fst d) ->
   exists l, mboard_get env (named (key_prop link) name) s = (Ok (val_link l), s) /\
             In (name, l) d) /\
  (~ In name (map fst d) ->
   mboard_get env (named (key_prop link) name) s = (Err assertion_error, s)) /\
  mboard_get env (plain (key_prop link)) s =
    mboard_get env (named (key_prop link) EmptyString) s.
Proof.
  intros Hin. destruct (dict_get_has_key d name) as [Hk Hg].
  assert (Hget : mboard_get env (named (key_prop link) name) s = get_link d name s).
  { cbn in Hin. destruct Hin as [H|[H|[H|[H|[]]]]]; injection H as <- <- <-; reflexivity. }
  split; [|split; [|split]].
  - cbn in Hin. destruct Hin as [H|[H|[H|[H|[]]]]]; injection H as <- <- <-; reflexivity.
  - intros Hn. apply Hk in Hn. destruct (Hg Hn) as [l [Hl Hm]]. exists l.
    split; [|exact Hm]. rewrite Hget. unfold get_link, bind, assert_throw, lift, ret.
    rewrite Hn. cbn. now rewrite Hl.
  - intros Hn. rewrite Hget. unfold get_link, bind, assert_throw, throw.
    destruct (has_key d name) eqn:E; [|reflexivity].
    exfalso. apply Hn. apply Hk. reflexivity.
  - cbn in Hin. destruct Hin as [H|[H|[H|[H|[]]]]]; injection H as <- <- <-; reflexivity.
Qed.

End Mboard.

Lemma mboard_get_links_witness :
  mboard_get example_env (named (key_prop MBOARD_PROP_RX_DSP) "ddc0") example_impl =
    (Ok (val_link 3), example_impl) /\
  mboard_get example_env (named (key_prop MBOARD_PROP_RX_DSP) "ddc1") example_impl =
    (Err assertion_error, example_impl).
Proof.
  split.
  - destruct (mboard_get_links example_env "ddc0" example_impl MBOARD_PROP_RX_DSP
                MBOARD_PROP_RX_DSP_NAMES (_rx_dsps example_impl)) as [_ [H _]].
    + cbn. tauto.
    + destruct H as [l [Hl Hin]]; [cbn; tauto|].
      cbn in Hin. destruct Hin as [Hin|[]]. injection Hin as <-. exact Hl.
  - destruct (mboard_get_links example_env "ddc1" example_impl MBOARD_PROP_RX_DSP
                MBOARD_PROP_RX_DSP_NAMES (_rx_dsps example_impl)) as [_ [_ [H _]]].
    + cbn. tauto.
    + apply H. cbn. intros [E|[]]. discriminate E.
Defined.


Lemma dict_get_set_eq (d : list (string * link_t)) (k : string) (v : link_t) :
  dict_get (dict_set d k v) k = Ok v.
Proof.
  unfold dict_set, dict_get, has_key.
  destruct (existsb (fun e => String.eqb (fst e) k) d) eqn:Ex.
  - induction d as [|[k1 l1] d IH]; cbn in *; [discriminate|].
    destruct (String.eqb k1 k) eqn:E; cbn.
    + now rewrite String.eqb_refl.
    + rewrite E. apply IH. exact Ex.
  - induction d as [|[k1 l1] d IH]; cbn in *.
    + now rewrite String.eqb_refl.
    + destruct (String.eqb k1 k) eqn:E; [discriminate|]. apply IH. exact Ex.
Qed.

Lemma dict_get_set_ne (d : list (string * link_t)) (k k' : string) (v : link_t) :
  k <> k' -> dict_get (dict_set d k v) k' = dict_get d k'.
Proof.
  intros Hne. apply String.eqb_neq in Hne.
  unfold dict_set, dict_get, has_key.
  destruct (existsb (fun e => String.eqb (fst e) k) d) eqn:Ex.
  - clear Ex. induction d as [|[k1 l1] d IH]; cbn; [reflexivity|].
    destruct (String.eqb k1 k) eqn:E; cbn.
    + apply String.eqb_eq in E. subst k1. rewrite Hne. exact IH.
    + destruct (String.eqb k1 k'); [reflexivity|exact IH].
  - clear Ex. induction d as [|[k1 l1] d IH]; cbn.
    + now rewrite Hne.
    + destruct (String.eqb k1 k'); [reflexivity|exact IH].
Qed.

Section Others.

Variable env : collaborators.

(** X24. The names [MBOARD_PROP_OTHERS] lists are the string keys
    [mboard_get] handles, each by sending one request; any other string key,
    and a key that is neither a string nor a property, is refused as a key of
    the wrong type before anything happens, by both methods.  [mboard_set]
    does not unwrap a [named_prop_t]: it refuses a named string key. *)
Theorem mboard_others_handled (k name : string) (val : val_t) (s : usrp2_impl) :
  mboard_get env (plain (key_prop MBOARD_PROP_OTHERS)) s =
    (Ok (val_names ["mac-addr"; "ip-addr"]%string), s) /\
  (In k ["mac-addr"; "ip-addr"]%string ->
   fst (mboard_get env (plain (key_string k)) s) <> Err bad_cast /\
   length (ctrl_sent (snd (mboard_get env (plain (key_string k)) s))) =
     S (length (ctrl_sent s))) /\
  (~ In k ["mac-addr"; "ip-addr"]%string ->
   mboard_get env (plain (key_string k)) s = (Err bad_cast, s) /\
   mboard_get env (named (key_string k) name) s = (Err bad_cast, s) /\
   mboard_set env (plain (key_string k)) val s = (Err bad_cast, s)) /\
  mboard_set env (named (key_string k) name) val s = (Err bad_cast, s) /\
  mboard_get env (plain key_other) s = (Err bad_cast, s) /\
  mboard_set env (plain key_other) val s = (Err bad_cast, s).
Proof.
  split; [reflexivity|]. split; [|split; [|repeat split]].
  - intros [<-|[<-|[]]]; unfold mboard_get; cbn;
      unfold bind, ctrl_send_and_recv, assert_throw, ret, throw; cbn;
      destruct (id (device_reply env _)); cbn;
      (split; [discriminate|]); rewrite length_app; cbn; lia.
  - intros Hk.
    assert (E1 : String.eqb k "mac-addr" = false).
    { apply String.eqb_neq. intros ->. apply Hk. cbn. tauto. }
    assert (E2 : String.eqb k "ip-addr" = false).
    { apply String.eqb_neq. intros ->. apply Hk. cbn. tauto. }
    unfold mboard_get, mboard_set. cbn -[String.eqb]. rewrite E1, E2.
    repeat split; reflexivity.
Qed.

(** X25. Setting an address: a value that is no string, or a string that is
    no address, never reaches the device; an address is sent once, and the
    set returns or fails its assertion according to the id of the answer. *)
Theorem mboard_set_address (val : val_t) (s : usrp2_impl) :
  let set_mac := mboard_set env (plain (key_string "mac-addr")) val s in
  let set_ip := mboard_set env (plain (key_string "ip-addr")) val s in
  (forall e, as_string val = Err e -> set_mac = (Err e, s) /\ set_ip = (Err e, s)) /\
  (forall str, val = val_string str ->
     (forall e, mac_addr_from_string env str = Err e -> set_mac = (Err e, s)) /\
     (forall e, ip_addr_from_string env str = Err e -> set_ip = (Err e, s)) /\
     (forall addr, mac_addr_from_string env str = Ok addr ->
        let pkt := mk_ctrl_data USRP2_CTRL_ID_HERE_IS_A_NEW_MAC_ADDR_BRO addr 0 in
        snd set_mac = sent pkt s /\
        (fst set_mac = Ok tt <->
         id (device_reply env pkt) = USRP2_CTRL_ID_THIS_IS_MY_MAC_ADDR_DUDE) /\
        (fst set_mac = Err assertion_error <->
         id (device_reply env pkt) <> USRP2_CTRL_ID_THIS_IS_MY_MAC_ADDR_DUDE)) /\
     (forall addr, ip_addr_from_string env str = Ok addr ->
        let pkt := mk_ctrl_data USRP2_CTRL_ID_HERE_IS_A_NEW_IP_ADDR_BRO [] addr in
        snd set_ip = sent pkt s /\
        (fst set_ip = Ok tt <->
         id (device_reply env pkt) = USRP2_CTRL_ID_THIS_IS_MY_IP_ADDR_DUDE) /\
        (fst set_ip = Err assertion_error <->
         id (device_reply env pkt) <> USRP2_CTRL_ID_THIS_IS_MY_IP_ADDR_DUDE))).
Proof.
  cbv zeta. unfold mboard_set. cbn.
  unfold bind, lift, ctrl_send_and_recv, assert_throw, ret, throw, sent.
  split.
  - intros e He. destruct val; cbn in He; try discriminate He;
      apply (f_equal (fun r => match r with Err e => e | Ok _ => e end)) in He;
      cbn in He; subst e; split; reflexivity.
  - intros str ->. cbn. split; [|split; [|split]].
    + intros e ->. reflexivity.
    + intros e ->. reflexivity.
    + intros addr ->. cbn. destruct (id (device_reply env _)); cbn;
        repeat split; try reflexivity; try discriminate; try congruence.
    + intros addr ->. cbn. destruct (id (device_reply env _)); cbn;
        repeat split; try reflexivity; try discriminate; try congruence.
Qed.

(** X26. Setting the time writes the seconds, the ticks and the latch flag,
    in this order; only the flag tells [MBOARD_PROP_TIME_NOW] from
    [MBOARD_PROP_TIME_NEXT_PPS]; a value that is no time spec is refused
    before any register is written.  [mboard_init] latches the time at once
    with the same three writes, and registers the proxy under the empty name,
    leaving the other entries of [_mboards] as they are. *)
Theorem time_is_latched (t : time_spec_t) (proxy : link_t) (val : val_t)
  (s : usrp2_impl) :
  let latch flag :=
    [(FR_TIME64_SECS, wrap 32 (secs t)); (FR_TIME64_TICKS, wrap 32 (ticks t));
     (FR_TIME64_IMM, wrap 32 flag)] in
  mboard_set env (plain (key_prop MBOARD_PROP_TIME_NOW)) (val_time_spec t) s =
    (Ok tt, poked_with (latch (FRF_TIME64_LATCH_NOW env)) s) /\
  mboard_set env (plain (key_prop MBOARD_PROP_TIME_NEXT_PPS)) (val_time_spec t) s =
    (Ok tt, poked_with (latch (FRF_TIME64_LATCH_NEXT_PPS env)) s) /\
  (as_time_spec val = Err bad_cast ->
   mboard_set env (plain (key_prop MBOARD_PROP_TIME_NOW)) val s = (Err bad_cast, s) /\
   mboard_set env (plain (key_prop MBOARD_PROP_TIME_NEXT_PPS)) val s =
     (Err bad_cast, s)) /\
  fst (mboard_init env proxy t s) = Ok tt /\
  poked (snd (mboard_init env proxy t s)) = poked s ++ latch (FRF_TIME64_LATCH_NOW env) /\
  dict_get (_mboards (snd (mboard_init env proxy t s))) EmptyString = Ok proxy /\
  (forall k, k <> EmptyString ->
     dict_get (_mboards (snd (mboard_init env proxy t s))) k = dict_get (_mboards s) k).
Proof.
  cbv zeta. unfold mboard_set, mboard_init, set_time_spec, bind, lift, poke, poked_with.
  cbn. rewrite <- !app_assoc. cbn.
  split; [reflexivity|]. split; [reflexivity|]. split.
  { intros H. destruct val; try discriminate H; split; reflexivity. }
  split; [reflexivity|]. split; [reflexivity|].
  split; [apply dict_get_set_eq|]. intros k Hk. apply dict_get_set_ne. congruence.
Qed.

End Others.

End USRP2Behaviour.

(** ** The DDC block: construction, registers, resolvers and commands *)

Module DDCBehaviour.
Import DDC DDCFacts.

(** *** Construction *)

Lemma shl1_product (hb c : Z) :
  0 <= hb <= 30 -> 0 <= c <= 2 ^ 32 -> wrap 64 (int_shl1 hb * c) = 2 ^ hb * c.
Proof.
  intros Hhb Hc. unfold int_shl1. rewrite Z.shiftl_1_l.
  assert (H : 0 < 2 ^ hb <= 2 ^ 30).
  { split; [apply Z.pow_pos_nonneg; lia|apply Z.pow_le_mono_r; lia]. }
  apply wrap_small.
  change (2 ^ 64) with 18446744073709551616.
  change (2 ^ 30) with 1073741824 in H. change (2 ^ 32) with 4294967296 in Hc. nia.
Qed.

(** X1. For every configuration with 1 to 31 halfbands and a maximal CIC
    decimation of at least 1, the list the constructor builds is strictly
    increasing, and its members are exactly 1 and the products [2^hb * c]
    with [0 <= hb < N] and [0 <= c < M]: 0 is a member, and every member is
    below [2^N * M]. *)
Theorem valid_decims_built (N M : Z) :
  1 <= N <= 31 -> 1 <= M <= 2 ^ 32 ->
  StronglySorted Z.lt (build_decims N M) /\
  (forall m, In m (build_decims N M) <->
     m = 1 \/ exists hb c, 0 <= hb < N /\ 0 <= c < M /\ m = 2 ^ hb * c) /\
  In 0 (build_decims N M) /\
  (forall m, In m (build_decims N M) -> m < 2 ^ N * M).
Proof.
  intros HN HM.
  assert (Hmem : forall m, In m (build_decims N M) <->
     m = 1 \/ exists hb c, 0 <= hb < N /\ 0 <= c < M /\ m = 2 ^ hb * c).
  { intros m. rewrite build_decims_In. split.
    - intros [->|[hb [c [Hhb [Hc ->]]]]]; [now left|right].
      exists hb, c. repeat split; try lia. apply shl1_product; lia.
    - intros [->|[hb [c [Hhb [Hc ->]]]]]; [now left|right].
      exists hb, c. repeat split; try lia. symmetry. apply shl1_product; lia. }
  split; [apply build_decims_sorted|]. split; [exact Hmem|]. split.
  - apply Hmem. right. exists 0, 0. repeat split; lia.
  - intros m Hm. apply Hmem in Hm.
    assert (HpN : 2 <= 2 ^ N).
    { change 2 with (2 ^ 1) at 1. apply Z.pow_le_mono_r; lia. }
    destruct Hm as [->|[hb [c [Hhb [Hc ->]]]]]; [nia|].
    assert (Hp : 0 < 2 ^ hb <= 2 ^ N).
    { split; [apply Z.pow_pos_nonneg; lia|apply Z.pow_le_mono_r; lia]. }
    nia.
Qed.

Lemma valid_decims_built_witness :
  In 60 (build_decims 3 16) /\ ~ In (2 ^ 3 * 16) (build_decims 3 16).
Proof.
  destruct (valid_decims_built 3 16) as [_ [Hmem [_ Hmax]]].
  - lia.
  - change (2 ^ 32) with 4294967296. lia.
  - split.
    + apply Hmem. right. exists 2, 15. repeat split; lia.
    + intros H. apply Hmax in H. lia.
Defined.

Lemma decims_fit_int_24 (N M : Z) :
  0 <= N <= 24 -> 0 < M <= 255 -> decims_fit_int N M = true.
Proof.
  intros HN HM. unfold decims_fit_int. apply forallb_forall. intros d Hd.
  apply Z.leb_le. apply build_decims_In in Hd.
  destruct Hd as [->|[hb [c [Hhb [Hc ->]]]]]; [unfold INT_MAX; lia|].
  rewrite shl1_product by (change (2 ^ 32) with 4294967296; lia).
  assert (Hp : 0 < 2 ^ hb <= 2 ^ 23).
  { split; [apply Z.pow_pos_nonneg; lia|apply Z.pow_le_mono_r; lia]. }
  change (2 ^ 23) with 8388608 in Hp. unfold INT_MAX. change (2 ^ 31) with 2147483648. nia.
Qed.



(** *** Programming a decimation *)

Lemma set_decim_refused_wrapped (b : ddc) (D : Z) (chan : nat) (h c : Z) :
  halfband_loop (num_halfbands b) (Z.to_nat (num_halfbands b)) 0 (wrap 32 D) = (h, c) ->
  ~ 0 < c <= cic_max_decim b ->
  set_decim D chan b = Err assertion_error.
Proof.
  intros Hloop Hc. unfold set_decim. rewrite Hloop.
  destruct (h <=? num_halfbands b); [|reflexivity]. cbn [negb].
  destruct (0 <? c) eqn:E1; [|reflexivity].
  destruct (c <=? cic_max_decim b) eqn:E2; [|reflexivity].
  apply Z.ltb_lt in E1. apply Z.leb_le in E2. lia.
Qed.

Lemma realizable_decomposed (N M D h c : Z) :
  0 <= N < 2 ^ 32 -> 0 <= D ->
  halfband_loop N (Z.to_nat N) 0 D = (h, c) ->
  realizable N M D <-> 0 < c <= M.
Proof.
  intros HN HD Hloop.
  destruct (decompose_spec N D HN HD) as [h' [c' [E [Hh [HDc [Hc0 Hex]]]]]].
  rewrite Hloop in E. injection E as <- <-.
  assert (Hph : 0 < 2 ^ h) by (apply Z.pow_pos_nonneg; lia).
  split.
  - intros [h1 [c1 [Hh1 [Hc1 HD1]]]].
    assert (Hp1 : 0 < 2 ^ h1) by (apply Z.pow_pos_nonneg; lia).
    split; [nia|].
    destruct (Z.le_gt_cases h1 h) as [Hle|Hgt].
    + replace h with (h1 + (h - h1)) in HDc by lia.
      rewrite Z.pow_add_r in HDc by lia.
      assert (0 < 2 ^ (h - h1)) by (apply Z.pow_pos_nonneg; lia).
      assert (c1 = c * 2 ^ (h - h1)) by nia. nia.
    + exfalso. destruct Hex as [Hex|Hex]; [lia|].
      replace h1 with (h + Z.succ (h1 - h - 1)) in HD1 by lia.
      rewrite Z.pow_add_r, Z.pow_succ_r in HD1 by lia.
      assert (c = 2 * (c1 * 2 ^ (h1 - h - 1))) by nia.
      subst c. rewrite Z.mul_comm, Z.mod_mul in Hex by lia. discriminate.
  - intros Hc. exists h, c. repeat split; lia.
Qed.

(** X4. With at most 23 halfbands, [set_decim] programs an [int] exactly
    when it is [c * 2^h] for a CIC ratio [1 <= c <= cic_max_decim] and
    [0 <= h <= num_halfbands] halfbands; every other value, zero and the
    negative ones included, fails an assertion. *)
Theorem set_decim_accepts (b : ddc) (D : Z) (chan : nat) :
  0 <= num_halfbands b <= 23 -> 0 < cic_max_decim b <= 255 ->
  INT_MIN <= D <= INT_MAX ->
  (realizable (num_halfbands b) (cic_max_decim b) D ->
   exists b', set_decim D chan b = Ok b') /\
  (~ realizable (num_halfbands b) (cic_max_decim b) D ->
   set_decim D chan b = Err assertion_error).
Proof.
  intros HN HM HD. unfold INT_MIN, INT_MAX in HD.
  change (2 ^ 31) with 2147483648 in HD.
  assert (HN32 : 0 <= num_halfbands b < 2 ^ 32)
    by (change (2 ^ 32) with 4294967296; lia).
  destruct (Z.le_gt_cases 0 D) as [Hpos|Hneg].
  - destruct (halfband_loop (num_halfbands b) (Z.to_nat (num_halfbands b)) 0 D)
      as [h c] eqn:Hloop.
    pose proof (realizable_decomposed _ (cic_max_decim b) D h c HN32 Hpos Hloop) as Hiff.
    split; intros HR.
    + exists (programmed b D chan h c). apply set_decim_ok; try assumption; try lia;
        first [ now apply Hiff | change (2 ^ 32) with 4294967296; lia ].
    + eapply set_decim_refused; [|exact Hloop|].
      * change (2 ^ 32) with 4294967296. lia.
      * intros Hc. apply HR. now apply Hiff.
  - split.
    + intros [h [c [Hh [Hc HDc]]]]. exfalso.
      assert (0 < 2 ^ h) by (apply Z.pow_pos_nonneg; lia). nia.
    + intros _.
      assert (Hw : wrap 32 D = D + 2 ^ 32).
      { unfold wrap. symmetry. apply (Z.mod_unique _ _ (-1)).
        - left. change (2 ^ 32) with 4294967296. lia.
        - lia. }
      destruct (decompose_spec (num_halfbands b) (wrap 32 D)) as [h [c [E [Hh [HDc [Hc0 Hex]]]]]];
        [exact HN32|rewrite Hw; change (2 ^ 32) with 4294967296; lia|].
      eapply set_decim_refused_wrapped; [exact E|].
      intros Hc. rewrite Hw in HDc.
      assert (Hp : 0 < 2 ^ h <= 2 ^ 23).
      { split; [apply Z.pow_pos_nonneg; lia|apply Z.pow_le_mono_r; lia]. }
      change (2 ^ 23) with 8388608 in Hp. change (2 ^ 32) with 4294967296 in HDc. nia.
Qed.

Lemma set_decim_accepts_witness :
  (exists b', set_decim 128 0 ddc_3_16 = Ok b') /\
  ~ In 128 (build_decims 3 16) /\
  set_decim (-8) 0 ddc_3_16 = Err assertion_error.
Proof.
  assert (H : forall D, INT_MIN <= D <= INT_MAX ->
            (realizable 3 16 D -> exists b', set_decim D 0 ddc_3_16 = Ok b') /\
            (~ realizable 3 16 D -> set_decim D 0 ddc_3_16 = Err assertion_error)).
  { intros D HD. apply (set_decim_accepts ddc_3_16 D 0); [simpl; lia|simpl; lia|exact HD]. }
  split; [|split].
  - apply (H 128); [unfold INT_MIN, INT_MAX; lia|].
    exists 3, 16. repeat split; lia.
  - intros Hin. vm_compute in Hin. intuition discriminate.
  - apply (H (-8)); [unfold INT_MIN, INT_MAX; lia|].
    intros [h [c [Hh [Hc HD]]]].
    assert (0 < 2 ^ h) by (apply Z.pow_pos_nonneg; lia). nia.
Defined.

(** X5. [set_decim] logs its warning exactly for a decimation above 1 that
    is odd, or any decimation above 1 when the block has no halfband; it logs
    the decimation asked for. *)
Theorem set_decim_warning (b b' : ddc) (D : Z) (chan : nat) :
  0 <= num_halfbands b < 2 ^ 32 -> 0 < cic_max_decim b <= 255 ->
  0 <= D <= INT_MAX ->
  set_decim D chan b = Ok b' ->
  warnings b' =
    if (1 <? D) && ((D mod 2 =? 1) || (num_halfbands b =? 0))
    then warnings b ++ [D] else warnings b.
Proof.
  intros HN HM HD Hset. unfold INT_MAX in HD.
  assert (HD' : 0 <= D < 2 ^ 32) by (change (2 ^ 32) with 4294967296; lia).
  destruct (decompose_spec (num_halfbands b) D) as [h [c [E [Hh [HDc [Hc0 Hex]]]]]];
    [exact HN|lia|].
  destruct (Z_lt_dec 0 c) as [Hc1|Hc1];
    [destruct (Z_le_dec c (cic_max_decim b)) as [Hc2|Hc2]|].
  2,3: rewrite (set_decim_refused b D chan h c) in Hset by (auto; lia); discriminate.
  rewrite (set_decim_ok b D chan h c) in Hset by (auto; lia).
  apply Ok_inj in Hset. subst b'. cbn [programmed warnings].
  assert (Hph : 0 < 2 ^ h) by (apply Z.pow_pos_nonneg; lia).
  destruct (Z.eq_dec h 0) as [->|Hh0].
  - rewrite Z.pow_0_r, Z.mul_1_r in HDc. subst c. cbn [Z.eqb].
    rewrite andb_true_r.
    replace ((D mod 2 =? 1) || (num_halfbands b =? 0)) with true; [now rewrite andb_true_r|].
    symmetry. apply orb_true_iff. destruct Hex as [Hex|Hex].
    + right. apply Z.eqb_eq. lia.
    + left. now apply Z.eqb_eq.
  - replace (h =? 0) with false by (symmetry; apply Z.eqb_neq; lia).
    rewrite andb_false_r.
    replace (D mod 2 =? 1) with false.
    + replace (num_halfbands b =? 0) with false by (symmetry; apply Z.eqb_neq; lia).
      now rewrite andb_false_r.
    + symmetry. apply Z.eqb_neq.
      replace h with (Z.succ (h - 1)) in HDc by lia.
      rewrite Z.pow_succ_r in HDc by lia.
      replace D with ((c * 2 ^ (h - 1)) * 2) by lia.
      rewrite Z.mod_mul by lia. discriminate.
Qed.

Lemma set_decim_warning_witness :
  (exists b', set_decim 7 0 ddc_3_16 = Ok b' /\ warnings b' = [7]) /\
  (exists b', set_decim 40 0 ddc_3_16 = Ok b' /\ warnings b' = []).
Proof.
  split.
  - destruct (set_decim 7 0 ddc_3_16) as [b'|] eqn:E; [|vm_compute in E; discriminate E].
    exists b'. split; [reflexivity|].
    apply (set_decim_warning ddc_3_16 b' 7 0); [simpl; lia|simpl; lia|unfold INT_MAX; lia|exact E].
  - destruct (set_decim 40 0 ddc_3_16) as [b'|] eqn:E; [|vm_compute in E; discriminate E].
    exists b'. split; [reflexivity|].
    apply (set_decim_warning ddc_3_16 b' 40 0); [simpl; lia|simpl; lia|unfold INT_MAX; lia|exact E].
Defined.

(** *** The scale correction and the residual scaling *)

Lemma Qround_half_away_near (x : Q) :
  (Qabs (inject_Z (Qround_half_away x) - x) <= 1 # 2)%Q.
Proof.
  unfold Qround_half_away. destruct (Qle_bool 0 x).
  - pose proof (Qfloor_le (x + (1 # 2))) as H1.
    pose proof (Qlt_floor (x + (1 # 2))) as H2.
    rewrite inject_Z_plus in H2. change (inject_Z 1) with 1%Q in H2.
    qabs_cases (inject_Z (Qfloor (x + (1 # 2))) - x)%Q; lra.
  - pose proof (Qle_ceiling (x - (1 # 2))) as H1.
    pose proof (Qceiling_lt (x - (1 # 2))) as H2.
    unfold Z.sub in H2. rewrite inject_Z_plus, inject_Z_opp in H2.
    change (inject_Z 1) with 1%Q in H2.
    qabs_cases (inject_Z (Qceiling (x - (1 # 2))) - x)%Q; lra.
Qed.

Lemma iround_Ok (x : Q) (f : Z) :
  iround x = Ok f -> f = Qround_half_away x /\ INT_MIN <= f <= INT_MAX.
Proof.
  unfold iround. destruct (_ && _) eqn:E; [|discriminate].
  intros H. apply Ok_inj in H. subst f. split; [reflexivity|].
  apply andb_prop in E. destruct E as [E1 E2].
  apply Z.leb_le in E1, E2. lia.
Qed.

Lemma residual_error (g : Q) (f : Z) :
  (0 < g)%Q -> (Qabs (inject_Z f - 32768 * (1 / g)) <= 1 # 2)%Q ->
  (Qabs (g * inject_Z f / 32768 - 1) <= g / 65536)%Q.
Proof.
  intros Hg He.
  assert (E : (g * inject_Z f / 32768 - 1 == g / 32768 * (inject_Z f - 32768 * (1 / g)))%Q).
  { field. intros H0. rewrite H0 in Hg. revert Hg. apply Qlt_irrefl. }
  rewrite E, Qabs_Qmult.
  assert (Hg' : (0 <= g / 32768)%Q).
  { apply Qle_shift_div_l; [reflexivity|]. rewrite Qmult_0_l. now apply Qlt_le_weak. }
  rewrite (Qabs_pos _ Hg').
  assert (E2 : (g / 65536 == (1 # 2) * (g / 32768))%Q) by field.
  rewrite E2, (Qmult_comm (g / 32768)).
  apply Qmult_le_compat_r; assumption.
Qed.

(** X6. [update_scaling] for a gain [g > 0]: it raises a rounding error
    exactly when [g <= 65536 / (2^32 - 1)]; otherwise the factor [f] written
    to the scale register is within 1/2 of [2^15 / g], the residual scaling
    stored for the channel is [g * f / 2^15], within [g / 2^16] of 1, and the
    properties are not touched. *)
Theorem update_scaling_residual (g : Q) (chan : nat) (b : ddc) :
  (0 < g)%Q -> (chan < length (residual_scaling b))%nat ->
  (update_scaling g chan b = Err rounding_error <-> (g <= 65536 # 4294967295)%Q) /\
  (forall b', update_scaling g chan b = Ok b' ->
     exists f r,
       INT_MIN <= f <= INT_MAX /\
       (Qabs (inject_Z f - 32768 / g) <= 1 # 2)%Q /\
       regs b' = regs b ++ [(get_addr SR_SCALE_IQ_ADDR chan, wrap 32 f)] /\
       residual_scaling b' !! chan = Some r /\
       (r == g * inject_Z f / 32768)%Q /\
       (Qabs (r - 1) <= g / 65536)%Q /\
       chans b' = chans b).
Proof.
  intros Hg Hchan. unfold update_scaling.
  change FIXPOINT_SCALING with 32768%Q.
  assert (Hg0 : ~ (g == 0)%Q).
  { intros H0. rewrite H0 in Hg. revert Hg. apply Qlt_irrefl. }
  assert (Hz : Qeq_bool g 0 = false).
  { destruct (Qeq_bool g 0) eqn:Ez; [|reflexivity].
    apply Qeq_bool_eq in Ez. contradiction. }
  rewrite Hz.
  assert (Ht : (0 < 32768 * (1 / g))%Q).
  { apply Qmult_lt_0_compat; [reflexivity|].
    unfold Qdiv. rewrite Qmult_1_l. now apply Qinv_lt_0_compat. }
  split.
  - unfold iround, Qround_half_away.
    assert (Hb : Qle_bool 0 (32768 * (1 / g)) = true)
      by (apply Qle_bool_iff; now apply Qlt_le_weak).
    rewrite Hb.
    set (r := Qfloor (32768 * (1 / g) + (1 # 2))).
    assert (Hr0 : 0 <= r).
    { subst r. change 0 with (Qfloor 0). apply Qfloor_resp_le. lra. }
    assert (Hiff : INT_MAX < r <-> (g <= 65536 # 4294967295)%Q).
    { unfold INT_MAX. change (2 ^ 31 - 1) with 2147483647. split.
      - intros Hlt.
        assert (H1 : (inject_Z 2147483648 <= 32768 * (1 / g) + (1 # 2))%Q).
        { eapply Qle_trans; [|apply Qfloor_le]. rewrite <- Zle_Qle. fold r. lia. }
        assert (H2 : (g * (32768 * (1 / g)) == 32768)%Q) by (field; exact Hg0).
        assert (H3 : (g * inject_Z 2147483648 <= g * (32768 * (1 / g) + (1 # 2)))%Q).
        { apply Qmult_le_l; assumption. }
        rewrite Qmult_plus_distr_r, H2 in H3.
        change (inject_Z 2147483648) with 2147483648%Q in H3. lra.
      - intros Hle.
        assert (H2 : (g * (32768 * (1 / g)) == 32768)%Q) by (field; exact Hg0).
        assert (H1 : (inject_Z 2147483648 <= 32768 * (1 / g) + (1 # 2))%Q).
        { apply (Qmult_le_l _ _ g Hg). rewrite Qmult_plus_distr_r, H2.
          change (inject_Z 2147483648) with 2147483648%Q. lra. }
        apply Qfloor_resp_le in H1. rewrite Qfloor_Z in H1. fold r in H1. lia. }
    destruct ((INT_MIN <=? r) && (r <=? INT_MAX)) eqn:E; cbn [rbind].
    + apply andb_prop in E. destruct E as [_ E]. apply Z.leb_le in E.
      split; [discriminate|]. intros H. apply Hiff in H. lia.
    + split; [intros _|reflexivity]. apply Hiff.
      apply andb_false_iff in E. destruct E as [E|E].
      * apply Z.leb_gt in E. unfold INT_MIN in E. lia.
      * now apply Z.leb_gt in E.
  - intros b' H. destruct (iround (32768 * (1 / g))) as [f|] eqn:Hf; [|discriminate H].
    cbn [rbind] in H. apply Ok_inj in H. subst b'.
    apply iround_Ok in Hf. destruct Hf as [Hf Hrange].
    pose proof (Qround_half_away_near (32768 * (1 / g))) as Hnear. rewrite <- Hf in Hnear.
    exists f, (g * inject_Z f / 32768)%Q.
    split; [exact Hrange|]. split.
    { assert (E : (32768 / g == 32768 * (1 / g))%Q) by (field; exact Hg0).
      now rewrite E. }
    split; [reflexivity|]. split.
    { cbn. now apply list_lookup_insert_eq. }
    split; [reflexivity|]. split; [|reflexivity].
    now apply residual_error.
Qed.

Lemma update_scaling_residual_witness :
  exists b' r,
    update_scaling 2 0 ddc_3_16 = Ok b' /\
    residual_scaling b' !! 0%nat = Some r /\
    (Qabs (r - 1) <= 2 / 65536)%Q.
Proof.
  destruct (update_scaling_residual 2 0 ddc_3_16) as [_ H].
  - reflexivity.
  - simpl. lia.
  - destruct (update_scaling 2 0 ddc_3_16) as [b'|] eqn:E; [|vm_compute in E; discriminate E].
    destruct (H b' eq_refl) as [f [r [_ [_ [_ [Hres [_ [Hb _]]]]]]]].
    exists b', r. split; [reflexivity|]. split; assumption.
Defined.

Lemma total_gain_range (c : Z) :
  0 < c <= 255 -> (0 < total_gain c)%Q /\ (total_gain c <= 2)%Q.
Proof.
  intros Hc. rewrite (total_gain_exact c Hc).
  assert (Hc4 : 0 < c ^ 4) by (apply Z.pow_pos_nonneg; lia).
  assert (Hk : 0 < 2 ^ Z.log2_up (c ^ 4)).
  { apply Z.pow_pos_nonneg; [lia|apply Z.log2_up_nonneg]. }
  assert (Hle : c ^ 4 <= 2 ^ Z.log2_up (c ^ 4)).
  { apply Z.log2_up_le_pow2; [exact Hc4|lia]. }
  assert (HkQ : (0 < inject_Z (2 ^ Z.log2_up (c ^ 4)))%Q).
  { change 0%Q with (inject_Z 0). now rewrite <- Zlt_Qlt. }
  split.
  - apply Qlt_shift_div_l; [exact HkQ|]. rewrite Qmult_0_l.
    change 0%Q with (inject_Z 0). rewrite <- Zlt_Qlt. lia.
  - apply Qle_shift_div_r; [exact HkQ|].
    change 2%Q with (inject_Z 2). rewrite <- inject_Z_mult, <- Zle_Qle. lia.
Qed.

(** X7. After [set_decim] has returned, the residual scaling of its channel
    is within [2^-15] of 1, the residual scalings of the other channels and
    all properties are as before. *)
Theorem set_decim_residual (b b' : ddc) (D : Z) (chan : nat) :
  0 <= num_halfbands b < 2 ^ 32 -> 0 < cic_max_decim b <= 255 ->
  0 <= D <= INT_MAX -> (chan < length (residual_scaling b))%nat ->
  set_decim D chan b = Ok b' ->
  (exists r, residual_scaling b' !! chan = Some r /\ (Qabs (r - 1) <= 1 # 32768)%Q) /\
  (forall i, i <> chan -> residual_scaling b' !! i = residual_scaling b !! i) /\
  chans b' = chans b.
Proof.
  intros HN HM HD Hchan Hset. unfold INT_MAX in HD.
  assert (HD' : 0 <= D < 2 ^ 32) by (change (2 ^ 32) with 4294967296; lia).
  destruct (decompose_spec (num_halfbands b) D) as [h [c [E [Hh [HDc [Hc0 Hex]]]]]];
    [exact HN|lia|].
  destruct (Z_lt_dec 0 c) as [Hc1|Hc1];
    [destruct (Z_le_dec c (cic_max_decim b)) as [Hc2|Hc2]|].
  2,3: rewrite (set_decim_refused b D chan h c) in Hset by (auto; lia); discriminate.
  rewrite (set_decim_ok b D chan h c) in Hset by (auto; lia).
  apply Ok_inj in Hset. subst b'. cbn [programmed residual_scaling chans].
  split; [|split; [|reflexivity]].
  - exists (residual_of c). split; [now apply list_lookup_insert_eq|].
    destruct (total_gain_range c) as [Hg0 Hg2]; [lia|].
    pose proof (Qround_half_away_near (FIXPOINT_SCALING * (1 / total_gain c))) as Hnear.
    fold (scale_correction c) in Hnear.
    change FIXPOINT_SCALING with 32768%Q in Hnear.
    pose proof (residual_error _ _ Hg0 Hnear) as Hres.
    unfold residual_of. change FIXPOINT_SCALING with 32768%Q.
    eapply Qle_trans; [exact Hres|].
    apply Qle_shift_div_r; [reflexivity|]. lra.
  - intros i Hi. apply list_lookup_insert_ne. congruence.
Qed.

Lemma set_decim_residual_witness :
  exists b' r,
    set_decim 40 0 ddc_3_16 = Ok b' /\
    residual_scaling b' !! 0%nat = Some r /\ (Qabs (r - 1) <= 1 # 32768)%Q.
Proof.
  destruct (set_decim 40 0 ddc_3_16) as [b'|] eqn:E; [|vm_compute in E; discriminate E].
  destruct (set_decim_residual ddc_3_16 b' 40 0) as [[r [Hr Hb]] _].
  - simpl. lia.
  - simpl. lia.
  - unfold INT_MAX. lia.
  - simpl. lia.
  - exact E.
  - exists b', r. split; [reflexivity|]. split; assumption.
Defined.

(** *** Register addresses *)

Lemma wrap_32_64 (x : Z) : wrap 32 (wrap 64 x) = wrap 32 x.
Proof.
  unfold wrap. apply Z.mod_mod_divide. exists (2 ^ 32). reflexivity.
Qed.

Lemma get_addr_mod (base : Z) (chan : nat) :
  get_addr base chan = (base + 2048 * Z.of_nat chan) mod 2 ^ 32.
Proof.
  unfold get_addr, REG_CHAN_OFFSET. rewrite wrap_32_64.
  unfold wrap at 1. rewrite <- Z.add_mod_idemp_r by lia.
  fold (wrap 32 (wrap 64 (2048 * Z.of_nat chan))). rewrite wrap_32_64.
  unfold wrap. rewrite Z.add_mod_idemp_r by lia. reflexivity.
Qed.

(** X3. The register banks of the channels: for a base address below the
    bank size 2048 and a channel below [2^21], [get_addr] is
    [base + 2048 * chan], inside the bank of the channel, and two addresses
    are equal only for the same base and the same channel; the result being
    a [uint32_t], channels [2^21] apart share their addresses. *)
Theorem get_addr_banks (base base' : Z) (chan chan' : nat) :
  0 <= base < 2048 -> 0 <= base' < 2048 ->
  (get_addr base (chan + Z.to_nat (2 ^ 21)) = get_addr base chan) /\
  (Z.of_nat chan < 2 ^ 21 -> Z.of_nat chan' < 2 ^ 21 ->
   get_addr base chan = base + 2048 * Z.of_nat chan /\
   2048 * Z.of_nat chan <= get_addr base chan < 2048 * (Z.of_nat chan + 1) /\
   (get_addr base chan = get_addr base' chan' -> base = base' /\ chan = chan')).
Proof.
  intros Hb Hb'. split.
  - rewrite !get_addr_mod.
    replace (base + 2048 * Z.of_nat (chan + Z.to_nat (2 ^ 21)))
      with (base + 2048 * Z.of_nat chan + 1 * 2 ^ 32)
      by (rewrite Nat2Z.inj_add, Z2Nat.id by lia;
          change (2 ^ 32) with 4294967296; change (2 ^ 21) with 2097152; lia).
    apply Z.mod_add. lia.
  - intros Hc Hc'. change (2 ^ 21) with 2097152 in Hc, Hc'.
    assert (E : forall a k, 0 <= a < 2048 -> Z.of_nat k < 2097152 ->
                get_addr a k = a + 2048 * Z.of_nat k).
    { intros a k Ha Hk. rewrite get_addr_mod. apply Z.mod_small.
      change (2 ^ 32) with 4294967296. lia. }
    rewrite (E base chan), (E base' chan') by assumption.
    split; [reflexivity|]. split; lia.
Qed.

Lemma get_addr_banks_witness :
  get_addr SR_DECIM_ADDR 1 = 3120 /\
  (get_addr SR_DECIM_ADDR 1 = get_addr SR_N_ADDR 0 -> SR_DECIM_ADDR = SR_N_ADDR /\ 1%nat = 0%nat).
Proof.
  destruct (get_addr_banks SR_DECIM_ADDR SR_N_ADDR 1 0) as [_ H].
  - unfold SR_DECIM_ADDR. lia.
  - unfold SR_N_ADDR. lia.
  - destruct H as [H1 [_ H3]]; [simpl; lia|simpl; lia|]. split; [exact H1|exact H3].
Defined.

Lemma frame_refl (chan : nat) (b : ddc) : frame chan b b.
Proof. constructor; try reflexivity. exists []. now rewrite app_nil_r. Qed.

Lemma frame_trans (chan : nat) (b1 b2 b3 : ddc) :
  frame chan b1 b2 -> frame chan b2 b3 -> frame chan b1 b3.
Proof.
  intros [A1 A2 A3 A4 A5 A6 A7 A8 A9 [n1 A10]] [B1 B2 B3 B4 B5 B6 B7 B8 B9 [n2 B10]].
  constructor; try congruence.
  - intros i Hi. rewrite B7, A7 by assumption. reflexivity.
  - intros i Hi. rewrite B9, A9 by assumption. reflexivity.
  - exists (n1 ++ n2). rewrite B10, A10. now rewrite app_assoc.
Qed.

Lemma frame_put_chan (chan : nat) (c : chan_props) (b : ddc) :
  frame chan b (put_chan chan c b).
Proof.
  constructor; try reflexivity.
  - cbn. apply length_insert.
  - intros i Hi. cbn. apply list_lookup_insert_ne. congruence.
  - exists []. cbn. now rewrite app_nil_r.
Qed.

Lemma frame_poke32 (chan : nat) (addr data : Z) (b : ddc) :
  frame chan b (poke32 addr data b).
Proof. constructor; try reflexivity. eexists. reflexivity. Qed.

Lemma frame_set_decim (D : Z) (chan : nat) (b b' : ddc) :
  set_decim D chan b = Ok b' -> frame chan b b' /\ chans b' = chans b.
Proof.
  unfold set_decim, update_scaling. intros H.
  destruct (halfband_loop _ _ _ _) as [h c].
  inv_ok H. injection H as <-.
  split; [|destruct ((1 <? c) && (h =? 0)); reflexivity].
  constructor; try (destruct ((1 <? c) && (h =? 0)); reflexivity).
  - destruct ((1 <? c) && (h =? 0)); cbn; apply length_insert.
  - intros i Hi. destruct ((1 <? c) && (h =? 0)); cbn;
      apply list_lookup_insert_ne; congruence.
  - destruct ((1 <? c) && (h =? 0)); cbn; rewrite <- !app_assoc; eexists; reflexivity.
Qed.

Section Frames.

Variable gfw : Q -> double -> result (Q * Z).

(** Every resolver body writes the properties of its channel that its
    registration declares as outputs, and no other. *)
Lemma resolver_body_frame (r : resolver) (chan : nat) (b b' : ddc) (c : chan_props) :
  In r (resolvers gfw) -> chans b !! chan = Some c -> body r chan b = Ok b' ->
  exists c',
    chans b' = <[chan := c']> (chans b) /\
    (forall p, ~ In p (outputs r) -> prop_unchanged p c c') /\
    frame chan b b' /\
    (inputs r <> [DECIM] -> inputs r <> [FREQ] ->
     regs b' = regs b /\ residual_scaling b' = residual_scaling b).
Proof.
  intros Hr Hc Hrun. simpl in Hr.
  destruct Hr as [<-|[<-|[<-|[<-|[<-|[<-|[<-|[<-|[<-|[]]]]]]]]]]; cbn in Hrun |- *.
  - unfold resolve_scaling_out in Hrun. rewrite (at_Some _ _ _ Hc) in Hrun.
    cbn [rbind] in Hrun. inv_ok Hrun. apply Ok_inj in Hrun. subst b'.
    eexists. split; [reflexivity|]. split; [|split; [apply frame_put_chan|now split]].
    intros p Hp. destruct p; try reflexivity. exfalso. apply Hp. simpl. tauto.
  - unfold resolve_decim in Hrun. rewrite (at_Some _ _ _ Hc) in Hrun.
    cbn [rbind] in Hrun. inv_ok Hrun. apply Ok_inj in Hrun. subst b'.
    apply frame_set_decim in E0. destruct E0 as [Hf Hch].
    eexists. split; [cbn; rewrite Hch; reflexivity|].
    split; [|split; [|congruence]].
    + intros p Hp. destruct p; try reflexivity; exfalso; apply Hp; simpl; tauto.
    + eapply frame_trans; [exact Hf|apply frame_put_chan].
  - unfold resolve_freq, _set_freq in Hrun. rewrite (at_Some _ _ _ Hc) in Hrun.
    cbn [rbind] in Hrun. inv_ok Hrun. inv_ok E. apply Ok_inj in E. subst x.
    apply Ok_inj in Hrun. subst b'.
    eexists. split; [reflexivity|]. split; [|split; [|congruence]].
    + intros p Hp. destruct p; try reflexivity; exfalso; apply Hp; simpl; tauto.
    + eapply frame_trans; [apply frame_poke32|apply frame_put_chan].
  - unfold resolve_samp_rate_in in Hrun. rewrite (at_Some _ _ _ Hc) in Hrun.
    cbn [rbind] in Hrun. inv_ok Hrun. apply Ok_inj in Hrun. subst b'.
    eexists. split; [reflexivity|]. split; [|split; [apply frame_put_chan|now split]].
    intros p Hp. destruct p; try reflexivity; exfalso; apply Hp; simpl; tauto.
  - unfold resolve_samp_rate_out in Hrun. rewrite (at_Some _ _ _ Hc) in Hrun.
    cbn [rbind] in Hrun. inv_ok Hrun. apply Ok_inj in Hrun. subst b'.
    eexists. split; [reflexivity|]. split; [|split; [apply frame_put_chan|now split]].
    intros p Hp.
    destruct p; try (exfalso; apply Hp; simpl; tauto);
      match goal with |- context [if ?x then _ else _] => destruct x end; reflexivity.
  - unfold resolve_scaling_in in Hrun. rewrite (at_Some _ _ _ Hc) in Hrun.
    cbn [rbind] in Hrun. apply Ok_inj in Hrun. subst b'.
    eexists. split; [reflexivity|]. split; [|split; [apply frame_put_chan|now split]].
    intros p Hp. destruct p; try reflexivity; exfalso; apply Hp; simpl; tauto.
  - unfold resolve_scaling_out in Hrun. rewrite (at_Some _ _ _ Hc) in Hrun.
    cbn [rbind] in Hrun. inv_ok Hrun. apply Ok_inj in Hrun. subst b'.
    eexists. split; [reflexivity|]. split; [|split; [apply frame_put_chan|now split]].
    intros p Hp. destruct p; try reflexivity. exfalso. apply Hp. simpl. tauto.
  - unfold resolve_type_in in Hrun. rewrite (at_Some _ _ _ Hc) in Hrun.
    cbn [rbind] in Hrun. apply Ok_inj in Hrun. subst b'.
    eexists. split; [reflexivity|]. split; [|split; [apply frame_put_chan|now split]].
    intros p Hp. destruct p; try reflexivity; exfalso; apply Hp; simpl; tauto.
  - unfold resolve_type_out in Hrun. rewrite (at_Some _ _ _ Hc) in Hrun.
    cbn [rbind] in Hrun. apply Ok_inj in Hrun. subst b'.
    eexists. split; [reflexivity|]. split; [|split; [apply frame_put_chan|now split]].
    intros p Hp. destruct p; try reflexivity; exfalso; apply Hp; simpl; tauto.
Qed.

(** X8. Every registered resolver writes the properties its registration
    declares as outputs and no other: a property of its channel outside the
    declared outputs keeps its value and its dirty flag, the other channels,
    the configuration and the posted actions are untouched, and only the
    resolvers of the decimation and of the frequency write registers or a
    residual scaling. *)
Theorem resolver_writes_outputs
  (r : resolver) (chan : nat) (b b' : ddc) (c : chan_props) :
  In r (resolvers gfw) -> chans b !! chan = Some c -> body r chan b = Ok b' ->
  exists c',
    chans b' = <[chan := c']> (chans b) /\
    (forall p, ~ In p (outputs r) -> prop_unchanged p c c') /\
    frame chan b b' /\
    (inputs r <> [DECIM] -> inputs r <> [FREQ] ->
     regs b' = regs b /\ residual_scaling b' = residual_scaling b).
Proof. apply resolver_body_frame. Qed.

End Frames.

Lemma resolver_writes_outputs_witness :
  exists b' c',
    resolve_samp_rate_in 0
      (put_chan 0 (with_samp_rate_in default_chan_props (mk_property (double_of_int 4000000000) false))
         ddc_3_16) = Ok b' /\
    chans b' = [c'] /\
    samp_rate_in c' = mk_property (double_of_int 4000000000) false /\
    scaling_out c' = scaling_out default_chan_props /\
    regs b' = [].
Proof.
  set (c := with_samp_rate_in default_chan_props (mk_property (double_of_int 4000000000) false)).
  destruct (resolve_samp_rate_in 0 (put_chan 0 c ddc_3_16)) as [b'|] eqn:E;
    [|vm_compute in E; discriminate E].
  destruct (resolver_writes_outputs example_freq_word
              (mk_resolver [SAMP_RATE_IN] [DECIM; SAMP_RATE_OUT; SCALING_IN; FREQ]
                 resolve_samp_rate_in) 0 (put_chan 0 c ddc_3_16) b' c)
    as [c' [Hch [Hp [_ Hregs]]]].
  - cbn. tauto.
  - reflexivity.
  - exact E.
  - exists b', c'. split; [reflexivity|]. split; [exact Hch|].
    split; [apply (Hp SAMP_RATE_IN); cbn; intuition discriminate|].
    split; [apply (Hp SCALING_OUT); cbn; intuition discriminate|].
    apply Hregs; discriminate.
Defined.

Lemma make_Ok (hw : hw_info) (b : ddc) :
  make hw = Ok b ->
  num_input_ports hw = num_output_ports hw /\ 0 < rb_cic_max_decim hw <= 255 /\
  b = mk_ddc (rb_compat_num hw) (rb_num_hb hw) (rb_cic_max_decim hw)
        (make_valid_decims (build_decims (rb_num_hb hw) (rb_cic_max_decim hw)))
        (replicate (num_input_ports hw) DEFAULT_SCALING)
        (replicate (num_input_ports hw) default_chan_props) [] [] [].
Proof.
  unfold make. intros H. inv_ok H. apply Ok_inj in H.
  apply negb_false_iff in E, E0. apply Nat.eqb_eq in E.
  apply andb_prop in E0. destruct E0 as [Hc1 Hc2].
  apply Z.ltb_lt in Hc1. apply Z.leb_le in Hc2. auto.
Qed.

Lemma configured_frame (hw : hw_info) (chan : nat) (b b' : ddc) :
  frame chan b b' -> configured hw b -> configured hw b'.
Proof.
  intros [A1 A2 A3 A4 A5 A6 A7 A8 A9 A10] [B1 [B2 [B3 [B4 [B5 B6]]]]].
  unfold configured. repeat split; congruence.
Qed.

Lemma configured_well_formed (hw : hw_info) (b : ddc) :
  configured hw b -> 0 < rb_cic_max_decim hw <= 255 -> 0 <= rb_num_hb hw <= 24 ->
  well_formed b.
Proof.
  intros [B1 [B2 [B3 [B4 [B5 B6]]]]] HM HN.
  constructor; rewrite ?B2, ?B3; try lia; try assumption.
  apply decims_fit_int_24; lia.
Qed.

Section Reachable.

Variable gfw : Q -> double -> result (Q * Z).

Lemma run_resolver_frame (r : resolver) (chan : nat) (b b' : ddc) (c : chan_props) :
  In r (resolvers gfw) -> chans b !! chan = Some c -> run_resolver r chan b = Ok b' ->
  exists c',
    chans b' = <[chan := c']> (chans b) /\
    (forall p, ~ In p (outputs r) ->
       prop_unchanged p (fold_right prop_mark_clean c (inputs r)) c') /\
    frame chan b b'.
Proof.
  intros Hr Hc Hrun. unfold run_resolver in Hrun.
  rewrite (at_Some _ _ _ Hc) in Hrun. cbn [rbind] in Hrun.
  destruct (resolver_body_frame gfw r chan _ b' _ Hr (put_chan_lookup _ _ _ _ Hc) Hrun)
    as [c' [Hch [Hp [Hf _]]]].
  exists c'. split; [|split; [exact Hp|]].
  - rewrite Hch. cbn. apply list_insert_insert_eq.
  - eapply frame_trans; [apply frame_put_chan|exact Hf].
Qed.

Lemma write_property_frame (p : prop_id) (v : prop_value) (chan : nat) (b b' : ddc) :
  write_property p v chan b = Ok b' ->
  exists c c', chans b !! chan = Some c /\ write_prop p v c = Ok c' /\
               b' = put_chan chan c' b.
Proof.
  unfold write_property. intros H. inv_ok H. apply Ok_inj in H.
  apply at_Ok in E. eauto.
Qed.

Lemma reachable_configured (b : ddc) :
  reachable gfw b ->
  exists hw, 0 < rb_cic_max_decim hw <= 255 /\ configured hw b.
Proof.
  induction 1 as [hw b H|p v chan b b' _ IH H|b b' _ IH H].
  - exists hw. apply make_Ok in H. destruct H as [_ [HM ->]].
    split; [exact HM|]. unfold configured. cbn. rewrite !length_replicate. auto 10.
  - destruct IH as [hw [HM Hcfg]]. exists hw. split; [exact HM|].
    apply write_property_frame in H. destruct H as [c [c' [_ [_ ->]]]].
    eapply configured_frame; [apply frame_put_chan|exact Hcfg].
  - destruct IH as [hw [HM Hcfg]]. exists hw. split; [exact HM|].
    destruct H as [r chan c b0 b0' Hr Hc _ Hrun].
    destruct (run_resolver_frame r chan b0 b0' c Hr Hc Hrun) as [c' [_ [_ Hf]]].
    eapply configured_frame; eassumption.
Qed.

Lemma types_settled_write (p : prop_id) (v : prop_value) (c c' : chan_props) :
  write_prop p v c = Ok c' -> types_settled c -> types_settled c'.
Proof.
  intros H [H1 H2].
  destruct p, v; try discriminate H; apply Ok_inj in H; subst c';
    split; cbn; auto.
Qed.

Lemma types_settled_run (r : resolver) (chan : nat) (b b' : ddc) (c : chan_props) :
  In r (resolvers gfw) -> chans b !! chan = Some c -> run_resolver r chan b = Ok b' ->
  types_settled c ->
  exists c', chans b' = <[chan := c']> (chans b) /\ types_settled c'.
Proof.
  intros Hr Hc Hrun [H1 H2].
  destruct (run_resolver_frame r chan b b' c Hr Hc Hrun) as [c' [Hch [Hp _]]].
  exists c'. split; [exact Hch|].
  unfold run_resolver in Hrun. rewrite (at_Some _ _ _ Hc) in Hrun. cbn [rbind] in Hrun.
  simpl in Hr.
  destruct Hr as [<-|[<-|[<-|[<-|[<-|[<-|[<-|[<-|[<-|[]]]]]]]]]].
  1-7: pose proof (Hp TYPE_IN) as P1; pose proof (Hp TYPE_OUT) as P2;
       cbn in P1, P2; split; [rewrite P1|rewrite P2];
       first [ assumption | cbn; intuition discriminate ].
  - pose proof (Hp TYPE_OUT) as P2. cbn in P2.
    cbn in Hrun. unfold resolve_type_in in Hrun.
    rewrite (at_put_chan _ _ _ _ Hc) in Hrun. cbn [rbind] in Hrun.
    apply Ok_inj in Hrun. subst b'. rewrite put_chan_twice in Hch. cbn in Hch.
    split; [|rewrite P2; [assumption|cbn; intuition discriminate]].
    apply (f_equal (fun l => l !! chan)) in Hch.
    rewrite !list_lookup_insert_eq in Hch by (eapply lookup_lt_Some; eassumption).
    apply (inj Some) in Hch. subst c'. right. reflexivity.
  - pose proof (Hp TYPE_IN) as P1. cbn in P1.
    cbn in Hrun. unfold resolve_type_out in Hrun.
    rewrite (at_put_chan _ _ _ _ Hc) in Hrun. cbn [rbind] in Hrun.
    apply Ok_inj in Hrun. subst b'. rewrite put_chan_twice in Hch. cbn in Hch.
    split; [rewrite P1; [assumption|cbn; intuition discriminate]|].
    apply (f_equal (fun l => l !! chan)) in Hch.
    rewrite !list_lookup_insert_eq in Hch by (eapply lookup_lt_Some; eassumption).
    apply (inj Some) in Hch. subst c'. right. reflexivity.
Qed.

Lemma reachable_types_settled (b : ddc) :
  reachable gfw b -> Forall types_settled (chans b).
Proof.
  induction 1 as [hw b H|p v chan b b' _ IH H|b b' _ IH H].
  - apply make_Ok in H. destruct H as [_ [_ ->]]. cbn.
    apply List.Forall_forall. intros c Hc.
    apply list_elem_of_In, elem_of_replicate in Hc. destruct Hc as [-> _].
    split; right; reflexivity.
  - apply write_property_frame in H. destruct H as [c [c' [Hc [Hw ->]]]]. cbn.
    apply Forall_insert; [exact IH|].
    eapply types_settled_write; [exact Hw|].
    eapply Forall_lookup_1; eassumption.
  - destruct H as [r chan c b0 b0' Hr Hc _ Hrun].
    destruct (types_settled_run r chan b0 b0' c Hr Hc Hrun) as [c' [Hch Hs]].
    { eapply Forall_lookup_1; eassumption. }
    rewrite Hch. apply Forall_insert; assumption.
Qed.

Lemma transition_configured (hw : hw_info) (b b' : ddc) :
  transition gfw b b' -> configured hw b -> configured hw b'.
Proof.
  intros [p v chan b1 b1' H|b1 b1' H] Hcfg.
  - apply write_property_frame in H. destruct H as [c [c' [_ [_ ->]]]].
    eapply configured_frame; [apply frame_put_chan|exact Hcfg].
  - destruct H as [r chan c b2 b2' Hr Hc _ Hrun].
    destruct (run_resolver_frame r chan b2 b2' c Hr Hc Hrun) as [c' [_ [_ Hf]]].
    eapply configured_frame; eassumption.
Qed.

Lemma set_property_transitions
  (fuel : nat) (p : prop_id) (v : prop_value) (chan : nat) (b b' : ddc) :
  set_property gfw fuel p v chan b = Ok b' -> rtc (transition gfw) b b'.
Proof.
  intros H. unfold set_property in H. apply rbind_ok in H.
  destruct H as [b1 [Hw Hres]]. apply resolve_all_sound in Hres.
  destruct Hres as [Hsteps _].
  eapply rtc_l; [eapply transition_write; exact Hw|].
  clear Hw. induction Hsteps as [b2|b2 b3 b4 Hstep _ IH]; [constructor|].
  eapply rtc_l; [apply transition_step; exact Hstep|exact IH].
Qed.

(** X9. Whatever is written and whichever resolvers run after the
    construction of a block from [hw], the block keeps the configuration it
    was constructed with: the compat number, the number of halfbands, the
    maximal CIC decimation, the valid decimations, the number of channels
    and of residual scalings are those of [hw]; with at most 24 halfbands the
    block stays well formed. *)
Theorem reachable_keeps_configuration (hw : hw_info) (b0 b : ddc) :
  make hw = Ok b0 -> rtc (transition gfw) b0 b ->
  0 < rb_cic_max_decim hw <= 255 /\ configured hw b /\
  (0 <= rb_num_hb hw <= 24 -> well_formed b).
Proof.
  intros Hmake Hsteps.
  assert (H0 : 0 < rb_cic_max_decim hw <= 255 /\ configured hw b0).
  { apply make_Ok in Hmake. destruct Hmake as [_ [HM ->]]. split; [exact HM|].
    unfold configured. cbn. rewrite !length_replicate. auto 10. }
  destruct H0 as [HM Hcfg].
  assert (Hb : configured hw b).
  { clear Hmake. induction Hsteps as [b1|b1 b2 b3 Ht _ IH]; [exact Hcfg|].
    apply IH. eapply transition_configured; eassumption. }
  split; [exact HM|]. split; [exact Hb|].
  intros HN. eapply configured_well_formed; eassumption.
Qed.

End Reachable.

Lemma reachable_keeps_configuration_witness :
  configured hw_3_16 ddc_decim_4 /\ well_formed ddc_decim_4.
Proof.
  destruct ddc_decim_reached as [_ H].
  destruct (reachable_keeps_configuration example_freq_word hw_3_16 ddc_3_16
              ddc_decim_4) as [_ [H1 H2]].
  - reflexivity.
  - eapply set_property_transitions. exact H.
  - split; [exact H1|]. apply H2. simpl. lia.
Defined.

(** *** Resolutions that follow an external write *)

Lemma put_chan_same (chan : nat) (c : chan_props) (b : ddc) :
  chans b !! chan = Some c -> put_chan chan c b = b.
Proof.
  intros Hc. destruct b. unfold put_chan, set_chans. cbn in *.
  f_equal. now apply list_insert_id.
Qed.

Section TypeSet.

Variable gfw : Q -> double -> result (Q * Z).
Variables (b : ddc) (chan : nat) (c : chan_props).
Hypothesis Hres : resolved b.
Hypothesis Hc : chans b !! chan = Some c.

Lemma type_in_progress (b1 : ddc) (r : resolver) (chan' : nat) (c' : chan_props) :
  (exists t, b1 = put_chan chan (with_type_in c t) b /\
             (is_dirty t = false -> value t = IO_TYPE_SC16)) ->
  In r (resolvers gfw) -> chans b1 !! chan' = Some c' -> triggered r c' = true ->
  exists b2,
    run_resolver r chan' b1 = Ok b2 /\
    (exists t, b2 = put_chan chan (with_type_in c t) b /\
               (is_dirty t = false -> value t = IO_TYPE_SC16)) /\
    (match chans b2 !! chan with
     | Some c2 =>
         if is_dirty (type_in c2)
         then if String.eqb (value (type_in c2)) IO_TYPE_SC16 then 1 else 2
         else 0
     | None => 0
     end <
     match chans b1 !! chan with
     | Some c1 =>
         if is_dirty (type_in c1)
         then if String.eqb (value (type_in c1)) IO_TYPE_SC16 then 1 else 2
         else 0
     | None => 0
     end)%nat.
Proof.
  intros [t [-> Ht]] Hr Hc' Htr.
  destruct (triggered_at gfw b chan c _ r chan' c' Hres Hc Hr Hc' Htr) as [-> ->].
  destruct (chan_clean_flags c (resolved_lookup b chan c Hres Hc))
    as [F1 [F2 [F3 [F4 [F5 [F6 [F7 F8]]]]]]].
  assert (Hc1 : chans (put_chan chan (with_type_in c t) b) !! chan =
                Some (with_type_in c t)) by (eapply put_chan_lookup; eassumption).
  unfold triggered in Htr. simpl in Hr.
  destruct Hr as [<-|[<-|[<-|[<-|[<-|[<-|[<-|[<-|[<-|[]]]]]]]]]];
    cbn in Htr; rewrite ?orb_false_r in Htr; try congruence.
  eexists. split; [|split].
  - run_on Hc1. rewrite put_chan_twice. unfold resolve_type_in.
    erewrite at_put_chan by exact Hc. cbn [rbind]. rewrite put_chan_twice. reflexivity.
  - eexists. split; [reflexivity|]. cbn. intros _. reflexivity.
  - rewrite Hc1. erewrite put_chan_lookup by exact Hc. cbn. rewrite Htr.
    destruct (String.eqb (value t) IO_TYPE_SC16); cbn; lia.
Qed.

Lemma type_out_progress (b1 : ddc) (r : resolver) (chan' : nat) (c' : chan_props) :
  (exists t, b1 = put_chan chan (with_type_out c t) b /\
             (is_dirty t = false -> value t = IO_TYPE_SC16)) ->
  In r (resolvers gfw) -> chans b1 !! chan' = Some c' -> triggered r c' = true ->
  exists b2,
    run_resolver r chan' b1 = Ok b2 /\
    (exists t, b2 = put_chan chan (with_type_out c t) b /\
               (is_dirty t = false -> value t = IO_TYPE_SC16)) /\
    (match chans b2 !! chan with
     | Some c2 =>
         if is_dirty (type_out c2)
         then if String.eqb (value (type_out c2)) IO_TYPE_SC16 then 1 else 2
         else 0
     | None => 0
     end <
     match chans b1 !! chan with
     | Some c1 =>
         if is_dirty (type_out c1)
         then if String.eqb (value (type_out c1)) IO_TYPE_SC16 then 1 else 2
         else 0
     | None => 0
     end)%nat.
Proof.
  intros [t [-> Ht]] Hr Hc' Htr.
  destruct (triggered_at gfw b chan c _ r chan' c' Hres Hc Hr Hc' Htr) as [-> ->].
  destruct (chan_clean_flags c (resolved_lookup b chan c Hres Hc))
    as [F1 [F2 [F3 [F4 [F5 [F6 [F7 F8]]]]]]].
  assert (Hc1 : chans (put_chan chan (with_type_out c t) b) !! chan =
                Some (with_type_out c t)) by (eapply put_chan_lookup; eassumption).
  unfold triggered in Htr. simpl in Hr.
  destruct Hr as [<-|[<-|[<-|[<-|[<-|[<-|[<-|[<-|[<-|[]]]]]]]]]];
    cbn in Htr; rewrite ?orb_false_r in Htr; try congruence.
  eexists. split; [|split].
  - run_on Hc1. rewrite put_chan_twice. unfold resolve_type_out.
    erewrite at_put_chan by exact Hc. cbn [rbind]. rewrite put_chan_twice. reflexivity.
  - eexists. split; [reflexivity|]. cbn. intros _. reflexivity.
  - rewrite Hc1. erewrite put_chan_lookup by exact Hc. cbn. rewrite Htr.
    destruct (String.eqb (value t) IO_TYPE_SC16); cbn; lia.
Qed.

End TypeSet.

Section Types.

Variable gfw : Q -> double -> result (Q * Z).

Lemma types_at_rest (b : ddc) (chan : nat) (c : chan_props) :
  reachable gfw b -> resolved b -> chans b !! chan = Some c ->
  type_in c = mk_property IO_TYPE_SC16 false /\
  type_out c = mk_property IO_TYPE_SC16 false.
Proof.
  intros Hreach Hres Hc.
  pose proof (reachable_types_settled gfw b Hreach) as Hall.
  assert (Hs : types_settled c) by (eapply Forall_lookup_1; eassumption).
  destruct (chan_clean_flags c (resolved_lookup b chan c Hres Hc))
    as [_ [_ [_ [_ [_ [_ [F7 F8]]]]]]].
  destruct Hs as [[H1|H1] [H2|H2]]; try congruence.
  destruct (type_in c) as [v1 d1], (type_out c) as [v2 d2]. cbn in *.
  subst. split; reflexivity.
Qed.

(** X13. The types are constants: in a block at rest both types of every
    channel are [sc16], and an external set of a type to any string resolves,
    within two resolver executions and in whatever order, back to the block
    as it was. *)
Theorem type_set_resolves_back (fuel : nat) (b : ddc) (chan : nat) (c : chan_props)
  (p : prop_id) (s : string) :
  reachable gfw b -> resolved b -> chans b !! chan = Some c ->
  p = TYPE_IN \/ p = TYPE_OUT -> (2 <= fuel)%nat ->
  value (type_in c) = IO_TYPE_SC16 /\ value (type_out c) = IO_TYPE_SC16 /\
  set_property gfw fuel p (VString s) chan b = Ok b /\
  forall b1 b', write_property p (VString s) chan b = Ok b1 ->
                resolves_to gfw b1 b' -> b' = b.
Proof.
  intros Hreach Hres Hc Hp Hfuel.
  destruct (types_at_rest b chan c Hreach Hres Hc) as [Tin Tout].
  split; [now rewrite Tin|]. split; [now rewrite Tout|].
  destruct Hp as [-> | ->].
  - pose proof (type_in_progress gfw b chan c Hres Hc) as Hprog.
    assert (Hw : write_property TYPE_IN (VString s) chan b =
                 Ok (put_chan chan (with_type_in c (mk_property s true)) b))
      by (eapply write_property_eq; [exact Hc|reflexivity]).
    assert (HI : exists t, put_chan chan (with_type_in c (mk_property s true)) b =
                           put_chan chan (with_type_in c t) b /\
                           (is_dirty t = false -> value t = IO_TYPE_SC16)).
    { eexists. split; [reflexivity|]. cbn. discriminate. }
    assert (Hend : forall b', (exists t, b' = put_chan chan (with_type_in c t) b /\
                        (is_dirty t = false -> value t = IO_TYPE_SC16)) ->
                      resolved b' -> b' = b).
    { intros b' [t [-> Ht]] Hres'.
      assert (Hl : chans (put_chan chan (with_type_in c t) b) !! chan =
                   Some (with_type_in c t)) by (eapply put_chan_lookup; eassumption).
      pose proof (resolved_lookup _ _ _ Hres' Hl TYPE_IN) as Hd. cbn in Hd.
      specialize (Ht Hd). destruct t as [v d]. cbn in *. subst.
      rewrite <- Tin. replace (with_type_in c (type_in c)) with c by (now destruct c).
      now apply put_chan_same. }
    split.
    + unfold set_property. rewrite Hw. cbn [rbind].
      destruct (chain_resolve_all gfw _ _ Hprog fuel _ HI) as [b' [Hb' [HI' Hres']]].
      { erewrite put_chan_lookup by exact Hc. cbn.
        destruct (String.eqb s IO_TYPE_SC16); lia. }
      rewrite Hb'. f_equal. now apply Hend.
    + intros b1 b' Hw' [Hsteps Hres']. rewrite Hw in Hw'. apply Ok_inj in Hw'. subst b1.
      apply Hend; [|exact Hres'].
      exact (chain_steps gfw _ _ Hprog _ _ HI Hsteps).
  - pose proof (type_out_progress gfw b chan c Hres Hc) as Hprog.
    assert (Hw : write_property TYPE_OUT (VString s) chan b =
                 Ok (put_chan chan (with_type_out c (mk_property s true)) b))
      by (eapply write_property_eq; [exact Hc|reflexivity]).
    assert (HI : exists t, put_chan chan (with_type_out c (mk_property s true)) b =
                           put_chan chan (with_type_out c t) b /\
                           (is_dirty t = false -> value t = IO_TYPE_SC16)).
    { eexists. split; [reflexivity|]. cbn. discriminate. }
    assert (Hend : forall b', (exists t, b' = put_chan chan (with_type_out c t) b /\
                        (is_dirty t = false -> value t = IO_TYPE_SC16)) ->
                      resolved b' -> b' = b).
    { intros b' [t [-> Ht]] Hres'.
      assert (Hl : chans (put_chan chan (with_type_out c t) b) !! chan =
                   Some (with_type_out c t)) by (eapply put_chan_lookup; eassumption).
      pose proof (resolved_lookup _ _ _ Hres' Hl TYPE_OUT) as Hd. cbn in Hd.
      specialize (Ht Hd). destruct t as [v d]. cbn in *. subst.
      rewrite <- Tout. replace (with_type_out c (type_out c)) with c by (now destruct c).
      now apply put_chan_same. }
    split.
    + unfold set_property. rewrite Hw. cbn [rbind].
      destruct (chain_resolve_all gfw _ _ Hprog fuel _ HI) as [b' [Hb' [HI' Hres']]].
      { erewrite put_chan_lookup by exact Hc. cbn.
        destruct (String.eqb s IO_TYPE_SC16); lia. }
      rewrite Hb'. f_equal. now apply Hend.
    + intros b1 b' Hw' [Hsteps Hres']. rewrite Hw in Hw'. apply Ok_inj in Hw'. subst b1.
      apply Hend; [|exact Hres'].
      exact (chain_steps gfw _ _ Hprog _ _ HI Hsteps).
Qed.

End Types.

Lemma type_set_resolves_back_witness :
  set_property example_freq_word 2 TYPE_IN (VString "fc32") 0 ddc_3_16 = Ok ddc_3_16.
Proof.
  destruct (type_set_resolves_back example_freq_word 2 ddc_3_16 0 default_chan_props
              TYPE_IN "fc32") as [_ [_ [H _]]].
  - apply reachable_make with (hw := hw_3_16). reflexivity.
  - repeat constructor; intros []; reflexivity.
  - reflexivity.
  - now left.
  - lia.
  - exact H.
Defined.

Section ScalingSet.

Variable gfw : Q -> double -> result (Q * Z).
Variables (b : ddc) (chan : nat) (c : chan_props) (res q : Q).
Hypothesis Hres : resolved b.
Hypothesis Hc : chans b !! chan = Some c.
Hypothesis Hr : residual_scaling b !! chan = Some res.

Lemma scaling_in_progress (b1 : ddc) (r : resolver) (chan' : nat) (c' : chan_props) :
  (exists si so,
     b1 = put_chan chan (with_scaling_out (with_scaling_in c si) so) b /\
     value si = q /\
     (is_dirty si = false -> is_dirty so = false -> value so = (q * res)%Q)) ->
  In r (resolvers gfw) -> chans b1 !! chan' = Some c' -> triggered r c' = true ->
  exists b2,
    run_resolver r chan' b1 = Ok b2 /\
    (exists si so,
       b2 = put_chan chan (with_scaling_out (with_scaling_in c si) so) b /\
       value si = q /\
       (is_dirty si = false -> is_dirty so = false -> value so = (q * res)%Q)) /\
    (match chans b2 !! chan with
     | Some c2 =>
         3 * b2n (is_dirty (scaling_in c2)) +
         (if is_dirty (scaling_out c2)
          then if Qeq_bool (value (scaling_out c2)) (q * res) then 1 else 2
          else 0)
     | None => 0
     end <
     match chans b1 !! chan with
     | Some c1 =>
         3 * b2n (is_dirty (scaling_in c1)) +
         (if is_dirty (scaling_out c1)
          then if Qeq_bool (value (scaling_out c1)) (q * res) then 1 else 2
          else 0)
     | None => 0
     end)%nat.
Proof.
  intros [si [so [-> [Hsi Hso]]]] Hr' Hc' Htr.
  destruct (triggered_at gfw b chan c _ r chan' c' Hres Hc Hr' Hc' Htr) as [-> ->].
  destruct (chan_clean_flags c (resolved_lookup b chan c Hres Hc))
    as [F1 [F2 [F3 [F4 [F5 [F6 [F7 F8]]]]]]].
  set (c1 := with_scaling_out (with_scaling_in c si) so) in *.
  assert (Hc1 : chans (put_chan chan c1 b) !! chan = Some c1)
    by (eapply put_chan_lookup; eassumption).
  assert (Hout :
    is_dirty so = true ->
    forall outs,
    exists b2,
      run_resolver (mk_resolver [SCALING_OUT] outs resolve_scaling_out) chan
        (put_chan chan c1 b) = Ok b2 /\
      (exists si' so',
         b2 = put_chan chan (with_scaling_out (with_scaling_in c si') so') b /\
         value si' = q /\
         (is_dirty si' = false -> is_dirty so' = false -> value so' = (q * res)%Q)) /\
      (match chans b2 !! chan with
       | Some c2 =>
           3 * b2n (is_dirty (scaling_in c2)) +
           (if is_dirty (scaling_out c2)
            then if Qeq_bool (value (scaling_out c2)) (q * res) then 1 else 2
            else 0)
       | None => 0
       end <
       3 * b2n (is_dirty (scaling_in c1)) +
       (if is_dirty (scaling_out c1)
        then if Qeq_bool (value (scaling_out c1)) (q * res) then 1 else 2
        else 0))%nat).
  { intros Hd outs. eexists. split; [|split].
    - run_on Hc1. rewrite put_chan_twice. unfold resolve_scaling_out.
      erewrite at_put_chan by exact Hc. cbn [rbind].
      cbn [residual_scaling put_chan set_chans]. rewrite (at_Some _ _ _ Hr).
      cbn [rbind]. rewrite put_chan_twice. reflexivity.
    - exists si. eexists. split; [reflexivity|]. split; [exact Hsi|].
      intros _ _. cbn. now rewrite Hsi.
    - erewrite put_chan_lookup by exact Hc. cbn -[Qeq_bool Qmult]. rewrite Hd, Hsi.
      destruct (Qeq_bool (value so) (q * res)); cbn -[Qeq_bool Qmult];
        rewrite ?Qeq_bool_refl; lia. }
  rewrite Hc1.
  unfold triggered in Htr. simpl in Hr'.
  destruct Hr' as [<-|[<-|[<-|[<-|[<-|[<-|[<-|[<-|[<-|[]]]]]]]]]];
    cbn in Htr; rewrite ?orb_false_r in Htr; try congruence.
  - now apply Hout.
  - eexists. split; [|split].
    + run_on Hc1. rewrite put_chan_twice. unfold resolve_scaling_in.
      erewrite at_put_chan by exact Hc. cbn [rbind]. rewrite put_chan_twice. reflexivity.
    + eexists. eexists. split; [reflexivity|]. split; [exact Hsi|].
      cbn. discriminate.
    + erewrite put_chan_lookup by exact Hc. cbn -[Qeq_bool Qmult]. rewrite Htr.
      destruct (Qeq_bool (value so) (q * res)); cbn; lia.
  - now apply Hout.
Qed.

End ScalingSet.

Section Scaling.

Variable gfw : Q -> double -> result (Q * Z).

(** X14. An external set of the input scaling on a block at rest resolves
    within three resolver executions, in whatever order, to the same block
    with the input scaling as set and the output scaling at the input
    scaling times the residual scaling; no register is written. *)
Theorem scaling_in_set (fuel : nat) (b : ddc) (chan : nat) (c : chan_props)
  (res q : Q) :
  resolved b -> chans b !! chan = Some c -> residual_scaling b !! chan = Some res ->
  (3 <= fuel)%nat ->
  let b' :=
    put_chan chan
      (with_scaling_out (with_scaling_in c (mk_property q false))
         (mk_property (q * res)%Q false)) b in
  set_property gfw fuel SCALING_IN (VDouble q) chan b = Ok b' /\
  (forall b1 b2, write_property SCALING_IN (VDouble q) chan b = Ok b1 ->
                 resolves_to gfw b1 b2 -> b2 = b') /\
  regs b' = regs b /\ residual_scaling b' = residual_scaling b.
Proof.
  intros Hres Hc Hr Hfuel b'.
  destruct (chan_clean_flags c (resolved_lookup b chan c Hres Hc))
    as [F1 [F2 [F3 [F4 [F5 [F6 [F7 F8]]]]]]].
  pose proof (scaling_in_progress gfw b chan c res q Hres Hc Hr) as Hprog.
  assert (Hw : write_property SCALING_IN (VDouble q) chan b =
               Ok (put_chan chan (with_scaling_in c (mk_property q true)) b))
    by (eapply write_property_eq; [exact Hc|reflexivity]).
  assert (HI : exists si so,
             put_chan chan (with_scaling_in c (mk_property q true)) b =
             put_chan chan (with_scaling_out (with_scaling_in c si) so) b /\
             value si = q /\
             (is_dirty si = false -> is_dirty so = false -> value so = (q * res)%Q)).
  { exists (mk_property q true), (scaling_out c). split; [now destruct c|].
    split; [reflexivity|]. cbn. discriminate. }
  assert (Hend : forall b2,
            (exists si so,
               b2 = put_chan chan (with_scaling_out (with_scaling_in c si) so) b /\
               value si = q /\
               (is_dirty si = false -> is_dirty so = false -> value so = (q * res)%Q)) ->
            resolved b2 -> b2 = b').
  { intros b2 [si [so [-> [Hsi Hso]]]] Hres2.
    assert (Hl : chans (put_chan chan (with_scaling_out (with_scaling_in c si) so) b) !! chan =
                 Some (with_scaling_out (with_scaling_in c si) so))
      by (eapply put_chan_lookup; eassumption).
    pose proof (resolved_lookup _ _ _ Hres2 Hl SCALING_IN) as D1.
    pose proof (resolved_lookup _ _ _ Hres2 Hl SCALING_OUT) as D2. cbn in D1, D2.
    specialize (Hso D1 D2). destruct si as [v1 d1], so as [v2 d2]. cbn in *. subst.
    reflexivity. }
  split; [|split; [|split; reflexivity]].
  - unfold set_property. rewrite Hw. cbn [rbind].
    destruct (chain_resolve_all gfw _ _ Hprog fuel _ HI) as [b2 [Hb2 [HI2 Hres2]]].
    { erewrite put_chan_lookup by exact Hc. cbn -[Qeq_bool Qmult]. rewrite F4. cbn. lia. }
    rewrite Hb2. f_equal. now apply Hend.
  - intros b1 b2 Hw' [Hsteps Hres2]. rewrite Hw in Hw'. apply Ok_inj in Hw'. subst b1.
    apply Hend; [|exact Hres2].
    exact (chain_steps gfw _ _ Hprog _ _ HI Hsteps).
Qed.

End Scaling.

Lemma scaling_in_set_witness :
  exists b' c',
    set_property example_freq_word 3 SCALING_IN (VDouble 3) 0 ddc_3_16 = Ok b' /\
    chans b' !! 0%nat = Some c' /\
    value (scaling_in c') = 3%Q /\ value (scaling_out c') = (3 * DEFAULT_SCALING)%Q /\
    regs b' = [].
Proof.
  destruct (scaling_in_set example_freq_word 3 ddc_3_16 0 default_chan_props
              DEFAULT_SCALING 3) as [H [_ [Hregs _]]].
  - repeat constructor; intros []; reflexivity.
  - reflexivity.
  - reflexivity.
  - lia.
  - eexists. eexists. split; [exact H|]. split; [reflexivity|].
    split; [reflexivity|]. split; [reflexivity|exact Hregs].
Defined.

Lemma freq_poked_snoc (chan : nat) (ws : list Z) (w : Z) (b : ddc) :
  poke32 (get_addr SR_FREQ_ADDR chan) w (freq_poked chan ws b) =
  freq_poked chan (ws ++ [w]) b.
Proof. unfold freq_poked. now rewrite fold_left_app. Qed.

Lemma freq_poked_chans (chan : nat) (ws : list Z) (b : ddc) :
  chans (freq_poked chan ws b) = chans b.
Proof.
  unfold freq_poked. revert b. induction ws as [|w ws IH]; intros b; [reflexivity|].
  cbn. now rewrite IH.
Qed.

Lemma freq_poked_regs (chan : nat) (ws : list Z) (b : ddc) :
  regs (freq_poked chan ws b) =
  regs b ++ map (fun w => (get_addr SR_FREQ_ADDR chan, wrap 32 w)) ws.
Proof.
  unfold freq_poked. revert b. induction ws as [|w ws IH]; intros b; cbn.
  - now rewrite app_nil_r.
  - rewrite IH. cbn. now rewrite <- app_assoc.
Qed.

Section FreqSet.

Variable gfw : Q -> double -> result (Q * Z).
Variables (b : ddc) (chan : nat) (c : chan_props) (f a a' : Q) (w w' : Z).
Hypothesis Hres : resolved b.
Hypothesis Hc : chans b !! chan = Some c.
Hypothesis Hf : gfw f (value (samp_rate_in c)) = Ok (a, w).
Hypothesis Ha : gfw a (value (samp_rate_in c)) = Ok (a', w').
Hypothesis Hfix : (a' == a)%Q.

Lemma freq_progress (b1 : ddc) (r : resolver) (chan' : nat) (c' : chan_props) :
  (exists fr ws,
     b1 = put_chan chan (with_freq c fr) (freq_poked chan ws b) /\
     ((is_dirty fr = true /\
       ((value fr = f /\ ws = []) \/ (value fr = a /\ ws = [w]))) \/
      (is_dirty fr = false /\ (value fr == a)%Q /\ (ws = [w] \/ ws = [w; w'])))) ->
  In r (resolvers gfw) -> chans b1 !! chan' = Some c' -> triggered r c' = true ->
  exists b2,
    run_resolver r chan' b1 = Ok b2 /\
    (exists fr ws,
       b2 = put_chan chan (with_freq c fr) (freq_poked chan ws b) /\
       ((is_dirty fr = true /\
         ((value fr = f /\ ws = []) \/ (value fr = a /\ ws = [w]))) \/
        (is_dirty fr = false /\ (value fr == a)%Q /\ (ws = [w] \/ ws = [w; w'])))) /\
    (match chans b2 !! chan with
     | Some c2 =>
         if is_dirty (freq c2)
         then if Qeq_bool (value (freq c2)) a then 1 else 2
         else 0
     | None => 0
     end <
     match chans b1 !! chan with
     | Some c1 =>
         if is_dirty (freq c1)
         then if Qeq_bool (value (freq c1)) a then 1 else 2
         else 0
     | None => 0
     end)%nat.
Proof.
  intros [fr [ws [-> Hst]]] Hr Hc' Htr.
  assert (Hcp : chans (freq_poked chan ws b) !! chan = Some c)
    by (now rewrite freq_poked_chans).
  assert (Hresp : Forall chan_clean (chans (freq_poked chan ws b)))
    by (rewrite freq_poked_chans; exact Hres).
  destruct (triggered_at gfw _ chan c _ r chan' c' Hresp Hcp Hr Hc' Htr) as [-> ->].
  destruct (chan_clean_flags c (resolved_lookup b chan c Hres Hc))
    as [F1 [F2 [F3 [F4 [F5 [F6 [F7 F8]]]]]]].
  assert (Hc1 : chans (put_chan chan (with_freq c fr) (freq_poked chan ws b)) !! chan =
                Some (with_freq c fr)) by (eapply put_chan_lookup; eassumption).
  rewrite Hc1.
  unfold triggered in Htr. simpl in Hr.
  destruct Hr as [<-|[<-|[<-|[<-|[<-|[<-|[<-|[<-|[<-|[]]]]]]]]]];
    cbn in Htr; rewrite ?orb_false_r in Htr; try congruence.
  destruct Hst as [[_ Hst]|[Hd _]]; [|congruence].
  destruct Hst as [[Hv ->]|[Hv ->]].
  - eexists. split; [|split].
    + run_on Hc1. rewrite put_chan_twice. unfold resolve_freq, _set_freq.
      erewrite at_put_chan by exact Hcp. cbn [rbind].
      cbn [with_freq freq samp_rate_in mark_clean value]. rewrite Hv, Hf. cbn [rbind fst snd].
      rewrite poke32_put_chan, put_chan_twice, freq_poked_snoc. reflexivity.
    + eexists. eexists. split; [reflexivity|].
      cbn -[Qeq_bool]. rewrite Hv. destruct (Qeq_bool f a) eqn:E; cbn.
      * right. split; [reflexivity|]. split; [reflexivity|now left].
      * left. split; [reflexivity|]. right. split; reflexivity.
    + erewrite put_chan_lookup by (rewrite freq_poked_chans; exact Hc).
      cbn -[Qeq_bool]. rewrite Htr, Hv.
      destruct (Qeq_bool f a) eqn:E; cbn -[Qeq_bool]; rewrite ?Qeq_bool_refl; lia.
  - eexists. split; [|split].
    + run_on Hc1. rewrite put_chan_twice. unfold resolve_freq, _set_freq.
      erewrite at_put_chan by exact Hcp. cbn [rbind].
      cbn [with_freq freq samp_rate_in mark_clean value]. rewrite Hv, Ha. cbn [rbind fst snd].
      rewrite poke32_put_chan, put_chan_twice, freq_poked_snoc. reflexivity.
    + eexists. eexists. split; [reflexivity|].
      assert (E : Qeq_bool a a' = true) by (apply Qeq_bool_iff; now symmetry).
      cbn -[Qeq_bool]. rewrite Hv, E. cbn.
      right. split; [reflexivity|]. split; [exact Hfix|now right].
    + erewrite put_chan_lookup by (rewrite freq_poked_chans; exact Hc).
      assert (E : Qeq_bool a a' = true) by (apply Qeq_bool_iff; now symmetry).
      cbn -[Qeq_bool]. rewrite Htr, Hv, E, Qeq_bool_refl. cbn. lia.
Qed.

End FreqSet.

Section Freq.

Variable gfw : Q -> double -> result (Q * Z).

Lemma freq_first_pick (b : ddc) (chan : nat) (c : chan_props) (f : Q)
  (chan' : nat) (r : resolver) :
  resolved b -> chans b !! chan = Some c ->
  pick_from gfw 0 (chans (put_chan chan (with_freq c (mk_property f true)) b)) =
    Some (chan', r) ->
  chan' = chan /\ r = mk_resolver [FREQ] [FREQ] (resolve_freq gfw).
Proof.
  intros Hres Hc E.
  apply pick_from_Some in E. destruct E as [c' [_ [Hc' [Hr Htr]]]].
  rewrite Nat.sub_0_r in Hc'. cbn in Hc'.
  destruct (triggered_at gfw b chan c _ r chan' c' Hres Hc Hr Hc' Htr) as [-> ->].
  split; [reflexivity|].
  destruct (chan_clean_flags c (resolved_lookup b chan c Hres Hc))
    as [F1 [F2 [F3 [F4 [F5 [F6 [F7 F8]]]]]]].
  unfold triggered in Htr. simpl in Hr.
  destruct Hr as [<-|[<-|[<-|[<-|[<-|[<-|[<-|[<-|[<-|[]]]]]]]]]];
    cbn in Htr; rewrite ?orb_false_r in Htr; congruence.
Qed.

(** X15. An external set of the frequency on a block at rest.  When
    [get_freq_and_freq_word] raises, so does the set.  When it returns the
    frequency [a] with the word [w], and returns [a] again (up to [==]) when
    asked for [a], resolution ends within two resolver executions, in
    whatever order: the frequency property, which [get_freq] returns, is [a]
    and clean, the word [w] was written to the frequency register of the
    channel, followed by the word for [a] when [a] differs from the
    frequency asked for, and nothing else has changed. *)
Theorem freq_set (fuel : nat) (b : ddc) (chan : nat) (c : chan_props) (f : Q) :
  resolved b -> chans b !! chan = Some c -> (2 <= fuel)%nat ->
  (forall e, gfw f (value (samp_rate_in c)) = Err e ->
     set_property gfw fuel FREQ (VDouble f) chan b = Err e) /\
  (forall a a' w w',
     gfw f (value (samp_rate_in c)) = Ok (a, w) ->
     gfw a (value (samp_rate_in c)) = Ok (a', w') -> (a' == a)%Q ->
     let settled (b' : ddc) :=
       exists fr ws,
         b' = put_chan chan (with_freq c fr) (freq_poked chan ws b) /\
         is_dirty fr = false /\ (value fr == a)%Q /\ (ws = [w] \/ ws = [w; w']) /\
         get_freq chan b' = Ok (value fr) /\
         regs b' = regs b ++ map (fun w => (get_addr SR_FREQ_ADDR chan, wrap 32 w)) ws in
     (exists b', set_property gfw fuel FREQ (VDouble f) chan b = Ok b' /\ settled b') /\
     forall b1 b', write_property FREQ (VDouble f) chan b = Ok b1 ->
                   resolves_to gfw b1 b' -> settled b').
Proof.
  intros Hres Hc Hfuel.
  assert (Hw : write_property FREQ (VDouble f) chan b =
               Ok (put_chan chan (with_freq c (mk_property f true)) b))
    by (eapply write_property_eq; [exact Hc|reflexivity]).
  assert (Hc1 : chans (put_chan chan (with_freq c (mk_property f true)) b) !! chan =
                Some (with_freq c (mk_property f true)))
    by (eapply put_chan_lookup; eassumption).
  split.
  - intros e He. unfold set_property. rewrite Hw. cbn [rbind].
    destruct fuel as [|fuel]; [lia|]. cbn [resolve_all].
    destruct (pick_from gfw 0 _) as [[chan' r]|] eqn:E.
    + destruct (freq_first_pick b chan c f chan' r Hres Hc E) as [-> ->].
      run_on Hc1. rewrite put_chan_twice. unfold resolve_freq, _set_freq.
      erewrite at_put_chan by exact Hc. cbn [rbind].
      cbn [with_freq freq samp_rate_in mark_clean value]. rewrite He. reflexivity.
    + exfalso. apply pick_from_None in E.
      pose proof (resolved_lookup _ chan _ E Hc1 FREQ) as Hcl. discriminate Hcl.
  - intros a a' w w' Hf Ha Hfix settled.
    pose proof (freq_progress gfw b chan c f a a' w w' Hres Hc Hf Ha Hfix) as Hprog.
    assert (HI : exists fr ws,
               put_chan chan (with_freq c (mk_property f true)) b =
               put_chan chan (with_freq c fr) (freq_poked chan ws b) /\
               ((is_dirty fr = true /\
                 ((value fr = f /\ ws = []) \/ (value fr = a /\ ws = [w]))) \/
                (is_dirty fr = false /\ (value fr == a)%Q /\ (ws = [w] \/ ws = [w; w'])))).
    { exists (mk_property f true), []. split; [reflexivity|]. left. cbn. auto. }
    assert (Hend : forall b',
              (exists fr ws,
                 b' = put_chan chan (with_freq c fr) (freq_poked chan ws b) /\
                 ((is_dirty fr = true /\
                   ((value fr = f /\ ws = []) \/ (value fr = a /\ ws = [w]))) \/
                  (is_dirty fr = false /\ (value fr == a)%Q /\
                   (ws = [w] \/ ws = [w; w'])))) ->
              resolved b' -> settled b').
    { intros b' [fr [ws [-> Hst]]] Hres'.
      assert (Hl : chans (put_chan chan (with_freq c fr) (freq_poked chan ws b)) !! chan =
                   Some (with_freq c fr)).
      { eapply put_chan_lookup. rewrite freq_poked_chans. exact Hc. }
      pose proof (resolved_lookup _ _ _ Hres' Hl FREQ) as D. cbn in D.
      destruct Hst as [[Hd _]|[Hd [Hv Hws]]]; [congruence|].
      exists fr, ws. split; [reflexivity|]. split; [exact Hd|]. split; [exact Hv|].
      split; [exact Hws|]. split.
      - unfold get_freq. rewrite (at_Some _ _ _ Hl). reflexivity.
      - change (regs (put_chan chan (with_freq c fr) (freq_poked chan ws b)))
          with (regs (freq_poked chan ws b)).
        apply freq_poked_regs. }
    split.
    + unfold set_property. rewrite Hw. cbn [rbind].
      destruct (chain_resolve_all gfw _ _ Hprog fuel _ HI) as [b' [Hb' [HI' Hres']]].
      { rewrite Hc1. cbn -[Qeq_bool]. destruct (Qeq_bool f a); lia. }
      exists b'. split; [exact Hb'|]. now apply Hend.
    + intros b1 b' Hw' [Hsteps Hres']. rewrite Hw in Hw'. apply Ok_inj in Hw'. subst b1.
      apply Hend; [|exact Hres'].
      exact (chain_steps gfw _ _ Hprog _ _ HI Hsteps).
Qed.

End Freq.

Lemma freq_set_witness :
  exists b' v,
    set_property example_whole_freq_word 2 FREQ (VDouble (5 # 2)) 0 ddc_3_16 = Ok b' /\
    get_freq 0 b' = Ok v /\ (v == 2)%Q.
Proof.
  destruct (freq_set example_whole_freq_word 2 ddc_3_16 0 default_chan_props (5 # 2))
    as [_ H].
  - repeat constructor; intros []; reflexivity.
  - reflexivity.
  - lia.
  - destruct (H 2%Q 2%Q 2 2) as [[b' [Hset [fr [ws [_ [_ [Hv [_ [Hget _]]]]]]]]] _];
      [reflexivity|reflexivity|reflexivity|].
    exists b', (value fr). split; [exact Hset|]. split; [exact Hget|exact Hv].
Defined.

(** *** The output rates *)

(** A quotient by a zero is an infinity or a NaN. *)
Lemma ddiv_zero (x : double) (s : bool) : double_value (ddiv x (S754_zero s)) = None.
Proof. destruct x; reflexivity. Qed.

(** With a halfband, the valid decimations start with 0. *)
Lemma build_decims_head_0 (N M : Z) :
  1 <= N -> 1 <= M -> exists l, build_decims N M = 0 :: l.
Proof.
  intros HN HM.
  assert (H0 : In 0 (build_decims N M)).
  { apply build_decims_In. right. exists 0, 0. repeat split; lia. }
  pose proof (build_decims_sorted N M) as Hs.
  pose proof (build_decims_nonneg N M) as Hnn.
  destruct (build_decims N M) as [|z l]; [destruct H0|].
  destruct H0 as [->|H0]; [now exists l|].
  inversion Hs as [|? ? _ Hall]; subst.
  rewrite List.Forall_forall in Hall. specialize (Hall 0 H0).
  specialize (Hnn z (or_introl eq_refl)). lia.
Qed.



(** X17. On a well-formed block with at least one halfband 0 is a valid
    decimation, and [get_output_rates] returns a list whose last element is
    the input rate divided by zero: an infinity of the sign of the input rate
    when that is finite and not zero, and no number in any case.  Without
    halfbands the only output rate is the input rate divided by 1. *)
Theorem output_rates_constructed (b : ddc) (chan : nat) (c : chan_props) :
  well_formed b -> chans b !! chan = Some c ->
  let r := value (samp_rate_in c) in
  (1 <= num_halfbands b ->
   exists rates,
     get_output_rates chan b = Ok (rates ++ [ddiv r dzero]) /\
     double_value (ddiv r dzero) = None /\
     forall s m e, r = S754_finite s m e -> ddiv r dzero = S754_infinity s) /\
  (num_halfbands b = 0 ->
   get_output_rates chan b = Ok [ddiv r (double_of_int 1)]).
Proof.
  intros Hwf Hc r. pose proof (wf_decims b Hwf) as Hd. pose proof (wf_cic b Hwf) as HM.
  unfold get_output_rates, get_input_rate. rewrite (at_Some _ _ _ Hc). cbn [rbind].
  fold r. split.
  - intros HN.
    destruct (build_decims_head_0 (num_halfbands b) (cic_max_decim b) HN)
      as [l Hl]; [lia|].
    rewrite Hd, Hl. unfold make_valid_decims. cbn [map rev]. rewrite map_app.
    cbn [map]. eexists. split; [reflexivity|]. split; [apply ddiv_zero|].
    intros s m e ->. change (ddiv (S754_finite s m e) dzero)
      with (S754_infinity (xorb s false)).
    now rewrite xorb_false_r.
  - intros HN. rewrite Hd, HN. reflexivity.
Qed.

Lemma output_rates_constructed_witness :
  exists rates,
    get_output_rates 0 ddc_3_16 = Ok (rates ++ [S754_infinity false]).
Proof.
  destruct (output_rates_constructed ddc_3_16 0 default_chan_props) as [H _].
  - constructor; try reflexivity; simpl; lia.
  - reflexivity.
  - destruct H as [rates [H1 [_ H3]]]; [simpl; lia|].
    exists rates. rewrite H1. reflexivity.
Defined.

(** *** Stream commands *)

Lemma handler_fixed_count (b : ddc) (chan : nat) (c : chan_props) (cmd : stream_cmd_t) :
  chans b !! chan = Some c -> 0 < value (decim c) <= INT_MAX ->
  fixed_count (stream_mode cmd) = true ->
  issue_stream_cmd_action_handler (mk_src OUTPUT_EDGE chan) cmd b =
    Ok (post_action (mk_src INPUT_EDGE chan)
          (with_num_samps cmd (wrap 64 (num_samps cmd * value (decim c)))) b) /\
  issue_stream_cmd_action_handler (mk_src INPUT_EDGE chan) cmd b =
    Ok (post_action (mk_src OUTPUT_EDGE chan)
          (with_num_samps cmd (num_samps cmd / value (decim c))) b).
Proof.
  intros Hc Hd Hmode. unfold INT_MAX in Hd.
  assert (Hw : wrap 64 (value (decim c)) = value (decim c)).
  { apply wrap_small. change (2 ^ 64) with 18446744073709551616. lia. }
  unfold issue_stream_cmd_action_handler. cbn. unfold at_. rewrite Hc.
  destruct (stream_mode cmd); try discriminate Hmode; cbn; rewrite Hw.
  all: replace (value (decim c) =? 0) with false by (symmetry; apply Z.eqb_neq; lia).
  all: split; reflexivity.
Qed.

(** X18. In the modes that carry a sample count: a count that is forwarded
    from the output edge to the input edge and back arrives as it was sent,
    provided the product with the decimation fits a [size_t]; a count that is
    forwarded from the input edge to the output edge and back is rounded down
    to a multiple of the decimation. *)
Theorem stream_cmd_round_trip
  (b : ddc) (chan : nat) (c : chan_props) (cmd : stream_cmd_t) :
  chans b !! chan = Some c ->
  0 <= num_samps cmd < 2 ^ 64 -> 0 < value (decim c) <= INT_MAX ->
  fixed_count (stream_mode cmd) = true ->
  let d := value (decim c) in
  (num_samps cmd * d < 2 ^ 64 ->
   exists b1 b2 cmd1,
     issue_stream_cmd_action_handler (mk_src OUTPUT_EDGE chan) cmd b = Ok b1 /\
     posted b1 = posted b ++ [(mk_src INPUT_EDGE chan, cmd1)] /\
     num_samps cmd1 = num_samps cmd * d /\
     issue_stream_cmd_action_handler (mk_src INPUT_EDGE chan) cmd1 b1 = Ok b2 /\
     posted b2 = posted b1 ++ [(mk_src OUTPUT_EDGE chan, cmd)]) /\
  (exists b1 b2 cmd1,
     issue_stream_cmd_action_handler (mk_src INPUT_EDGE chan) cmd b = Ok b1 /\
     posted b1 = posted b ++ [(mk_src OUTPUT_EDGE chan, cmd1)] /\
     num_samps cmd1 = num_samps cmd / d /\
     issue_stream_cmd_action_handler (mk_src OUTPUT_EDGE chan) cmd1 b1 = Ok b2 /\
     posted b2 =
       posted b1 ++
       [(mk_src INPUT_EDGE chan,
         with_num_samps cmd (num_samps cmd - num_samps cmd mod d))]).
Proof.
  intros Hc Hn Hd Hmode d.
  destruct (handler_fixed_count b chan c cmd Hc Hd Hmode) as [Hup Hdown].
  unfold INT_MAX in Hd. fold d in Hd, Hup, Hdown.
  split.
  - intros Hfit.
    assert (Hw : wrap 64 (num_samps cmd * d) = num_samps cmd * d)
      by (apply wrap_small; split; [nia|exact Hfit]).
    rewrite Hw in Hup.
    set (cmd1 := with_num_samps cmd (num_samps cmd * d)).
    set (b1 := post_action (mk_src INPUT_EDGE chan) cmd1 b).
    destruct (handler_fixed_count b1 chan c cmd1 Hc) as [_ Hback];
      [unfold INT_MAX; fold d; lia|exact Hmode|].
    exists b1, (post_action (mk_src OUTPUT_EDGE chan) cmd b1), cmd1.
    split; [exact Hup|]. split; [reflexivity|]. split; [reflexivity|].
    split; [|reflexivity].
    rewrite Hback. fold d. cbn [cmd1 with_num_samps num_samps].
    rewrite Z.div_mul by lia. now destruct cmd.
  - set (cmd1 := with_num_samps cmd (num_samps cmd / d)).
    set (b1 := post_action (mk_src OUTPUT_EDGE chan) cmd1 b).
    destruct (handler_fixed_count b1 chan c cmd1 Hc) as [Hback _];
      [unfold INT_MAX; fold d; lia|exact Hmode|].
    eexists b1, _, cmd1.
    split; [exact Hdown|]. split; [reflexivity|]. split; [reflexivity|].
    split; [exact Hback|]. cbn [post_action posted]. do 3 f_equal.
    fold d. cbn [cmd1 with_num_samps num_samps stream_mode stream_now].
    f_equal. rewrite wrap_small.
    + rewrite (Z.mul_comm _ d). pose proof (Z.div_mod (num_samps cmd) d). lia.
    + pose proof (Z.div_mod (num_samps cmd) d).
      pose proof (Z.mod_pos_bound (num_samps cmd) d).
      assert (0 <= num_samps cmd / d) by (apply Z.div_pos; lia). nia.
Qed.

Lemma stream_cmd_round_trip_witness :
  exists b1 b2 cmd1,
    issue_stream_cmd_action_handler (mk_src INPUT_EDGE 0)
      (mk_stream_cmd STREAM_MODE_NUM_SAMPS_AND_DONE 1003 true) ddc_decim_8 = Ok b1 /\
    posted b1 = [(mk_src OUTPUT_EDGE 0, cmd1)] /\ num_samps cmd1 = 125 /\
    issue_stream_cmd_action_handler (mk_src OUTPUT_EDGE 0) cmd1 b1 = Ok b2 /\
    posted b2 =
      posted b1 ++
      [(mk_src INPUT_EDGE 0, mk_stream_cmd STREAM_MODE_NUM_SAMPS_AND_DONE 1000 true)].
Proof.
  destruct (stream_cmd_round_trip ddc_decim_8 0
              (with_decim default_chan_props (mk_property 8 false))
              (mk_stream_cmd STREAM_MODE_NUM_SAMPS_AND_DONE 1003 true))
    as [_ [b1 [b2 [cmd1 [H1 [H2 [H3 [H4 H5]]]]]]]].
  - reflexivity.
  - simpl. lia.
  - unfold INT_MAX. simpl. lia.
  - reflexivity.
  - exists b1, b2, cmd1. repeat split; assumption.
Defined.

(** X19. The stream command handler posts one action, to the inverted edge
    of the same instance, with the mode and the [stream_now] flag of the
    command it received, and touches nothing else; for an instance that is
    not a channel it raises [out_of_range] in the modes that carry a sample
    count and forwards the command in the other modes; the registered handler
    refuses an action that is no stream command. *)
Theorem stream_cmd_frame (src : res_source_info) (cmd : stream_cmd_t) (b : ddc) :
  (forall b', issue_stream_cmd_action_handler src cmd b = Ok b' ->
     exists dst_type cmd',
       invert_edge (src_type src) = Ok dst_type /\
       b' = post_action (mk_src dst_type (instance src)) cmd' b /\
       stream_mode cmd' = stream_mode cmd /\ stream_now cmd' = stream_now cmd /\
       (fixed_count (stream_mode cmd) = false -> cmd' = cmd)) /\
  (chans b !! instance src = None ->
   forall dst_type, invert_edge (src_type src) = Ok dst_type ->
     (fixed_count (stream_mode cmd) = true ->
      issue_stream_cmd_action_handler src cmd b = Err out_of_range) /\
     (fixed_count (stream_mode cmd) = false ->
      issue_stream_cmd_action_handler src cmd b =
        Ok (post_action (mk_src dst_type (instance src)) cmd b))) /\
  stream_cmd_action_handler src other_action b =
    Err (runtime_error "Received stream_cmd of invalid action type!").
Proof.
  split; [|split; [|reflexivity]].
  - intros b' H. unfold issue_stream_cmd_action_handler in H.
    destruct (invert_edge (src_type src)) as [dst|] eqn:Ei; [|discriminate H].
    cbn [rbind] in H. exists dst.
    destruct (stream_mode cmd) eqn:Em; cbn [rbind] in H.
    1,2: apply Ok_inj in H; subst b'; exists cmd; rewrite Em; auto 10.
    all: inv_ok H; apply Ok_inj in H; subst b'; exists x;
      (split; [reflexivity|]); (split; [reflexivity|]);
      inv_ok E; unfold rescale_stream_cmd in E;
      destruct (src_type src); inv_ok E; apply Ok_inj in E; subst x; cbn;
      rewrite Em; repeat split; discriminate.
  - intros Hc dst Hi. unfold issue_stream_cmd_action_handler. rewrite Hi. cbn [rbind].
    unfold at_. rewrite Hc.
    split; intros Hm; destruct (stream_mode cmd); try discriminate Hm; reflexivity.
Qed.

(** *** The resolvers of the rates *)

Lemma coerce_decim_below_half (b : ddc) (r : Q) :
  well_formed b -> 1 <= num_halfbands b -> (0 < r)%Q -> (r < 1 # 2)%Q ->
  coerce_decim b r = Ok 0.
Proof.
  intros Hwf HN Hr Hhalf.
  destruct (coerce_decim_spec b r Hwf Hr) as [m [Hco [Hm Hmin]]].
  rewrite Hco. f_equal.
  pose proof (build_decims_nonneg _ _ _ Hm) as Hm0.
  assert (H0 : In 0 (build_decims (num_halfbands b) (cic_max_decim b))).
  { apply build_decims_In. right. exists 0, 0. pose proof (wf_cic b Hwf).
    repeat split; lia. }
  specialize (Hmin 0 H0). change (inject_Z 0) with 0%Q in Hmin.
  destruct (Z.eq_dec m 0) as [->|Hne]; [reflexivity|]. exfalso.
  assert (H1 : (1 <= inject_Z m)%Q) by (change 1%Q with (inject_Z 1); rewrite <- Zle_Qle; lia).
  qabs_cases (r - inject_Z m)%Q; qabs_cases (r - 0)%Q; lra.
Qed.

(** X11. The resolver of the input rate never changes the input rate.  It
    returns exactly when [coerce_decim] returns for the quotient of the
    rates, not truncated, and then stores that decimation, the input rate
    divided by it as output rate, and forces the frequency dirty; the
    decimation and the output rate become dirty when their values change.
    On an output rate of zero and an input rate of the same sign the
    quotient is plus infinity and the decimation the largest valid one.  A
    quotient that is a NaN or not positive fails the assertion of
    [coerce_decim].  With a halfband and a quotient below 1/2 the decimation
    becomes 0 and the output rate the input rate divided by zero, an
    infinity or a NaN. *)
Theorem samp_rate_in_resolver (b : ddc) (chan : nat) (c : chan_props) :
  well_formed b -> chans b !! chan = Some c ->
  let rate_in := value (samp_rate_in c) in
  let rate_out := value (samp_rate_out c) in
  let ratio := ddiv rate_in rate_out in
  (forall d, coerce_decim_double b ratio = Ok d ->
     exists c',
       resolve_samp_rate_in chan b = Ok (put_chan chan c' b) /\
       samp_rate_in c' = samp_rate_in c /\
       decim c' = mk_property d (is_dirty (decim c) || negb (value (decim c) =? d)) /\
       samp_rate_out c' =
         mk_property (ddiv rate_in (double_of_int d))
           (is_dirty (samp_rate_out c) ||
            negb (deqb rate_out (ddiv rate_in (double_of_int d)))) /\
       freq c' = force_dirty (freq c) /\
       scaling_in c' = scaling_in c /\ scaling_out c' = scaling_out c /\
       type_in c' = type_in c /\ type_out c' = type_out c) /\
  (forall e, coerce_decim_double b ratio = Err e ->
     resolve_samp_rate_in chan b = Err e) /\
  (forall s m e, rate_in = S754_finite s m e -> rate_out = S754_zero s ->
     exists dmax,
       coerce_decim_double b ratio = Ok dmax /\
       In dmax (build_decims (num_halfbands b) (cic_max_decim b)) /\
       forall d, In d (build_decims (num_halfbands b) (cic_max_decim b)) ->
                 d <= dmax) /\
  (ratio = S754_nan -> resolve_samp_rate_in chan b = Err assertion_error) /\
  (forall q, double_value ratio = Some q -> (q <= 0)%Q ->
     resolve_samp_rate_in chan b = Err assertion_error) /\
  (1 <= num_halfbands b ->
   forall q, double_value ratio = Some q -> (0 < q)%Q -> (q < 1 # 2)%Q ->
     coerce_decim_double b ratio = Ok 0 /\
     double_value (ddiv rate_in (double_of_int 0)) = None).
Proof.
  intros Hwf Hc rate_in rate_out ratio.
  unfold resolve_samp_rate_in. rewrite (at_Some _ _ _ Hc). cbn [rbind].
  fold rate_in rate_out ratio.
  split; [|split; [|split; [|split; [|split]]]].
  - intros d Hco. rewrite Hco. cbn [rbind]. eexists. split; [reflexivity|].
    cbn. auto 10.
  - intros e Hco. now rewrite Hco.
  - intros s m e Hin Hout. unfold ratio. rewrite Hin, Hout.
    change (ddiv (S754_finite s m e) (S754_zero s)) with (S754_infinity (xorb s s)).
    rewrite xorb_nilpotent. now apply coerce_decim_double_inf.
  - intros Hnan. now rewrite Hnan.
  - intros q Hq Hle. unfold coerce_decim_double. rewrite Hq.
    now rewrite (coerce_decim_nonpositive b q Hle).
  - intros HN q Hq Hpos Hhalf. split; [|apply ddiv_zero].
    unfold coerce_decim_double. rewrite Hq.
    now apply coerce_decim_below_half.
Qed.

Lemma samp_rate_in_resolver_witness :
  exists c',
    resolve_samp_rate_in 0
      (put_chan 0
         (with_samp_rate_in default_chan_props
            (mk_property (double_of_int 4000000000) true))
         ddc_3_16) =
    Ok (put_chan 0 c' ddc_3_16) /\
    value (decim c') = 4 /\ value (samp_rate_out c') = double_of_int 1000000000 /\
    is_dirty (samp_rate_out c') = false.
Proof.
  destruct (samp_rate_in_resolver
              (put_chan 0 (with_samp_rate_in default_chan_props
                             (mk_property (double_of_int 4000000000) true)) ddc_3_16)
              0 (with_samp_rate_in default_chan_props
                   (mk_property (double_of_int 4000000000) true)))
    as [H _].
  - constructor; try reflexivity; simpl; lia.
  - reflexivity.
  - destruct (H 4) as [c' [H1 [H2 [H3 [H4 _]]]]].
    + vm_compute. reflexivity.
    + exists c'. rewrite H1, H3, H4, put_chan_twice.
      split; [reflexivity|]. split; [reflexivity|]. split; vm_compute; reflexivity.
Defined.

(** X10. On a well-formed block the resolver of the decimation raises an
    assertion error for a decimation of 0 or less, and returns for every
    decimation of at least 1: the coerced decimation is at least 1 and is
    programmed, the last register written being the scale correction of its
    CIC ratio. *)
Theorem decim_resolver_returns (b : ddc) (chan : nat) (c : chan_props) :
  well_formed b -> chans b !! chan = Some c ->
  (value (decim c) <= 0 -> resolve_decim chan b = Err assertion_error) /\
  (1 <= value (decim c) ->
   exists b' d,
     resolve_decim chan b = Ok b' /\
     coerce_decim b (inject_Z (value (decim c))) = Ok d /\ 1 <= d /\
     last (regs b') = Some (get_addr SR_SCALE_IQ_ADDR chan,
                            scale_correction
                              (snd (halfband_loop (num_halfbands b)
                                      (Z.to_nat (num_halfbands b)) 0 d)))).
Proof.
  intros Hwf Hc. unfold resolve_decim. rewrite (at_Some _ _ _ Hc). cbn [rbind].
  split.
  - intros Hv. rewrite coerce_decim_nonpositive; [reflexivity|].
    change 0%Q with (inject_Z 0). rewrite <- Zle_Qle. exact Hv.
  - intros Hv.
    destruct (coerce_decim_spec b (inject_Z (value (decim c))) Hwf) as [d [Hco _]].
    { change 0%Q with (inject_Z 0). rewrite <- Zlt_Qlt. lia. }
    destruct (coerce_decim_ge_1 b _ d Hwf Hv Hco) as [Hmem Hd].
    destruct (set_decim_member b d chan Hwf Hmem Hd) as [h [cd [Eloop [Hcd Hset]]]].
    rewrite Hco. cbn [rbind].
    cbn [with_decim decim assign_int assign value samp_rate_in]. rewrite Hset.
    cbn [rbind].
    eexists. exists d. split; [reflexivity|]. split; [reflexivity|]. split; [exact Hd|].
    cbn [put_chan set_chans regs programmed]. rewrite last_app. rewrite Eloop. reflexivity.
Qed.

Lemma decim_resolver_returns_witness :
  resolve_decim 0 (put_chan 0 (with_decim default_chan_props (mk_property 0 true)) ddc_3_16)
    = Err assertion_error.
Proof.
  destruct (decim_resolver_returns
              (put_chan 0 (with_decim default_chan_props (mk_property 0 true)) ddc_3_16)
              0 (with_decim default_chan_props (mk_property 0 true))) as [H _].
  - constructor; try reflexivity; simpl; lia.
  - reflexivity.
  - apply H. simpl. lia.
Defined.

Lemma Qtrunc_below_one (x : Q) :
  (inject_Z INT_MIN <= x)%Q -> (x < 1)%Q -> INT_MIN <= Qtrunc x <= 0.
Proof.
  destruct x as [n d]. unfold Qle, Qlt, Qtrunc, INT_MIN. cbn.
  rewrite !Z.mul_1_r, Z.mul_1_l. intros H1 H2. split.
  - apply Z.quot_le_lower_bound; lia.
  - destruct (Z.le_gt_cases 0 n) as [Hn|Hn].
    + rewrite Z.quot_small by lia. lia.
    + apply Z.quot_le_upper_bound; lia.
Qed.

(** X12. The resolver of the output rate truncates the quotient of the
    rates before it coerces: when the quotient is below 1 and in the range of
    [int], as it is for an output rate above the input rate, it raises an
    assertion error instead of clipping to the smallest decimation.  When the
    quotient is an infinity or a NaN, as it is for an output rate of zero,
    [int] of it is undefined. *)
Theorem samp_rate_out_resolver_raises (b : ddc) (chan : nat) (c : chan_props) :
  chans b !! chan = Some c ->
  let rate_in := value (samp_rate_in c) in
  let rate_out := value (samp_rate_out c) in
  let ratio := ddiv rate_in rate_out in
  (forall q, double_value ratio = Some q ->
     (inject_Z INT_MIN <= q)%Q -> (q < 1)%Q ->
     resolve_samp_rate_out chan b = Err assertion_error) /\
  (double_value ratio = None ->
   resolve_samp_rate_out chan b = Err undefined_behaviour) /\
  (forall s, rate_out = S754_zero s -> double_value ratio = None).
Proof.
  intros Hc rate_in rate_out ratio.
  unfold resolve_samp_rate_out. rewrite (at_Some _ _ _ Hc). cbn [rbind].
  fold rate_in rate_out ratio. split; [|split].
  - intros q Hq Hlo Hhi. unfold int_of_double. rewrite Hq.
    destruct (Qtrunc_below_one _ Hlo Hhi) as [H1 H2].
    unfold static_cast_int.
    replace (INT_MIN <=? Qtrunc q) with true
      by (symmetry; apply Z.leb_le; exact H1).
    replace (Qtrunc q <=? INT_MAX) with true
      by (symmetry; apply Z.leb_le; unfold INT_MAX; lia).
    cbn [andb rbind]. rewrite coerce_decim_nonpositive; [reflexivity|].
    change 0%Q with (inject_Z 0). now rewrite <- Zle_Qle.
  - intros Hq. unfold int_of_double. now rewrite Hq.
  - intros s Hs. unfold ratio. rewrite Hs. apply ddiv_zero.
Qed.

Lemma samp_rate_out_resolver_raises_witness :
  resolve_samp_rate_out 0
    (put_chan 0
       (with_samp_rate_out default_chan_props
          (mk_property (double_of_int 1500000000) true))
       ddc_3_16) = Err assertion_error.
Proof.
  destruct (samp_rate_out_resolver_raises
              (put_chan 0 (with_samp_rate_out default_chan_props
                             (mk_property (double_of_int 1500000000) true)) ddc_3_16)
              0 (with_samp_rate_out default_chan_props
                   (mk_property (double_of_int 1500000000) true)))
    as [H _].
  - reflexivity.
  - eapply H.
    + vm_compute. reflexivity.
    + vm_compute. discriminate.
    + reflexivity.
Defined.


(** *** Setting the input rate *)

Section RateSet.

Variable gfw : Q -> double -> result (Q * Z).
Variables (b : ddc) (chan : nat) (c0 : chan_props) (q : double) (a res0 : Q) (d : Z).
Hypothesis Hwf : well_formed b.
Hypothesis Hres : resolved b.
Hypothesis Hc0 : chans b !! chan = Some c0.
Hypothesis Hres0 : residual_scaling b !! chan = Some res0.
Hypothesis Hco : coerce_decim_double b (ddiv q (value (samp_rate_out c0))) = Ok d.
Hypothesis Hd : 1 <= d.
Hypothesis Hround :
  exists t,
    int_of_double (ddiv q (ddiv q (double_of_int d))) = Ok t /\
    coerce_decim b (inject_Z t) = Ok d.
Hypothesis Hback :
  value (decim c0) <> d -> dmul (ddiv q (double_of_int d)) (double_of_int d) = q.
Hypothesis Hgfw :
  forall f, f = value (freq c0) \/ (f == a)%Q ->
    exists a' w', gfw f q = Ok (a', w') /\ (a' == a)%Q.

Let bw := put_chan chan (with_samp_rate_in c0 (mk_property q true)) b.
Let cd := snd (halfband_loop (num_halfbands b) (Z.to_nat (num_halfbands b)) 0 d).
Let R := if value (decim c0) =? d then res0 else residual_of cd.

Lemma write_rate_eq : write_property SAMP_RATE_IN (VRate q) chan b = Ok bw.
Proof. unfold write_property. now rewrite (at_Some _ _ _ Hc0). Qed.

Lemma rate_written_dirty : ~ resolved bw.
Proof.
  intros H.
  assert (Hc1 : chans bw !! chan = Some (with_samp_rate_in c0 (mk_property q true)))
    by (eapply put_chan_lookup; eassumption).
  pose proof (resolved_lookup bw chan _ H Hc1 SAMP_RATE_IN) as Hcl. discriminate Hcl.
Qed.

(** After the external write of the input rate [q] on a block at rest, the
    only resolver that can run is the one of the input rate, and it brings
    the channel into the settling state for the decimation [d]. *)
Lemma rate_first_step (r : resolver) (chan' : nat) (c' : chan_props) :
  In r (resolvers gfw) -> chans bw !! chan' = Some c' -> triggered r c' = true ->
  exists b2 c2,
    run_resolver r chan' bw = Ok b2 /\
    rate_settling gfw chan q a (value (freq c0)) d cd res0 R b2 c2 /\
    (settle_measure R c2 + freq_measure a c2 <= 7)%nat.
Proof.
  intros Hr Hc' Htr.
  destruct (triggered_at gfw b chan c0 _ r chan' c' Hres Hc0 Hr Hc' Htr) as [-> ->].
  destruct (chan_clean_flags c0 (resolved_lookup b chan c0 Hres Hc0))
    as [F1 [F2 [F3 [F4 [F5 [F6 [F7 F8]]]]]]].
  assert (Hc1 : chans bw !! chan = Some (with_samp_rate_in c0 (mk_property q true)))
    by (eapply put_chan_lookup; eassumption).
  unfold triggered in Htr. simpl in Hr.
  destruct Hr as [<-|[<-|[<-|[<-|[<-|[<-|[<-|[<-|[<-|[]]]]]]]]]];
    cbn in Htr; rewrite ?orb_false_r in Htr; try congruence.
  clear Htr.
  eexists. eexists. split; [|split].
  - run_on Hc1. unfold bw. rewrite put_chan_twice. unfold resolve_samp_rate_in.
    erewrite at_put_chan by exact Hc0. cbn [rbind].
    cbn [with_samp_rate_in samp_rate_in samp_rate_out mark_clean value].
    change (coerce_decim_double (put_chan chan _ b)) with (coerce_decim_double b).
    rewrite Hco. cbn [rbind].
    rewrite put_chan_twice. reflexivity.
  - constructor.
    + eapply wf_put_chan; eassumption.
    + intros i ci Hne Hi. cbn in Hi.
      rewrite list_lookup_insert_ne in Hi by congruence.
      eapply resolved_lookup; eassumption.
    + eapply put_chan_lookup; eassumption.
    + reflexivity.
    + reflexivity.
    + reflexivity.
    + reflexivity.
    + exact Hround.
    + cbn. rewrite F5. cbn. unfold R.
      destruct (value (decim c0) =? d); exact Hres0.
    + cbn. rewrite F5. cbn. unfold R. intros H.
      destruct (value (decim c0) =? d) eqn:E; [discriminate|].
      apply Z.eqb_neq in E. repeat split; auto.
    + now left.
    + cbn. discriminate.
    + intros _. exact Hgfw.
    + exact F7.
    + exact F8.
    + exact (coerce_decim_double_member b _ d Hwf Hco).
    + reflexivity.
  - unfold settle_measure, freq_measure. cbn -[Qeq_bool Qmult Z.eqb deqb].
    rewrite F3, F4, F5, F2. cbn -[Qeq_bool Qmult Z.eqb deqb].
    destruct (value (decim c0) =? d), (deqb (value (samp_rate_out c0)) _),
      (Qeq_bool (value (freq c0)) a); cbn; lia.
Qed.

(** The resolution that follows an external write of the input rate. *)
Lemma rate_resolution (fuel : nat) :
  (8 <= fuel)%nat ->
  (exists b' c',
     set_property gfw fuel SAMP_RATE_IN (VRate q) chan b = Ok b' /\ resolved b' /\
     chans b' !! chan = Some c' /\ value (samp_rate_in c') = q /\
     value (decim c') = d /\
     value (samp_rate_out c') = ddiv q (double_of_int d) /\
     (value (freq c') == a)%Q) /\
  (forall b1 b2,
     write_property SAMP_RATE_IN (VRate q) chan b = Ok b1 -> resolves_to gfw b1 b2 ->
     exists c2,
       chans b2 !! chan = Some c2 /\ value (samp_rate_in c2) = q /\
       value (decim c2) = d /\
       value (samp_rate_out c2) = ddiv q (double_of_int d) /\
       (value (freq c2) == a)%Q).
Proof.
  intros Hfuel.
  destruct (settle_after_write gfw chan q a (value (freq c0)) d cd res0 R Hd bw 7
              rate_written_dirty rate_first_step) as [Hrun Hany].
  split.
  - destruct (Hrun fuel ltac:(lia)) as [b' [c' [Hb' [S Hrest]]]].
    destruct (settled_result gfw chan _ _ _ d cd res0 R b' c' S Hrest)
      as [H1 [H2 [H3 [H4 H5]]]].
    exists b', c'. unfold set_property. rewrite write_rate_eq. cbn [rbind].
    auto 10.
  - intros b1 b2 Hw [Hsteps Hrest]. rewrite write_rate_eq in Hw.
    apply Ok_inj in Hw. subst b1.
    destruct (Hany b2 Hsteps Hrest) as [c2 S].
    destruct (settled_result gfw chan _ _ _ d cd res0 R b2 c2 S Hrest)
      as [H1 [H2 [H3 [H4 H5]]]].
    exists c2. auto.
Qed.

End RateSet.

(** X27. After an external set of the input rate of a channel to [q], on a
    block at rest, when [coerce_decim] of the quotient of [q] by the output
    rate is [d >= 1], the quotient of [q] by [q / d], truncated, is coerced
    back to [d], [q / d] times [d] is [q] again in case [d] is not the
    decimation the channel had, and the frequency word computation at rate
    [q] realises the frequency [a] for the frequency the channel had and for
    [a] itself: resolution ends within eight resolver executions, and
    however the engine orders the resolvers, the block at rest has input
    rate [q], decimation [d], output rate [q / d] and frequency [a]. *)
Theorem input_rate_set
  (gfw : Q -> double -> result (Q * Z)) (n : nat) (b : ddc) (chan : nat)
  (c0 : chan_props) (q : double) (a : Q) (d : Z) :
  well_formed b -> resolved b -> chans b !! chan = Some c0 ->
  coerce_decim_double b (ddiv q (value (samp_rate_out c0))) = Ok d -> 1 <= d ->
  (exists t,
     int_of_double (ddiv q (ddiv q (double_of_int d))) = Ok t /\
     coerce_decim b (inject_Z t) = Ok d) ->
  (value (decim c0) <> d ->
   dmul (ddiv q (double_of_int d)) (double_of_int d) = q) ->
  (forall f, f = value (freq c0) \/ (f == a)%Q ->
     exists a' w', gfw f q = Ok (a', w') /\ (a' == a)%Q) ->
  (8 <= n)%nat ->
  (exists b' c',
     set_property gfw n SAMP_RATE_IN (VRate q) chan b = Ok b' /\ resolved b' /\
     chans b' !! chan = Some c' /\ value (samp_rate_in c') = q /\
     value (decim c') = d /\
     value (samp_rate_out c') = ddiv q (double_of_int d) /\
     (value (freq c') == a)%Q) /\
  (forall b1 b2,
     write_property SAMP_RATE_IN (VRate q) chan b = Ok b1 -> resolves_to gfw b1 b2 ->
     exists c2,
       chans b2 !! chan = Some c2 /\ value (samp_rate_in c2) = q /\
       value (decim c2) = d /\
       value (samp_rate_out c2) = ddiv q (double_of_int d) /\
       (value (freq c2) == a)%Q).
Proof.
  intros Hwf Hres Hc0 Hco Hd Hround Hback Hgfw Hn.
  destruct (lookup_lt_is_Some_2 (residual_scaling b) chan) as [res0 Hres0].
  { rewrite (wf_ports b Hwf). eapply lookup_lt_Some; eassumption. }
  exact (rate_resolution gfw b chan c0 q a res0 d Hwf Hres Hc0 Hres0 Hco Hd Hround
           Hback Hgfw n Hn).
Qed.

Lemma input_rate_set_witness :
  exists b' c',
    set_property example_whole_freq_word 8 SAMP_RATE_IN
      (VRate (double_of_int 2000000000)) 0 ddc_3_16 = Ok b' /\
    chans b' !! 0%nat = Some c' /\ value (decim c') = 2 /\
    value (samp_rate_out c') =
      ddiv (double_of_int 2000000000) (double_of_int 2) /\
    (value (freq c') == 0)%Q.
Proof.
  destruct (input_rate_set example_whole_freq_word 8 ddc_3_16 0 default_chan_props
              (double_of_int 2000000000) 0 2)
    as [[b' [c' [Hset [_ [Hc' [_ [Hdec [Hout Hfreq]]]]]]]] _].
  - constructor; try reflexivity; simpl; lia.
  - repeat constructor; intros []; reflexivity.
  - reflexivity.
  - vm_compute. reflexivity.
  - lia.
  - exists 2. split; vm_compute; reflexivity.
  - intros _. vm_compute. reflexivity.
  - intros f Hf. exists (inject_Z (Qfloor f)), (Qfloor f).
    split; [reflexivity|].
    destruct Hf as [->|Hf]; [reflexivity|]. rewrite Hf. reflexivity.
  - lia.
  - exists b', c'. split; [exact Hset|]. split; [exact Hc'|]. split; [exact Hdec|].
    split; [exact Hout|exact Hfreq].
Defined.
End DDCBehaviour.
